(** * Logic trees of openquake.commonlib.logictree: construction,
      enumeration and sampling.

    The development follows the Python module: exact-looking decimal weights
    ([decimal.Decimal] with the default context), the objects [Branch] and
    [BranchSet], the builder [BaseLogicTree] with its two subclasses, the
    flat [GsimLogicTree], and the two ways of walking a tree. *)

From Stdlib Require Import ZArith QArith Lia Lra Ascii String.
From stdpp Require Import base option list gmap sets strings sorting.

Local Open Scope Z_scope.
Set Warnings "-clear-no-such-hyp".

(** ** Python's [decimal.Decimal]

    A finite decimal is a signed coefficient and an exponent; its value is
    [coef * 10 ^ exp].  The constructor [Decimal(text)] is exact; every
    arithmetic operation rounds its exact result to the context precision
    (28 significant digits, ties to even), which is what [_fix] does below.
    The exponent limits of the context (about 1e9 in magnitude) are out of
    reach of the weights of a logic tree and are left out. *)
Module Decimal.

Record t : Type := mk { coef : Z; exp : Z }.

Definition prec : Z := 28.

Fixpoint ndigits_go (fuel : nat) (n : Z) : Z :=
  match fuel with
  | O => 0
  | S fuel => if n <? 10 then 1 else 1 + ndigits_go fuel (n / 10)
  end.

(** [len(self._int)] for a non-zero coefficient, 0 for zero. *)
Definition ndigits (n : Z) : Z :=
  if n =? 0 then 0 else ndigits_go (S (Z.to_nat (Z.log2 n))) n.

(** [Decimal._fix] with ROUND_HALF_EVEN: keep the leading [prec] digits,
    round on the rest, and drop one more digit when the increment carries
    into a new digit. *)
Definition _fix (d : t) : t :=
  let c := Z.abs (coef d) in
  let n := ndigits c in
  if n <=? prec then d
  else
    let k := n - prec in
    let p := 10 ^ k in
    let q := c / p in
    let r := c mod p in
    let q' := if (p <? 2 * r) || ((2 * r =? p) && Z.odd q)
              then q + 1 else q in
    if prec <? ndigits q'
    then mk (Z.sgn (coef d) * (q' / 10)) (exp d + k + 1)
    else mk (Z.sgn (coef d) * q') (exp d + k).

Definition add (a b : t) : t :=
  let e := Z.min (exp a) (exp b) in
  _fix (mk (coef a * 10 ^ (exp a - e) + coef b * 10 ^ (exp b - e)) e).

Definition mul (a b : t) : t :=
  _fix (mk (coef a * coef b) (exp a + exp b)).

(** The Python integers [0] and [1] the accumulators start from. *)
Definition of_int (n : Z) : t := mk n 0.

(** The value of a decimal as a rational number. *)
Definition to_Q (d : t) : Q :=
  if 0 <=? exp d then inject_Z (coef d * 10 ^ exp d)
  else Qmake (coef d) (Z.to_pos (10 ^ (- exp d))).

(** [d == 1], also the negation of [d != 1.0]: comparisons are by value. *)
Definition eq_one (d : t) : bool := Qeq_bool (to_Q d) 1.

(** [d >= x] for a float [x]; Python 2.7 compares the two exact values,
    so the float is taken as the rational it denotes. *)
Definition ge_float (d : t) (x : Q) : bool := Qle_bool x (to_Q d).

(** The builtin [sum(ws)] and the loops [acc = 0; acc += w]. *)
Definition sum (ws : list t) : t := fold_left add ws (of_int 0).

End Decimal.

(** ** Exceptions and results *)

(** The messages of the module, with the values interpolated into them. *)
Inductive message : Type :=
  | BranchIdNotUnique (branch_id : string)
  | WeightsDontSumUp
  | BranchNotYetDefined (branch_id : string)
  | BranchHasChild (branch_id : string)
  | ApplyToBranchesLevel
  | MissingTrts (missing : list string)
  | GmpeOnlyTrtFilter
  | NoSourcesOfTrt (trt : string)
  | TrtAlreadyDefined (trt : string)
  | UnknownGsimClass (value : string)
  | OnlyGmpeModelAllowed
  | OnlyOneBranchsetPerLevel
  | FiltersNotAllowedOnSourceModel
  | OnlyOneFilterAllowed
  | NoSourcesOfType (source_type : string)
  | SourceIdNotDefined (source_id : string)
  | AbsoluteNeedsOneSource (uncertainty_type : string)
  | OneBranchsetOnFirstLevel
  | FirstMustBeSourceModel
  | SourceModelOnFirstOnly
  | GmpeNotAllowedInSourceModel
  | ExpectedPairOfFloats
  | ExpectedSingleFloat
  | DoWeightsSumUp
  | CouldntFindBranch (branch_id : string)
  | OtherMessage (text : string).

Inductive exn : Type :=
  | ValidationError (msg : message)
  | ParsingError (msg : string)
  | InvalidLogicTree (msg : string)
  | AssertionError (msg : message)
  | KeyError (key : string)
  | ValueError (text : string)
  | AttributeError (attr : string)
  | IndexError
  | IOError (file : string).

Inductive result (A : Type) : Type :=
  | Ok (a : A)
  | Raise (e : exn).
Arguments Ok {A} a.
Arguments Raise {A} e.

Global Instance result_ret : MRet result := λ A a, Ok a.
Global Instance result_bind : MBind result := λ A B k r,
  match r with
  | Ok a => k a
  | Raise e => Raise e
  end.

Definition is_ok {A} (r : result A) : Prop := ∃ a, r = Ok a.

Definition is_validation_error {A} (r : result A) : Prop :=
  ∃ m, r = Raise (ValidationError m).

(** ** Branch and BranchSet *)

(** The value of a branch; its shape depends on the uncertainty type. *)
Inductive Value (F G : Type) : Type :=
  | VText (s : string)
  | VFloat (x : F)
  | VPair (a b : F)
  | VGsim (g : G).
Arguments VText {F G} s.
Arguments VFloat {F G} x.
Arguments VPair {F G} a b.
Arguments VGsim {F G} g.

(** The value of a filter: the text of the attribute, or the list of
    source ids [parse_filters] makes of it. *)
Inductive FilterValue : Type :=
  | FText (s : string)
  | FList (l : list string).

(** A reference to a [BranchSet] object: its index in the store of the
    tree, in the order of creation. *)
Abbreviation bsref := nat (only parsing).

Section Trees.

  (** Python floats and the GSIM classes of hazardlib are opaque here. *)
Context {F G : Type}.

(** The fields a [Branch] is built with.  Its one mutable field,
    [child_branchset], lives in the store of the tree, keyed by the
    branch id: [parse_branches] never keeps two branch objects with the
    same id, so the id stands for the identity of the object. *)
Record Branch : Type := mkBranch {
  branch_id : string;
  weight : Decimal.t;
  value : Value F G
}.

Record BranchSet : Type := mkBranchSet {
  uncertainty_type : string;
  filters : gmap string FilterValue;
  branches : list Branch
}.

(** *** The input document

    The document as lxml hands it over once it has passed the NRML
    schema: a list of branching levels, each a list of branchset nodes.
    The schema makes [uncertaintyType] mandatory and the weight a decimal
    literal, so a branch node carries the decimal its text denotes. *)
Record BranchNode : Type := mkBranchNode {
  branchID : string;
  uncertaintyWeight : Decimal.t;
  uncertaintyModel : string
}.

Record BranchSetNode : Type := mkBranchSetNode {
  uncertaintyType : string;
  attrib : gmap string string;
  logicTreeBranch : list BranchNode
}.

Definition BranchingLevelNode : Type := list BranchSetNode.

(** *** BaseLogicTree

    The attributes of a tree object.  [branchsets] is the store of the
    [BranchSet] objects created so far and [child_branchset] holds the
    field of that name of every branch that has one; [variant] stands for
    the attributes a subclass adds. *)
Record BaseLogicTree (V : Type) : Type := mkTree {
  basepath : string;
  filename : string;
  seed : Z;
  num_samples : Z;
  tree_branches : gmap string Branch;
  open_ends : gset string;
  root_branchset : option bsref;
  branchsets : list BranchSet;
  child_branchset : gmap string bsref;
  variant : V
}.
Arguments mkTree {V}.
Arguments basepath {V}.
Arguments filename {V}.
Arguments seed {V}.
Arguments num_samples {V}.
Arguments tree_branches {V}.
Arguments open_ends {V}.
Arguments root_branchset {V}.
Arguments branchsets {V}.
Arguments child_branchset {V}.
Arguments variant {V}.

Definition set_variant {V} (self : BaseLogicTree V) (v : V) :=
  mkTree (basepath self) (filename self) (seed self) (num_samples self)
    (tree_branches self) (open_ends self) (root_branchset self)
    (branchsets self) (child_branchset self) v.

Definition set_tree_branches {V} (self : BaseLogicTree V) bs :=
  mkTree (basepath self) (filename self) (seed self) (num_samples self)
    bs (open_ends self) (root_branchset self)
    (branchsets self) (child_branchset self) (variant self).

Definition set_open_ends {V} (self : BaseLogicTree V) oe :=
  mkTree (basepath self) (filename self) (seed self) (num_samples self)
    (tree_branches self) oe (root_branchset self)
    (branchsets self) (child_branchset self) (variant self).

Definition set_root_branchset {V} (self : BaseLogicTree V) r :=
  mkTree (basepath self) (filename self) (seed self) (num_samples self)
    (tree_branches self) (open_ends self) r
    (branchsets self) (child_branchset self) (variant self).

Definition set_branchsets {V} (self : BaseLogicTree V) l :=
  mkTree (basepath self) (filename self) (seed self) (num_samples self)
    (tree_branches self) (open_ends self) (root_branchset self)
    l (child_branchset self) (variant self).

Definition set_child_branchset {V} (self : BaseLogicTree V) c :=
  mkTree (basepath self) (filename self) (seed self) (num_samples self)
    (tree_branches self) (open_ends self) (root_branchset self)
    (branchsets self) c (variant self).

(** The methods a subclass supplies.  The validation and parsing hooks of
    both subclasses read and write only the attributes the subclass adds,
    which is the state they are given here; [apply_branchset] works on
    the tree. *)
Record Hooks (V : Type) : Type := mkHooks {
  skip_branchset_condition : V → gmap string string → result bool;
  parse_uncertainty_value : V → BranchSet → string → result (Value F G);
  validate_uncertainty_value : V → BranchSet → string → result V;
  parse_filters :
    BranchSetNode → string → gmap string string → gmap string FilterValue;
  validate_filters :
    V → BranchSetNode → string → gmap string string → result V;
  validate_branchset : V → BranchSetNode → nat → nat → BranchSet → result ();
  apply_branchset :
    BranchSetNode → bsref → BaseLogicTree V → result (BaseLogicTree V);
  validate_tree : V → result ()
}.
Arguments skip_branchset_condition {V}.
Arguments parse_uncertainty_value {V}.
Arguments validate_uncertainty_value {V}.
Arguments parse_filters {V}.
Arguments validate_filters {V}.
Arguments validate_branchset {V}.
Arguments apply_branchset {V}.
Arguments validate_tree {V}.

Definition FILTERS : list string :=
  ["applyToTectonicRegionType"; "applyToSources"; "applyToSourceType"]%string.

(** [text.strip()] *)
Fixpoint lstrip (s : string) : string :=
  match s with
  | String a s' => if Ascii.is_space a then lstrip s' else s
  | EmptyString => EmptyString
  end.
Definition strip (s : string) : string :=
  String.rev (lstrip (String.rev (lstrip s))).

(** The base-class [apply_branchset]: every open end gets the branchset
    as its child. *)
Definition base_apply_branchset {V} (_ : BranchSetNode) (branchset : bsref)
    (self : BaseLogicTree V) : result (BaseLogicTree V) :=
  Ok (set_child_branchset self
        (set_fold (λ branch c, <[branch := branchset]> c)
           (child_branchset self) (open_ends self))).

Section Builder.
Context {V : Type} (hooks : Hooks V).

(** The body of the loop of [parse_branches] for one branch node. *)
Definition parse_branch (validate : bool)
    (st : Decimal.t * BaseLogicTree V * BranchSet) (branchnode : BranchNode)
  : result (Decimal.t * BaseLogicTree V * BranchSet) :=
  let '(weight_sum, self, branchset) := st in
  let weight := uncertaintyWeight branchnode in
  let weight_sum := Decimal.add weight_sum weight in
  let text := strip (uncertaintyModel branchnode) in
  self ← (if validate
          then v ← validate_uncertainty_value hooks (variant self)
                     branchset text;
               Ok (set_variant self v)
          else Ok self);
  value ← parse_uncertainty_value hooks (variant self) branchset text;
  let branch_id := branchID branchnode in
  let branch := mkBranch branch_id weight value in
  if decide (is_Some (tree_branches self !! branch_id))
  then Raise (ValidationError (BranchIdNotUnique branch_id))
  else
    Ok (weight_sum,
        set_tree_branches self (<[branch_id := branch]> (tree_branches self)),
        mkBranchSet (uncertainty_type branchset) (filters branchset)
          (branches branchset ++ [branch])).

Fixpoint parse_branch_loop (validate : bool)
    (st : Decimal.t * BaseLogicTree V * BranchSet) (nodes : list BranchNode)
  : result (Decimal.t * BaseLogicTree V * BranchSet) :=
  match nodes with
  | [] => Ok st
  | branchnode :: nodes =>
      st ← parse_branch validate st branchnode;
      parse_branch_loop validate st nodes
  end.

Definition parse_branches (self : BaseLogicTree V)
    (branchset_node : BranchSetNode) (branchset : BranchSet)
    (validate : bool) : result (BaseLogicTree V * BranchSet) :=
  '(weight_sum, self, branchset) ←
    parse_branch_loop validate (Decimal.of_int 0, self, branchset)
      (logicTreeBranch branchset_node);
  if Decimal.eq_one weight_sum then Ok (self, branchset)
  else Raise (ValidationError WeightsDontSumUp).

Definition parse_branchset (self : BaseLogicTree V)
    (branchset_node : BranchSetNode) (depth number : nat) (validate : bool)
  : result (BaseLogicTree V * BranchSet) :=
  let uncertainty_type := uncertaintyType branchset_node in
  let filters : gmap string string :=
    filter (λ kv, kv.1 ∈ FILTERS) (attrib branchset_node) in
  self ← (if validate
          then v ← validate_filters hooks (variant self) branchset_node
                     uncertainty_type filters;
               Ok (set_variant self v)
          else Ok self);
  let filters := parse_filters hooks branchset_node uncertainty_type filters in
  let branchset := mkBranchSet uncertainty_type filters [] in
  _ ← (if validate
       then validate_branchset hooks (variant self) branchset_node
              depth number branchset
       else Ok ());
  Ok (self, branchset).

(** The body of the loop of [parse_branchinglevel] for one branchset
    node.  The new [BranchSet] enters the store when it becomes the root
    or is applied: until then only the local variable refers to it. *)
Definition parse_level_branchset (depth : nat) (validate : bool)
    (st : BaseLogicTree V * gset string) (numbered : nat * BranchSetNode)
  : result (BaseLogicTree V * gset string) :=
  let '(self, new_open_ends) := st in
  let '(number, branchset_node) := numbered in
  skip ← skip_branchset_condition hooks (variant self) (attrib branchset_node);
  if (skip : bool) then Ok (self, new_open_ends)
  else
    '(self, branchset) ← parse_branchset self branchset_node depth number
                           validate;
    '(self, branchset) ← parse_branches self branchset_node branchset
                           validate;
    let ref : bsref := length (branchsets self) in
    let self := set_branchsets self (branchsets self ++ [branchset]) in
    self ← (match root_branchset self with
            | None => Ok (set_root_branchset self (Some ref))
            | Some _ => apply_branchset hooks branchset_node ref self
            end);
    Ok (self,
        new_open_ends ∪ list_to_set (branch_id <$> branches branchset)).

Fixpoint parse_level_loop (depth : nat) (validate : bool)
    (st : BaseLogicTree V * gset string)
    (nodes : list (nat * BranchSetNode))
  : result (BaseLogicTree V * gset string) :=
  match nodes with
  | [] => Ok st
  | n :: nodes =>
      st ← parse_level_branchset depth validate st n;
      parse_level_loop depth validate st nodes
  end.

Definition parse_branchinglevel (self : BaseLogicTree V)
    (branchinglevel_node : BranchingLevelNode) (depth : nat)
    (validate : bool) : result (BaseLogicTree V) :=
  '(self, new_open_ends) ←
    parse_level_loop depth validate (self, ∅)
      (imap (λ number n, (number, n)) branchinglevel_node);
  Ok (set_open_ends self new_open_ends).

(** The loop of [parse_tree] over the levels, from level [depth] on. *)
Fixpoint parse_levels (self : BaseLogicTree V)
    (levels : list BranchingLevelNode) (depth : nat) (validate : bool)
  : result (BaseLogicTree V) :=
  match levels with
  | [] => Ok self
  | branchinglevel_node :: levels =>
      self ← parse_branchinglevel self branchinglevel_node depth validate;
      parse_levels self levels (S depth) validate
  end.

Definition parse_tree (self : BaseLogicTree V)
    (tree_node : list BranchingLevelNode) (validate : bool)
  : result (BaseLogicTree V) :=
  self ← parse_levels self tree_node 0 validate;
  if validate
  then _ ← validate_tree hooks (variant self); Ok self
  else Ok self.

(** [__init__], from the parsed document on; [v] holds the attributes
    the subclass set before calling the base constructor. *)
Definition init (v : V) (content : list BranchingLevelNode)
    (basepath filename : string) (validate : bool) (seed num_samples : Z)
  : result (BaseLogicTree V) :=
  parse_tree (mkTree basepath filename seed num_samples ∅ ∅ None [] ∅ v)
    content validate.

End Builder.

(** *** Enumeration of the paths

    The walkers follow the [child_branchset] links through the store.  A
    Python run on a cyclic structure would not end; here the recursion is
    bounded by [fuel], and [None] means that the bound was reached (or
    that a reference points outside the store).  [enough_fuel] below shows
    that constructed trees never get there. *)
Section Walk.
Context (store : list BranchSet) (child : gmap string bsref).

(** A path as [_enumerate_paths] builds it, [[prefix_path, branch]]:
    a list with the last branch first. *)
Fixpoint _enumerate_paths (fuel : nat) (self : bsref)
    (prefix_path : list Branch) : option (list (list Branch)) :=
  match fuel with
  | O => None
  | S fuel =>
      branchset ← store !! self;
      subpaths ← mapM (λ branch,
                    let path := branch :: prefix_path in
                    match child !! branch_id branch with
                    | Some c => _enumerate_paths fuel c path
                    | None => Some [path]
                    end) (branches branchset);
      Some (concat subpaths)
  end.

(** The body of the loop of [enumerate_paths]: the weight is multiplied
    while the nested path is unwound, from the last branch back to the
    first, and the flat path is reversed at the end. *)
Definition flatten_path (path : list Branch) : Decimal.t * list Branch :=
  (fold_left (λ w branch, Decimal.mul w (weight branch)) path
     (Decimal.mk 10 (-1)),
   rev path).

Definition enumerate_paths (fuel : nat) (self : bsref)
  : option (list (Decimal.t * list Branch)) :=
  match _enumerate_paths fuel self [] with
  | Some paths => Some (map flatten_path paths)
  | None => None
  end.

Fixpoint get_branch_by_id (bs : list Branch) (id : string)
  : result Branch :=
  match bs with
  | [] => Raise (AssertionError (CouldntFindBranch id))
  | branch :: bs =>
      if decide (branch_id branch = id) then Ok branch
      else get_branch_by_id bs id
  end.
End Walk.

(** *** sample_one and sample *)

(** The loop of [sample_one], with the accumulator made explicit. *)
Fixpoint sample_one_from (acc : Decimal.t) (bs : list Branch) (diceroll : Q)
  : result Branch :=
  match bs with
  | [] => Raise (AssertionError DoWeightsSumUp)
  | branch :: bs =>
      let acc := Decimal.add acc (weight branch) in
      if Decimal.ge_float acc diceroll then Ok branch
      else sample_one_from acc bs diceroll
  end.

Section Rnd.
  (** A random object: anything with a method [random()]. *)
Context {Rng : Type} (random : Rng → Q * Rng).

Definition sample_one (bs : list Branch) (rnd : Rng)
  : result Branch * Rng :=
  let '(diceroll, rnd) := random rnd in
  (sample_one_from (Decimal.of_int 0) bs diceroll, rnd).

Fixpoint sample (weighted_objects : list Branch) (num_samples : nat)
    (rnd : Rng) : result (list Branch) * Rng :=
  match num_samples with
  | O => (Ok [], rnd)
  | S n =>
      match sample_one weighted_objects rnd with
      | (Ok b, rnd) =>
          match sample weighted_objects n rnd with
          | (Ok subsequence, rnd) => (Ok (b :: subsequence), rnd)
          | (Raise e, rnd) => (Raise e, rnd)
          end
      | (Raise e, rnd) => (Raise e, rnd)
      end
  end.

(** The loop of [sample_path]. *)
Fixpoint sample_path_loop (store : list BranchSet)
    (child : gmap string bsref) (fuel : nat) (branchset : option bsref)
    (branch_ids : list string) (rnd : Rng)
  : option (result (list string) * Rng) :=
  match branchset with
  | None => Some (Ok branch_ids, rnd)
  | Some r =>
      match fuel with
      | O => None
      | S fuel =>
          bset ← store !! r;
          match sample (branches bset) 1 rnd with
          | (Ok [branch], rnd) =>
              sample_path_loop store child fuel
                (child !! branch_id branch)
                (branch_ids ++ [branch_id branch]) rnd
          | (Ok _, rnd) => Some (Raise (ValueError "unpack"), rnd)
          | (Raise e, rnd) => Some (Raise e, rnd)
          end
      end
  end.

Definition sample_path {V} (fuel : nat) (self : BaseLogicTree V) (rnd : Rng)
  : option (result (Value F G * list string) * Rng) :=
  '(r, rnd) ← sample_path_loop (branchsets self) (child_branchset self)
                fuel (root_branchset self) [] rnd;
  match r with
  | Raise e => Some (Raise e, rnd)
  | Ok branch_ids =>
      match root_branchset self with
      | None => Some (Raise (AttributeError "get_branch_by_id"), rnd)
      | Some root =>
          bset ← branchsets self !! root;
          match branch_ids with
          | [] => Some (Raise IndexError, rnd)
          | first :: _ =>
              Some (b ← get_branch_by_id (branches bset) first;
                    Ok (value b, branch_ids), rnd)
          end
      end
  end.

(** A realization: [LtRealization(value, weight, lt_path)], and the
    bare triple with weight [None] that sampling yields. *)
Record LtRealization : Type := mkLtRealization {
  rlz_value : Value F G;
  rlz_weight : option Decimal.t;
  lt_path : list string
}.

(** The sampling branch of [__iter__]: the loop over
    [xrange(num_samples)], given the generator. *)
Fixpoint iter_samples {V} (fuel : nat) (self : BaseLogicTree V)
    (n : nat) (rnd : Rng) : option (result (list LtRealization)) :=
  match n with
  | O => Some (Ok [])
  | S n =>
      '(r, rnd) ← sample_path fuel self rnd;
      match r with
      | Raise e => Some (Raise e)
      | Ok (name, sm_lt_path) =>
          rest ← iter_samples fuel self n rnd;
          Some (rest ← rest;
                Ok (mkLtRealization name None sm_lt_path :: rest))
      end
  end.

(** The body of the enumeration loop of [__iter__]. *)
Definition enumerated (path : Decimal.t * list Branch)
  : result LtRealization :=
  let '(weight, smlt_path) := path in
  match smlt_path with
  | [] => Raise IndexError
  | first :: _ =>
      Ok (mkLtRealization (value first) (Some weight)
            (branch_id <$> smlt_path))
  end.

(** [random.Random(seed)] *)
Context (Random : Z → Rng).

(** [__iter__]: the list of the realizations the generator yields. *)
Definition iter {V} (fuel : nat) (self : BaseLogicTree V)
  : option (result (list LtRealization)) :=
  if decide (num_samples self ≠ 0)
  then
    let rnd := Random (seed self) in
    iter_samples fuel self (Z.to_nat (num_samples self)) rnd
  else
    match root_branchset self with
    | None => Some (Raise (AttributeError "enumerate_paths"))
    | Some root =>
        paths ← enumerate_paths (branchsets self) (child_branchset self)
                  fuel root;
        Some (mapM enumerated paths)
    end.
End Rnd.


End Trees.

Arguments mkTree {F G V}.
Arguments basepath {F G V}.
Arguments filename {F G V}.
Arguments seed {F G V}.
Arguments num_samples {F G V}.
Arguments tree_branches {F G V}.
Arguments open_ends {F G V}.
Arguments root_branchset {F G V}.
Arguments branchsets {F G V}.
Arguments child_branchset {F G V}.
Arguments variant {F G V}.
Arguments mkHooks {F G V}.
Arguments skip_branchset_condition {F G V}.
Arguments parse_uncertainty_value {F G V}.
Arguments validate_uncertainty_value {F G V}.
Arguments parse_filters {F G V}.
Arguments validate_filters {F G V}.
Arguments validate_branchset {F G V}.
Arguments apply_branchset {F G V}.
Arguments validate_tree {F G V}.

(** ** SourceModelLogicTree *)
Module SourceModelLogicTree.

Definition SOURCE_TYPES : list string :=
  ["point"; "area"; "complexFault"; "simpleFault"; "characteristicFault"]%string.

(** The attributes the subclass adds. *)
Record attrs : Type := mkAttrs {
  source_ids : gset string;
  tectonic_region_types : gset string;
  source_types : gset string
}.

(** An element of a source model document as [iterparse] hands it over:
    its tag without the namespace, its id and its region type. *)
Record SourceNode : Type := mkSourceNode {
  tag : string;
  id : string;
  tectonicRegion : string
}.

Fixpoint all_digits (s : string) : bool :=
  match s with
  | EmptyString => true
  | String a s => bool_decide (is_Some (Ascii.is_nat a)) && all_digits s
  end.

Fixpoint after_digits (s : string) : string :=
  match s with
  | EmptyString => EmptyString
  | String a s' => if decide (is_Some (Ascii.is_nat a)) then after_digits s' else s
  end.

Definition nonempty (s : string) : bool :=
  match s with EmptyString => false | _ => true end.

(** [_float_re.match(s)] for the pattern [^(\+|\-)?(\d+|\d*\.\d+)$]; the
    final [$] also matches before one trailing newline. *)
Definition _float_re_body (s : string) : bool :=
  (nonempty s && all_digits s)
  || match after_digits s with
     | String "."%char d => nonempty d && all_digits d
     | _ => false
     end.

Definition chomp (s : string) : string :=
  match String.rev s with
  | String "010"%char r => String.rev r
  | _ => s
  end.

Definition _float_re (s : string) : bool :=
  let unsigned :=
    match s with
    | String "+"%char s' | String "-"%char s' => s'
    | _ => s
    end in
  _float_re_body unsigned || _float_re_body (chomp unsigned).

Section Hooks.
Context {F G : Type}.
(** The builtin [float(text)] and the reading of a source model file
    belong to the interpreter and to lxml. *)
Context (float : string → option F).
Context (read_source_model : string → result (list SourceNode)).

Definition py_float (s : string) : result F :=
  match float s with
  | Some x => Ok x
  | None => Raise (ValueError s)
  end.

Definition parse_uncertainty_value (self : attrs)
    (branchset : @BranchSet F G) (value : string) : result (Value F G) :=
  if decide (uncertainty_type branchset = "sourceModel"%string)
  then Ok (VText value)
  else if decide (uncertainty_type branchset = "abGRAbsolute"%string)
  then
    match String.words (strip value) with
    | [a; b] => a ← py_float a; b ← py_float b; Ok (VPair a b)
    | _ => Raise (ValueError "unpack")
    end
  else x ← py_float value; Ok (VFloat x).

Definition collect_source_model_data (self : attrs)
    (source_model : string) : result attrs :=
  nodes ← read_source_model source_model;
  Ok (fold_left (λ self node,
        match list_find (λ t, tag node = t +:+ "Source") SOURCE_TYPES with
        | None => self
        | Some (_, source_type) =>
            mkAttrs ({[ id node ]} ∪ source_ids self)
              ({[ tectonicRegion node ]} ∪ tectonic_region_types self)
              ({[ source_type ]} ∪ source_types self)
        end) nodes self).

Definition validate_uncertainty_value (self : attrs)
    (branchset : @BranchSet F G) (value : string) : result attrs :=
  if decide (uncertainty_type branchset = "sourceModel"%string)
  then collect_source_model_data self value
  else if decide (uncertainty_type branchset = "abGRAbsolute"%string)
  then
    match String.words value with
    | [a; b] =>
        if _float_re a && _float_re b then Ok self
        else Raise (ValidationError ExpectedPairOfFloats)
    | _ => Raise (ValidationError ExpectedPairOfFloats)
    end
  else
    if _float_re value then Ok self
    else Raise (ValidationError ExpectedSingleFloat).

Definition parse_filters (branchset_node : BranchSetNode)
    (uncertainty_type : string) (filters : gmap string string)
  : gmap string FilterValue :=
  match filters !! "applyToSources"%string with
  | Some v =>
      <["applyToSources"%string := FList (String.words v)]> (FText <$> filters)
  | None => FText <$> filters
  end.

Definition validate_filters (self : attrs) (branchset_node : BranchSetNode)
    (uncertainty_type : string) (filters : gmap string string)
  : result attrs :=
  if decide (uncertainty_type = "sourceModel"%string ∧ filters ≠ ∅)
  then Raise (ValidationError FiltersNotAllowedOnSourceModel)
  else if decide (1 < size filters)%nat
  then Raise (ValidationError OnlyOneFilterAllowed)
  else
    _ ← match filters !! "applyToTectonicRegionType"%string with
        | Some trt =>
            if decide (trt ∈ tectonic_region_types self) then Ok ()
            else Raise (ValidationError (NoSourcesOfTrt trt))
        | None => Ok ()
        end;
    _ ← match filters !! "applyToSourceType"%string with
        | Some st =>
            if decide (st ∈ source_types self) then Ok ()
            else Raise (ValidationError (NoSourcesOfType st))
        | None => Ok ()
        end;
    _ ← match filters !! "applyToSources"%string with
        | Some v =>
            match list_find (λ source_id, source_id ∉ source_ids self)
                    (String.words v) with
            | Some (_, source_id) =>
                Raise (ValidationError (SourceIdNotDefined source_id))
            | None => Ok ()
            end
        | None => Ok ()
        end;
    if decide (uncertainty_type ∈
                 ["abGRAbsolute"; "maxMagGRAbsolute"]%string)
    then
      match filters !! "applyToSources"%string with
      | Some v =>
          if decide (size filters = 1%nat ∧ length (String.words v) = 1%nat)
          then Ok self
          else Raise (ValidationError
                        (AbsoluteNeedsOneSource uncertainty_type))
      | None =>
          Raise (ValidationError (AbsoluteNeedsOneSource uncertainty_type))
      end
    else Ok self.

Definition validate_branchset (self : attrs)
    (branchset_node : BranchSetNode) (depth number : nat)
    (branchset : @BranchSet F G) : result () :=
  if decide (depth = 0%nat)
  then
    if decide (0 < number)%nat
    then Raise (ValidationError OneBranchsetOnFirstLevel)
    else if decide (uncertainty_type branchset ≠ "sourceModel"%string)
    then Raise (ValidationError FirstMustBeSourceModel)
    else Ok ()
  else
    if decide (uncertainty_type branchset = "sourceModel"%string)
    then Raise (ValidationError SourceModelOnFirstOnly)
    else if decide (uncertainty_type branchset = "gmpeModel"%string)
    then Raise (ValidationError GmpeNotAllowedInSourceModel)
    else Ok ().

(** The loop of [apply_branchset] over the ids of [applyToBranches]. *)
Fixpoint apply_to_branches (branchset : bsref)
    (self : @BaseLogicTree F G attrs) (ids : list string)
  : result (BaseLogicTree attrs) :=
  match ids with
  | [] => Ok self
  | branch_id :: ids =>
      if decide (tree_branches self !! branch_id = None)
      then Raise (ValidationError (BranchNotYetDefined branch_id))
      else if decide (is_Some (child_branchset self !! branch_id))
      then Raise (ValidationError (BranchHasChild branch_id))
      else if decide (branch_id ∉ open_ends self)
      then Raise (ValidationError ApplyToBranchesLevel)
      else
        apply_to_branches branchset
          (set_child_branchset self
             (<[branch_id := branchset]> (child_branchset self))) ids
  end.

Definition apply_branchset (branchset_node : BranchSetNode)
    (branchset : bsref) (self : @BaseLogicTree F G attrs)
  : result (BaseLogicTree attrs) :=
  match attrib branchset_node !! "applyToBranches"%string with
  | Some apply_to_branches_text =>
      if decide (apply_to_branches_text = ""%string)
      then base_apply_branchset branchset_node branchset self
      else apply_to_branches branchset self
             (String.words apply_to_branches_text)
  | None => base_apply_branchset branchset_node branchset self
  end.

Definition hooks : @Hooks F G attrs :=
  mkHooks (λ _ _, Ok false)
    parse_uncertainty_value validate_uncertainty_value
    parse_filters validate_filters validate_branchset
    apply_branchset (λ _, Ok ()).

(** [SourceModelLogicTree(content, basepath, filename, validate, seed,
    num_samples)] *)
Definition new (content : list BranchingLevelNode)
    (basepath filename : string) (validate : bool) (seed num_samples : Z)
  : result (BaseLogicTree attrs) :=
  init hooks (mkAttrs ∅ ∅ ∅) content basepath filename validate
    seed num_samples.
End Hooks.

End SourceModelLogicTree.

(** ** GMPELogicTree *)
Module GMPELogicTree.

Record attrs : Type := mkAttrs {
  tectonic_region_types : gset string;
  defined_tectonic_region_types : gset string
}.

Section Hooks.
Context {F G : Type}.
(** The dictionary of the GSIM classes of hazardlib. *)
Context (GSIM : gmap string G).

Definition skip_branchset_condition (self : attrs)
    (attrs : gmap string string) : result bool :=
  match attrs !! "applyToTectonicRegionType"%string with
  | Some trt => Ok (bool_decide (trt ∉ tectonic_region_types self))
  | None => Raise (KeyError "applyToTectonicRegionType")
  end.

Definition parse_uncertainty_value (self : attrs)
    (branchset : @BranchSet F G) (classname : string)
  : result (Value F G) :=
  match GSIM !! classname with
  | Some g => Ok (VGsim g)
  | None => Raise (KeyError classname)
  end.

Definition validate_uncertainty_value (self : attrs)
    (branchset : @BranchSet F G) (value : string) : result attrs :=
  match GSIM !! value with
  | Some _ => Ok self
  | None => Raise (ValidationError (UnknownGsimClass value))
  end.

Definition parse_filters (node : BranchSetNode)
    (uncertainty_type : string) (filters : gmap string string)
  : gmap string FilterValue := FText <$> filters.

Definition validate_filters (self : attrs) (node : BranchSetNode)
    (uncertainty_type : string) (filters : gmap string string)
  : result attrs :=
  match filters !! "applyToTectonicRegionType"%string with
  | Some trt =>
      if decide (size filters ≠ 1%nat)
      then Raise (ValidationError GmpeOnlyTrtFilter)
      else if decide (trt ∉ tectonic_region_types self)
      then Raise (ValidationError (NoSourcesOfTrt trt))
      else if decide (trt ∈ defined_tectonic_region_types self)
      then Raise (ValidationError (TrtAlreadyDefined trt))
      else Ok (mkAttrs (tectonic_region_types self)
                 ({[ trt ]} ∪ defined_tectonic_region_types self))
  | None => Raise (ValidationError GmpeOnlyTrtFilter)
  end.

(** [list(sorted(missing_trts))] *)
Definition sorted_strings (s : gset string) : list string :=
  merge_sort String.le (elements s).

Definition validate_tree (self : attrs) : result () :=
  let missing_trts :=
    tectonic_region_types self ∖ defined_tectonic_region_types self in
  if decide (missing_trts ≠ ∅)
  then Raise (ValidationError (MissingTrts (sorted_strings missing_trts)))
  else Ok ().

Definition validate_branchset (self : attrs)
    (branchset_node : BranchSetNode) (depth number : nat)
    (branchset : @BranchSet F G) : result () :=
  if decide (uncertainty_type branchset ≠ "gmpeModel"%string)
  then Raise (ValidationError OnlyGmpeModelAllowed)
  else if decide (number ≠ 0%nat)
  then Raise (ValidationError OnlyOneBranchsetPerLevel)
  else Ok ().

Definition hooks : @Hooks F G attrs :=
  mkHooks skip_branchset_condition
    parse_uncertainty_value validate_uncertainty_value
    parse_filters validate_filters validate_branchset
    base_apply_branchset validate_tree.

(** [GMPELogicTree(tectonic_region_types, content, basepath, filename,
    validate, seed, num_samples)] *)
Definition new (tectonic_region_types : gset string)
    (content : list BranchingLevelNode)
    (basepath filename : string) (validate : bool) (seed num_samples : Z)
  : result (BaseLogicTree attrs) :=
  init hooks (mkAttrs tectonic_region_types ∅) content basepath filename
    validate seed num_samples.
End Hooks.

End GMPELogicTree.

(** ** The builtin [sorted] and [itertools]

    [BranchTuple] overrides [__lt__], and [list.sort] compares with [<]
    only.  For a list of fewer than 64 items [list.sort] finds the run the
    list starts with ([count_run], reversed when it is strictly
    descending) and inserts the remaining items one by one by binary
    search ([binarysort]).  Longer lists are cut into such runs and merged;
    a list that is a single ascending run is left as it is whatever its
    length.  The theorems below use [sorted] only on such lists or on
    explicit short ones. *)
Section Sorted.
Context {A : Type} (lt : A → A → bool).

Fixpoint run_ascending (prev : A) (l : list A) (n : nat) : nat :=
  match l with
  | [] => n
  | x :: l => if lt x prev then n else run_ascending x l (S n)
  end.

Fixpoint run_descending (prev : A) (l : list A) (n : nat) : nat :=
  match l with
  | [] => n
  | x :: l => if lt x prev then run_descending x l (S n) else n
  end.

Definition count_run (l : list A) : nat * bool :=
  match l with
  | [] => (0, false)
  | [x] => (1, false)
  | x :: y :: l =>
      if lt y x then (run_descending y l 2, true)
      else (run_ascending y l 2, false)
  end%nat.

(** The binary search of [binarysort] in the sorted prefix [pre]. *)
Fixpoint bisect (fuel : nat) (pre : list A) (pivot : A) (l r : nat) : nat :=
  match fuel with
  | O => l
  | S fuel =>
      if (l <? r)%nat
      then
        let p := (l + (r - l) / 2)%nat in
        match pre !! p with
        | Some x =>
            if lt pivot x then bisect fuel pre pivot l p
            else bisect fuel pre pivot (S p) r
        | None => l
        end
      else l
  end.

Definition binary_insert (pre : list A) (pivot : A) : list A :=
  let l := bisect (S (length pre)) pre pivot 0 (length pre) in
  take l pre ++ pivot :: drop l pre.

Definition sorted (l : list A) : list A :=
  let '(n, descending) := count_run l in
  let run := if descending : bool then reverse (take n l) else take n l in
  fold_left binary_insert (drop n l) run.
End Sorted.

(** [itertools.groupby(l, key)], as the list of its groups. *)
Fixpoint groupby {A K : Type} `{EqDecision K} (key : A → K) (l : list A)
  : list (list A) :=
  match l with
  | [] => []
  | x :: l =>
      match groupby key l with
      | (y :: g) :: gs =>
          if decide (key x = key y) then (x :: y :: g) :: gs
          else [x] :: (y :: g) :: gs
      | gs => [x] :: gs
      end
  end.

(** [itertools.product( *groups )]: the last group varies fastest. *)
Fixpoint product {A : Type} (groups : list (list A)) : list (list A) :=
  match groups with
  | [] => [[]]
  | g :: groups => x ← g; (cons x) <$> product groups
  end.

(** ** GsimLogicTree *)
Module GsimLogicTree.

Global Instance decimal_eq_dec : EqDecision Decimal.t.
Proof. solve_decision. Defined.

Global Instance branch_node_eq_dec : EqDecision BranchNode.
Proof. solve_decision. Defined.

(** A branchset node of the document [node_from_xml] returns; the code
    reads [branchSetID] and [uncertaintyType] unconditionally. *)
Record Node : Type := mkNode {
  branchSetID : string;
  uncertaintyType : string;
  attrib : gmap string string;
  nodes : list BranchNode
}.

Global Instance node_eq_dec : EqDecision Node.
Proof. solve_decision. Defined.

Record BranchTuple : Type := mkBranchTuple {
  bset : Node;
  id : string;
  uncertainty : string;
  weight : Decimal.t
}.

(** [BranchTuple.__lt__] *)
Definition __lt__ (self other : BranchTuple) : bool :=
  String.ltb (branchSetID (bset self)) (branchSetID (bset other))
  && String.ltb (id self) (id other).

Record t : Type := mk {
  fname : string;
  branchset_filter : string;
  filter_keys : list string;
  values : gmap string (list string);
  branches : list BranchTuple
}.

(** The loop of [_parse_lt] over the branches of one branchset. *)
Definition parse_branches (fkey : string) (branchset : Node)
    (values : gmap string (list string))
  : list BranchTuple * gmap string (list string) :=
  fold_left (λ '(out, values) branch,
      let weight := uncertaintyWeight branch in
      let branch_id := branchID branch in
      let uncertainty := strip (uncertaintyModel branch) in
      (out ++ [mkBranchTuple branchset branch_id uncertainty weight],
       <[fkey := default [] (values !! fkey) ++ [uncertainty]]> values))
    (nodes branchset) ([], values).

(** The body of the loop of [_parse_lt] for one branching level. *)
Definition parse_level (branchset_filter : string)
    (filter_keys : list string)
    (st : list string * list BranchTuple * gmap string (list string))
    (branching_level : list Node)
  : result (list string * list BranchTuple * gmap string (list string)) :=
  if decide (1 < length branching_level)%nat
  then Raise (InvalidLogicTree "multiple branchsets")
  else
    foldl (λ st branchset,
        '(fkeys, out, values) ← st;
        if decide (uncertaintyType branchset ≠ "gmpeModel"%string)
        then Raise (InvalidLogicTree "only gmpeModel")
        else
          let fkey := attrib branchset !! branchset_filter in
          let fkeys :=
            match fkey with
            | Some k => if decide (k = ""%string) then fkeys else fkeys ++ [k]
            | None => fkeys
            end in
          match fkey with
          | Some k =>
              if decide (k ∈ filter_keys)
              then
                let '(new, values) := parse_branches k branchset values in
                if Decimal.eq_one (Decimal.sum (weight <$> new))
                then Ok (fkeys, out ++ new, values)
                else Raise (AssertionError (OtherMessage "weights"))
              else Ok (fkeys, out, values)
          | None => Ok (fkeys, out, values)
          end)
      (Ok st) branching_level.

Definition _parse_lt (branchset_filter : string) (filter_keys : list string)
    (logicTree : list (list Node))
  : result (list BranchTuple * gmap string (list string)) :=
  '(fkeys, out, values) ←
    foldl (λ st branching_level,
        st ← st; parse_level branchset_filter filter_keys st branching_level)
      (Ok ([], [], ∅)) logicTree;
  if decide (NoDup fkeys) then Ok (out, values)
  else Raise (InvalidLogicTree "duplicated").

(** [GsimLogicTree(fname, branchset_filter, filter_keys)], with the
    document [node_from_xml(fname)] returns. *)
Definition new (fname : string) (logicTree : list (list Node))
    (branchset_filter : string) (filter_keys : list string) : result t :=
  let sorted_keys := merge_sort String.le filter_keys in
  if decide (branchset_filter ≠ "applyToTectonicRegionType"%string)
  then Raise (AssertionError (OtherMessage "branchset_filter"))
  else if decide (NoDup sorted_keys)
  then
    '(parsed, values) ← _parse_lt branchset_filter sorted_keys logicTree;
    let branches := sorted __lt__ parsed in
    if decide (filter_keys ≠ [] ∧ branches = [])
    then Raise (InvalidLogicTree "could not find branches")
    else Ok (mk fname branchset_filter sorted_keys values branches)
  else Raise (ValueError "not distinct").

(** [get_num_branches]: later groups overwrite earlier ones with the same
    [branchSetID]. *)
Definition get_num_branches (self : t) : gmap string nat :=
  fold_left (λ num g,
      match g with
      | b :: _ => <[branchSetID (bset b) := length g]> num
      | [] => num
      end) (groupby bset (branches self)) ∅.

Definition get_num_paths (self : t) : nat :=
  map_fold (λ _ val num, (num * val)%nat) 1%nat (get_num_branches self).

Record Realization : Type := mkRealization {
  value : gmap string string;
  rlz_weight : Decimal.t;
  lt_path : list string
}.

(** The body of the outer loop of [__iter__] for one tuple of branches. *)
Definition realization (self : t) (filter_keys : list string)
    (branches : list BranchTuple) : result Realization :=
  foldl (λ acc '(fkey, branch),
      '(mkRealization value weight lt_path) ← acc;
      if decide (uncertainty branch ∈ default [] (values self !! fkey))
      then Ok (mkRealization (<[fkey := uncertainty branch]> value)
                 (Decimal.mul weight (GsimLogicTree.weight branch))
                 (lt_path ++ [id branch]))
      else Raise (AssertionError (OtherMessage (uncertainty branch))))
    (Ok (mkRealization ∅ (Decimal.of_int 1) []))
    (zip filter_keys branches).

(** [__iter__]: the realizations the generator yields, in order. *)
Definition iter (self : t) : result (list Realization) :=
  let groups := groupby bset (branches self) in
  filter_keys ← mapM (λ g,
      match g with
      | b :: _ =>
          match attrib (bset b) !! branchset_filter self with
          | Some k => Ok k
          | None => Raise (KeyError (branchset_filter self))
          end
      | [] => Raise IndexError
      end) groups;
  mapM (realization self filter_keys) (product groups).

End GsimLogicTree.

(** ** Sources and the filters of a branchset

    A hazardlib source, as far as [filter_source] reads it: its id, its
    tectonic region type and its class.  [AreaSource] extends
    [PointSource]; the other classes the method asks for are unrelated to
    each other, and [OtherSource] stands for any class it does not ask
    for. *)
Module Source.

Inductive source_class : Type :=
  | PointSource
  | AreaSource
  | SimpleFaultSource
  | ComplexFaultSource
  | CharacteristicFaultSource
  | OtherSource.

Global Instance source_class_eq_dec : EqDecision source_class.
Proof. solve_decision. Defined.

Record t : Type := mk {
  source_id : string;
  tectonic_region_type : string;
  class : source_class
}.

(** [isinstance(source, cls)] for the classes of [openquake.hazardlib.source]
    named in the method. *)
Definition isinstance (source : t) (cls : source_class) : bool :=
  match class source, cls with
  | AreaSource, PointSource => true
  | c, c' => bool_decide (c = c')
  end.

End Source.

Global Instance filter_value_eq_dec : EqDecision FilterValue.
Proof. solve_decision. Defined.

(** [s in t] for two texts. *)
Fixpoint is_infix (s t : string) : bool :=
  String.prefix s t
  || match t with
     | String _ t' => is_infix s t'
     | EmptyString => false
     end.

(** The body of the loop of [filter_source] for one filter: [Ok true] when
    the loop goes on, [Ok false] for [return False].  The texts of the two
    assertion errors are given without the value they interpolate. *)
Definition filter_source_item (key : string) (value : FilterValue)
    (source : Source.t) : result bool :=
  if decide (key = "applyToTectonicRegionType"%string)
  then Ok (bool_decide (value = FText (Source.tectonic_region_type source)))
  else if decide (key = "applyToSourceType"%string)
  then
    if decide (value = FText "area")
    then Ok (Source.isinstance source Source.AreaSource)
    else if decide (value = FText "point")
    then Ok (Source.isinstance source Source.PointSource
             && negb (Source.isinstance source Source.AreaSource))
    else if decide (value = FText "simpleFault")
    then Ok (Source.isinstance source Source.SimpleFaultSource)
    else if decide (value = FText "complexFault")
    then Ok (Source.isinstance source Source.ComplexFaultSource)
    else if decide (value = FText "characteristicFault")
    then Ok (Source.isinstance source Source.CharacteristicFaultSource)
    else Raise (AssertionError (OtherMessage "unknown source type"))
  else if decide (key = "applyToSources"%string)
  then
    match value with
    | FList ids => Ok (bool_decide (Source.source_id source ∈ ids))
    | FText text => Ok (is_infix (Source.source_id source) text)
    end
  else Raise (AssertionError (OtherMessage "unknown filter")).

(** The loop of [filter_source] over [self.filters.items()], for the
    items in the order the dictionary hands them out. *)
Fixpoint filter_source_items (items : list (string * FilterValue))
    (source : Source.t) : result bool :=
  match items with
  | [] => Ok true
  | (key, value) :: items =>
      pass ← filter_source_item key value source;
      if (pass : bool) then filter_source_items items source else Ok false
  end.

(** [BranchSet.filter_source(source)].  Python leaves the order of the
    items of a dictionary open; the statements about this method hold for
    every order of the items. *)
Definition filter_source {F G : Type} (self : @BranchSet F G)
    (source : Source.t) : result bool :=
  filter_source_items (map_to_list (filters self)) source.

(** ** Walking a tree along given branch ids *)
Section PathWalks.
Context {F G : Type}.
Context (store : list (@BranchSet F G)) (child : gmap string bsref).

(** The loop of [make_apply_uncertainties]: the list
    [branchsets_and_uncertainties] the returned function goes through.
    [branch_ids] is the path as given; the code reverses it and pops from
    the end. *)
Fixpoint branchsets_and_uncertainties (fuel : nat) (branchset : option bsref)
    (branch_ids : list string) (acc : list (bsref * Value F G))
  : option (result (list (bsref * Value F G))) :=
  match branchset with
  | None => Some (Ok acc)
  | Some r =>
      match fuel with
      | O => None
      | S fuel =>
          bset ← store !! r;
          match branch_ids with
          | [] => Some (Raise IndexError)
          | id :: branch_ids =>
              match get_branch_by_id (branches bset) id with
              | Raise e => Some (Raise e)
              | Ok branch =>
                  branchsets_and_uncertainties fuel
                    (child !! branch_id branch) branch_ids
                    (if decide (uncertainty_type bset = "sourceModel"%string)
                     then acc else acc ++ [(r, value branch)])
              end
          end
      end
  end.

(** An exception of the walk of [make_trt_to_gsim]: one of the module's,
    or the TypeError of an unhashable dictionary key. *)
Inductive raised : Type :=
  | Raised (e : exn)
  | RaisedTypeError (what : string).

(** The loop of [make_trt_to_gsim]. *)
Fixpoint trt_to_gsim_loop (fuel : nat) (branchset : option bsref)
    (branch_ids : list string) (trt_to_gsim : gmap string (Value F G))
  : option (raised + gmap string (Value F G)) :=
  match branchset with
  | None => Some (inr trt_to_gsim)
  | Some r =>
      match fuel with
      | O => None
      | S fuel =>
          bset ← store !! r;
          match branch_ids with
          | [] => Some (inl (Raised IndexError))
          | id :: branch_ids =>
              match get_branch_by_id (branches bset) id with
              | Raise e => Some (inl (Raised e))
              | Ok branch =>
                  match filters bset !! "applyToTectonicRegionType"%string with
                  | None =>
                      Some (inl (Raised (KeyError "applyToTectonicRegionType")))
                  | Some (FList _) =>
                      Some (inl (RaisedTypeError "unhashable type: 'list'"))
                  | Some (FText trt) =>
                      if decide (is_Some (trt_to_gsim !! trt))
                      then Some (inl (Raised (AssertionError
                                                (OtherMessage ""))))
                      else
                        trt_to_gsim_loop fuel
                          (child !! branch_id branch) branch_ids
                          (<[trt := value branch]> trt_to_gsim)
                  end
              end
          end
      end
  end.
End PathWalks.

(** [SourceModelLogicTree.make_apply_uncertainties(branch_ids)], as the
    list of branchsets and values its result applies to a source. *)
Definition make_apply_uncertainties {F G V : Type} (fuel : nat)
    (self : @BaseLogicTree F G V) (branch_ids : list string)
  : option (result (list (bsref * Value F G))) :=
  branchsets_and_uncertainties (branchsets self) (child_branchset self)
    fuel (root_branchset self) branch_ids [].

(** [GMPELogicTree.make_trt_to_gsim(branch_ids)] *)
Definition make_trt_to_gsim {F G V : Type} (fuel : nat)
    (self : @BaseLogicTree F G V) (branch_ids : list string)
  : option (raised + gmap string (Value F G)) :=
  trt_to_gsim_loop (branchsets self) (child_branchset self)
    fuel (root_branchset self) branch_ids ∅.

(** * Specifications *)

(** ** The cumulative-weight walk, as the specification words it *)
Section SamplingSpec.
Context {F G : Type}.

(** The running cumulative sum of the weights once branch [k] has been
    added, in declared order. *)
Definition running_sum (bs : list (@Branch F G)) (k : nat) : Decimal.t :=
  Decimal.sum (weight <$> take (S k) bs).

(** Branch [k] is the first at which the running sum reaches the draw. *)
Definition first_reaching (bs : list (@Branch F G)) (diceroll : Q)
    (k : nat) (b : Branch) : Prop :=
  bs !! k = Some b
  ∧ Decimal.ge_float (running_sum bs k) diceroll = true
  ∧ ∀ j, (j < k)%nat → Decimal.ge_float (running_sum bs j) diceroll = false.

Context {Rng : Type} (random : Rng → Q * Rng).
Context (store : list (@BranchSet F G)) (child : gmap string bsref).

(** One draw per branchset met; the walk ends at a branch without child. *)
Inductive cumulative_walk
  : Rng → option bsref → list string → Rng → Prop :=
  | walk_leaf rnd : cumulative_walk rnd None [] rnd
  | walk_step rnd r bset k b path rnd' :
      store !! r = Some bset →
      first_reaching (branches bset) (random rnd).1 k b →
      cumulative_walk (random rnd).2 (child !! branch_id b) path rnd' →
      cumulative_walk rnd (Some r) (branch_id b :: path) rnd'.
End SamplingSpec.

(** ** Well-formed trees *)
Section WellFormed.
Context {F G V : Type}.

(** Every branch of every branchset of the store. *)
Definition all_branches (store : list (@BranchSet F G)) : list Branch :=
  store ≫= branches.

(** What the builder relies on of [apply_branchset]: it writes nothing
    but [child_branchset] fields, and only those of open ends, which it
    points to the branchset it is given. *)
Definition apply_spec
    (apply : BranchSetNode → bsref → @BaseLogicTree F G V →
             result (@BaseLogicTree F G V)) : Prop :=
  ∀ node ref s s', apply node ref s = Ok s' →
    s' = set_child_branchset s (child_branchset s')
    ∧ ∀ id, child_branchset s' !! id = child_branchset s !! id
            ∨ (id ∈ open_ends s ∧ child_branchset s' !! id = Some ref).

(** The state of a tree under construction, while branching level [d] is
    next or being processed.  [lev] is the branching level each branchset
    of the store was declared at and [hi] bounds these levels. *)
Record tree_inv (s : @BaseLogicTree F G V) (lev : list nat) (hi d : nat)
  : Prop := mkInv {
  inv_lev_len : length lev = length (branchsets s);
  inv_nodup : NoDup (branch_id <$> all_branches (branchsets s));
  inv_lookup : ∀ b, b ∈ all_branches (branchsets s) →
    tree_branches s !! branch_id b = Some b;
  inv_dom : ∀ id, is_Some (tree_branches s !! id) →
    id ∈ branch_id <$> all_branches (branchsets s);
  inv_weights : ∀ bset, bset ∈ branchsets s →
    Decimal.eq_one (Decimal.sum (weight <$> branches bset)) = true;
  inv_root : root_branchset s =
    match branchsets s with [] => None | _ => Some 0%nat end;
  inv_child : ∀ i bset b j,
    branchsets s !! i = Some bset → b ∈ branches bset →
    child_branchset s !! branch_id b = Some j →
    (i < j)%nat ∧ ∃ l, lev !! i = Some l ∧ lev !! j = Some (S l);
  inv_child_dom : ∀ id j, child_branchset s !! id = Some j →
    is_Some (tree_branches s !! id);
  inv_lev_bound : ∀ i l, lev !! i = Some l → (l < hi)%nat;
  inv_open : ∀ id, id ∈ open_ends s →
    ∃ i bset b l, branchsets s !! i = Some bset ∧ b ∈ branches bset
      ∧ branch_id b = id ∧ lev !! i = Some l ∧ S l = d
}.

(** The branches recorded as new open ends belong to level [d]. *)
Definition new_open_ok (s : @BaseLogicTree F G V) (lev : list nat) (d : nat)
    (new_open_ends : gset string) : Prop :=
  ∀ id, id ∈ new_open_ends →
    ∃ i bset b, branchsets s !! i = Some bset ∧ b ∈ branches bset
      ∧ branch_id b = id ∧ lev !! i = Some d.

(** What one branchset node does to the state: nothing when it is
    skipped; otherwise a new branchset at the end of the store, its
    branches noted as new open ends, and child links written by
    [apply_branchset] unless the branchset became the root. *)
Definition step_delta (hooks : @Hooks F G V) (node : BranchSetNode) (d : nat)
    (s s' : @BaseLogicTree F G V) (lev lev' : list nat)
    (new new' : gset string) : Prop :=
  (s' = s ∧ lev' = lev ∧ new' = new
   ∧ skip_branchset_condition hooks (variant s) (attrib node) = Ok true)
  ∨ (∃ bset,
       branchsets s' = branchsets s ++ [bset] ∧ lev' = lev ++ [d]
       ∧ new' = new ∪ list_to_set (branch_id <$> branches bset)
       ∧ (∀ id, child_branchset s' !! id = child_branchset s !! id
                ∨ (id ∈ open_ends s
                   ∧ child_branchset s' !! id
                     = Some (length (branchsets s))))
       ∧ (root_branchset s ≠ None →
          ∃ s3, open_ends s3 = open_ends s
                ∧ apply_branchset hooks node (length (branchsets s)) s3
                  = Ok s')).

(** [lo l] is a lower bound on the number of branches a walk collects
    from a branchset of level [l] on. *)
Definition path_lower_bound (s : @BaseLogicTree F G V) (lev : list nat)
    (lo : nat → nat) : Prop :=
  ∀ i bset b l,
    branchsets s !! i = Some bset → b ∈ branches bset → lev !! i = Some l →
    match child_branchset s !! branch_id b with
    | None => (lo l ≤ 1)%nat
    | Some _ => (lo l ≤ S (lo (S l)))%nat
    end.

(** A document in which no branchset is skipped, every level has a
    branchset and every branchset is applied to all open ends. *)
Definition node_uniform (hooks : @Hooks F G V) (node : BranchSetNode)
  : Prop :=
  (∀ v, skip_branchset_condition hooks v (attrib node) = Ok false)
  ∧ (∀ ref s s', apply_branchset hooks node ref s = Ok s' →
       ∀ id, id ∈ open_ends s → child_branchset s' !! id = Some ref).

Definition uniform (hooks : @Hooks F G V)
    (content : list BranchingLevelNode) : Prop :=
  Forall (λ level, level ≠ [] ∧ Forall (node_uniform hooks) level) content.

(** What a uniform document adds to [tree_inv]: below the last level every
    branch has a child, the first branchset is of level 0 and the open ends
    are all the branches of the last level. *)
Record full_inv (s : @BaseLogicTree F G V) (lev : list nat) (d : nat)
  : Prop := mkFull {
  full_child : ∀ i bset b l,
    branchsets s !! i = Some bset → b ∈ branches bset → lev !! i = Some l →
    (S l < d)%nat → is_Some (child_branchset s !! branch_id b);
  full_root : ∀ l, lev !! 0%nat = Some l → l = 0%nat;
  full_open : ∀ i bset b l,
    branchsets s !! i = Some bset → b ∈ branches bset → lev !! i = Some l →
    S l = d → branch_id b ∈ open_ends s;
  full_store : (0 < d)%nat → branchsets s ≠ []
}.

(** The same while level [d] is being processed, [k] nodes done. *)
Record mid_inv (s : @BaseLogicTree F G V) (lev : list nat) (d : nat)
    (new : gset string) (k : nat) : Prop := mkMid {
  mid_child : ∀ i bset b l,
    branchsets s !! i = Some bset → b ∈ branches bset → lev !! i = Some l →
    (S l < d)%nat → is_Some (child_branchset s !! branch_id b);
  mid_root : ∀ l, lev !! 0%nat = Some l → l = 0%nat;
  mid_open : ∀ i bset b l,
    branchsets s !! i = Some bset → b ∈ branches bset → lev !! i = Some l →
    S l = d → branch_id b ∈ open_ends s;
  mid_store : (0 < d ∨ 0 < k)%nat → branchsets s ≠ [];
  mid_applied : (0 < k)%nat →
    ∀ id, id ∈ open_ends s → is_Some (child_branchset s !! id);
  mid_new : ∀ i bset b,
    branchsets s !! i = Some bset → b ∈ branches bset → lev !! i = Some d →
    branch_id b ∈ new
}.

(** The constructor arguments that stay as given. *)
Definition same_params (s s' : @BaseLogicTree F G V) : Prop :=
  seed s' = seed s ∧ num_samples s' = num_samples s.

(** A tree as a successful construction leaves it. *)
Definition well_formed (s : @BaseLogicTree F G V) (depth : nat) : Prop :=
  ∃ lev, tree_inv s lev depth depth.
End WellFormed.

(** ** Documents and failures *)
Section Documents.
Context {F G V : Type}.

(** The branch ids a document declares, in document order. *)
Definition node_ids (node : BranchSetNode) : list string :=
  branchID <$> logicTreeBranch node.

Definition level_ids (level : BranchingLevelNode) : list string :=
  level ≫= node_ids.

Definition doc_ids (content : list BranchingLevelNode) : list string :=
  content ≫= level_ids.

(** No branchset node of the document is skipped. *)
Definition no_skip (hooks : @Hooks F G V)
    (content : list BranchingLevelNode) : Prop :=
  Forall (Forall (λ node, ∀ v,
    skip_branchset_condition hooks v (attrib node) = Ok false)) content.

Definition is_validation (e : exn) : Prop :=
  match e with ValidationError _ => True | _ => False end.

(** [e] is raised by a method of the subclass. *)
Definition hook_raises (hooks : @Hooks F G V) (e : exn) : Prop :=
  (∃ v a, skip_branchset_condition hooks v a = Raise e)
  ∨ (∃ v bset text, parse_uncertainty_value hooks v bset text = Raise e)
  ∨ (∃ v bset text, validate_uncertainty_value hooks v bset text = Raise e)
  ∨ (∃ v node ut fs, validate_filters hooks v node ut fs = Raise e)
  ∨ (∃ v node d n bset, validate_branchset hooks v node d n bset = Raise e)
  ∨ (∃ node ref s, apply_branchset hooks node ref s = Raise e)
  ∨ (∃ v, validate_tree hooks v = Raise e).

(** An exception of the construction: a ValidationError, or whatever a
    method of the subclass raised. *)
Definition engine_or_hook (hooks : @Hooks F G V) (e : exn) : Prop :=
  is_validation e ∨ hook_raises hooks e.

(** Two subclasses that differ in their validation methods only. *)
Definition same_parsing (hooks hooks' : @Hooks F G V) : Prop :=
  skip_branchset_condition hooks = skip_branchset_condition hooks'
  ∧ parse_uncertainty_value hooks = parse_uncertainty_value hooks'
  ∧ parse_filters hooks = parse_filters hooks'
  ∧ apply_branchset hooks = apply_branchset hooks'.
End Documents.

(** The contract of [random()]: a float in [0, 1). *)
Definition unit_draws {Rng : Type} (random : Rng → Q * Rng) : Prop :=
  ∀ rnd, (0 <= (random rnd).1 < 1)%Q.

(** The sum of decimals in exact arithmetic. *)
Definition exact_sum (ws : list Decimal.t) : Q :=
  foldr Qplus 0%Q (Decimal.to_Q <$> ws).

(** The product of decimals in exact arithmetic. *)
Definition exact_product (ws : list Decimal.t) : Q :=
  foldr Qmult 1%Q (Decimal.to_Q <$> ws).

(** The total, in exact arithmetic, of the exact products of the weights
    along each of a list of paths. *)
Definition exact_total {F G : Type} (paths : list (list (@Branch F G)))
  : Q :=
  foldr Qplus 0%Q ((λ path, exact_product (weight <$> path)) <$> paths).

(** The region types a list of branchset nodes declares. *)
Definition nodes_trts (nodes : list BranchSetNode) : gset string :=
  list_to_set
    (omap (λ node, attrib node !! "applyToTectonicRegionType"%string) nodes).

(** The region types the branchset nodes of a document declare. *)
Definition doc_trts (content : list BranchingLevelNode) : gset string :=
  list_to_set
    (omap (λ node, attrib node !! "applyToTectonicRegionType"%string)
       (concat content)).

(** Groups with one key each, non-empty, neighbours with different keys. *)
Inductive grouped {A K : Type} (key : A → K) : list (list A) → Prop :=
  | grouped_nil : grouped key []
  | grouped_cons x g gs :
      (∀ y, y ∈ g → key y = key x) →
      (∀ h hs, gs = h :: hs → ∀ y, y ∈ h → key y ≠ key x) →
      Forall (λ h, h ≠ []) gs →
      grouped key gs →
      grouped key ((x :: g) :: gs).

(** ** The flat GSIM tree, as the specification words it *)
Module GsimSpec.
Import GsimLogicTree.

(** The branches of one branchset node, as tuples. *)
Definition tuples (node : Node) : list BranchTuple :=
  (λ branch, mkBranchTuple node (branchID branch)
               (strip (uncertaintyModel branch)) (uncertaintyWeight branch))
  <$> nodes node.

(** The branchset nodes whose filter value is among the filter keys, in
    the order of the document. *)
Definition is_selected (branchset_filter : string)
    (filter_keys : list string) (node : Node) : bool :=
  match attrib node !! branchset_filter with
  | Some k => bool_decide (k ∈ filter_keys)
  | None => false
  end.

Definition selected (branchset_filter : string) (filter_keys : list string)
    (logicTree : list (list Node)) : list Node :=
  filter (λ node, is_selected branchset_filter filter_keys node)
    (concat logicTree).

(** The per-region branch groups, ordered by first appearance. *)
Definition doc_groups (branchset_filter : string) (filter_keys : list string)
    (logicTree : list (list Node)) : list (list BranchTuple) :=
  tuples <$> selected branchset_filter filter_keys logicTree.

Definition fkey (branchset_filter : string) (b : BranchTuple) : string :=
  default ""%string (attrib (bset b) !! branchset_filter).

(** The realization of one combination of branches: the uncertainties by
    region type, the product of the weights, the branch ids. *)
Definition combination (branchset_filter : string) (bs : list BranchTuple)
  : Realization :=
  mkRealization
    (foldl (λ value b, <[fkey branchset_filter b := uncertainty b]> value)
       ∅ bs)
    (fold_left Decimal.mul (weight <$> bs) (Decimal.of_int 1))
    (id <$> bs).

(** The filter value of a node when it is a non-empty text. *)
Definition truthy (branchset_filter : string) (node : Node)
  : option string :=
  match attrib node !! branchset_filter with
  | Some k => if decide (k = ""%string) then None else Some k
  | None => None
  end.

(** The state of [_parse_lt] once the branching levels [done] are read. *)
Definition parsed (branchset_filter : string) (filter_keys : list string)
    (done : list (list Node))
    (st : list string * list BranchTuple * gmap string (list string))
  : Prop :=
  st.1.1 = omap (truthy branchset_filter) (concat done)
  ∧ st.1.2 = concat (doc_groups branchset_filter filter_keys done)
  ∧ Forall (λ node, nodes node ≠ [])
      (selected branchset_filter filter_keys done)
  ∧ ∀ b, b ∈ st.1.2 →
      uncertainty b ∈ default [] (st.2 !! fkey branchset_filter b).

(** The number of combinations of a list of groups. *)
Definition count (groups : list (list BranchTuple)) : nat :=
  foldr Nat.mul 1%nat (length <$> groups).

(** No item is smaller than the one before it. *)
Definition ascending {A} (lt : A → A → bool) (l : list A) : Prop :=
  ∀ i x y, l !! i = Some x → l !! S i = Some y → lt y x = false.
End GsimSpec.

(** ** Example data

    Concrete collaborators and documents the statements are tried on:
    floats and GSIM classes stand for themselves as text, the generator is
    a small linear congruential one with draws in thousandths. *)
Module Examples.
Local Open Scope string_scope.

Definition float (s : string) : option string := Some s.

Definition read_source_model (file : string)
  : result (list SourceModelLogicTree.SourceNode) := Ok [].

Definition GSIM : gmap string string :=
  {[ "BooreAtkinson2008" := "BooreAtkinson2008";
     "ChiouYoungs2008" := "ChiouYoungs2008";
     "ToroEtAl2002" := "ToroEtAl2002" ]}.

Definition random (rnd : Z) : Q * Z :=
  (Qmake (rnd mod 1000) 1000, (rnd * 1103515245 + 12345) mod 2147483648).

Definition Random (seed : Z) : Z := seed.

Definition dec (c e : Z) : Decimal.t := Decimal.mk c e.

Definition branchset_node (uncertaintyType : string)
    (attrib : list (string * string)) (bs : list BranchNode)
  : BranchSetNode :=
  mkBranchSetNode uncertaintyType (list_to_map attrib) bs.

Definition sm_hooks :=
  @SourceModelLogicTree.hooks string string float read_source_model.

Definition gmpe_hooks := @GMPELogicTree.hooks string string GSIM.

Definition sm_new :=
  @SourceModelLogicTree.new string string float read_source_model.

Definition gmpe_new := @GMPELogicTree.new string string GSIM.

(** Two levels, the second applied to every branch of the first. *)
Definition two_levels : list BranchingLevelNode :=
  [ [ branchset_node "sourceModel" []
        [ mkBranchNode "A" (dec 3 (-1)) "model_a.xml";
          mkBranchNode "B" (dec 7 (-1)) "model_b.xml" ] ];
    [ branchset_node "bGRRelative" []
        [ mkBranchNode "C" (dec 4 (-1)) "0.1";
          mkBranchNode "D" (dec 6 (-1)) "-0.1" ] ] ].

(** Two levels, the second applied to branch A only. *)
Definition applied_to_a : list BranchingLevelNode :=
  [ [ branchset_node "sourceModel" []
        [ mkBranchNode "A" (dec 3 (-1)) "model_a.xml";
          mkBranchNode "B" (dec 7 (-1)) "model_b.xml" ] ];
    [ branchset_node "bGRRelative" [("applyToBranches", "A")]
        [ mkBranchNode "C" (dec 4 (-1)) "0.1";
          mkBranchNode "D" (dec 6 (-1)) "-0.1" ] ] ].

(** The id A declared again on the second level. *)
Definition duplicate_id : list BranchingLevelNode :=
  [ [ branchset_node "sourceModel" []
        [ mkBranchNode "A" (dec 3 (-1)) "model_a.xml";
          mkBranchNode "B" (dec 7 (-1)) "model_b.xml" ] ];
    [ branchset_node "bGRRelative" []
        [ mkBranchNode "C" (dec 4 (-1)) "0.1";
          mkBranchNode "A" (dec 6 (-1)) "-0.1" ] ] ].

(** Weights 0.3 and 0.6. *)
Definition short_weights : list BranchingLevelNode :=
  [ [ branchset_node "sourceModel" []
        [ mkBranchNode "A" (dec 3 (-1)) "model_a.xml";
          mkBranchNode "B" (dec 6 (-1)) "model_b.xml" ] ] ].

(** Weights 0.6 and 0.4000000000000000000000000003. *)
Definition long_weight : list BranchingLevelNode :=
  [ [ branchset_node "sourceModel" []
        [ mkBranchNode "A" (dec 6 (-1)) "model_a.xml";
          mkBranchNode "B" (dec 4000000000000000000000000003 (-28))
            "model_b.xml" ] ] ].

(** Weights 0.1 and 0.9000000000000000000000000005, then 0.3 and 0.7. *)
Definition long_weight_two_levels : list BranchingLevelNode :=
  [ [ branchset_node "sourceModel" []
        [ mkBranchNode "A" (dec 1 (-1)) "model_a.xml";
          mkBranchNode "B" (dec 9000000000000000000000000005 (-28))
            "model_b.xml" ] ];
    [ branchset_node "bGRRelative" []
        [ mkBranchNode "C" (dec 3 (-1)) "0.1";
          mkBranchNode "D" (dec 7 (-1)) "-0.1" ] ] ].

(** Fifteen-digit weights whose sums are exactly 1. *)
Definition fifteen_digits : list BranchingLevelNode :=
  [ [ branchset_node "sourceModel" []
        [ mkBranchNode "A" (dec 578912264785526 (-15)) "model_a.xml";
          mkBranchNode "B" (dec 421087735214474 (-15)) "model_b.xml" ] ];
    [ branchset_node "bGRRelative" []
        [ mkBranchNode "C" (dec 183594868173598 (-15)) "0.1";
          mkBranchNode "D" (dec 816405131826402 (-15)) "-0.1" ] ] ].

(** A first level that is not of type sourceModel. *)
Definition misplaced : list BranchingLevelNode :=
  [ [ branchset_node "bGRRelative" []
        [ mkBranchNode "A" (dec 10 (-1)) "0.1" ] ] ].

(** A GMPE document with one branchset per region type. *)
Definition gmpe_two_regions : list BranchingLevelNode :=
  [ [ branchset_node "gmpeModel"
        [("applyToTectonicRegionType", "Active Shallow Crust")]
        [ mkBranchNode "b1" (dec 5 (-1)) "BooreAtkinson2008";
          mkBranchNode "b2" (dec 5 (-1)) "ChiouYoungs2008" ] ];
    [ branchset_node "gmpeModel"
        [("applyToTectonicRegionType", "Stable Continental Crust")]
        [ mkBranchNode "b3" (dec 10 (-1)) "ToroEtAl2002" ] ] ].

(** The same without the second region type. *)
Definition gmpe_one_region : list BranchingLevelNode :=
  [ [ branchset_node "gmpeModel"
        [("applyToTectonicRegionType", "Active Shallow Crust")]
        [ mkBranchNode "b1" (dec 5 (-1)) "BooreAtkinson2008";
          mkBranchNode "b2" (dec 5 (-1)) "ChiouYoungs2008" ] ] ].

(** A flat GSIM document in ascending order of branchSetID. *)
Definition gsim_node (branchSetID trt : string) (bs : list BranchNode)
  : GsimLogicTree.Node :=
  GsimLogicTree.mkNode branchSetID "gmpeModel"
    {[ "applyToTectonicRegionType" := trt ]} bs.

Definition gsim_ascending : list (list GsimLogicTree.Node) :=
  [ [ gsim_node "bs1" "Active Shallow Crust"
        [ mkBranchNode "b1" (dec 5 (-1)) "BooreAtkinson2008";
          mkBranchNode "b2" (dec 5 (-1)) "ChiouYoungs2008" ] ];
    [ gsim_node "bs2" "Stable Continental Crust"
        [ mkBranchNode "b3" (dec 10 (-1)) "ToroEtAl2002" ] ] ].

(** The same region types declared in descending order of branchSetID
    and branch id. *)
Definition gsim_descending : list (list GsimLogicTree.Node) :=
  [ [ gsim_node "bs2" "Stable Continental Crust"
        [ mkBranchNode "b3" (dec 10 (-1)) "ToroEtAl2002" ] ];
    [ gsim_node "bs1" "Active Shallow Crust"
        [ mkBranchNode "b1" (dec 10 (-1)) "BooreAtkinson2008" ] ] ].

Definition region_type_list : list string :=
  [ "Active Shallow Crust"; "Stable Continental Crust" ].

Definition two_region_types : gset string :=
  {[ "Active Shallow Crust"; "Stable Continental Crust" ]}.

Definition branches_ab : list (@Branch string string) :=
  [ mkBranch "A" (dec 3 (-1)) (VText "model_a.xml");
    mkBranch "B" (dec 7 (-1)) (VText "model_b.xml") ].
End Examples.

(** ** Further specifications *)

(** The generator after [n] draws. *)
Definition draws {Rng : Type} (random : Rng → Q * Rng) (n : nat) (rnd : Rng)
  : Rng :=
  Nat.iter n (λ r, (random r).2) rnd.

(** ** The tree and its document *)
Section Provenance.
Context {F G V : Type} (hooks : @Hooks F G V).

(** The filters a branchset node declares, as [parse_branchset] reads
    them off the attributes. *)
Definition raw_filters (node : BranchSetNode) : gmap string string :=
  filter (λ kv, kv.1 ∈ FILTERS) (attrib node).

(** The filters of the branchset made from a node. *)
Definition node_filters (node : BranchSetNode) : gmap string FilterValue :=
  parse_filters hooks node (uncertaintyType node) (raw_filters node).

(** The value of a branch is what [parse_uncertainty_value] makes of the
    text of the branch node, for a branchset of the type and filters of
    the node. *)
Definition parsed_value (node : BranchSetNode) (b : @Branch F G)
    (n : BranchNode) : Prop :=
  ∃ v bset0,
    uncertainty_type bset0 = uncertaintyType node
    ∧ filters bset0 = node_filters node
    ∧ parse_uncertainty_value hooks v bset0 (strip (uncertaintyModel n))
      = Ok (value b).

(** A branchset of the tree mirrors a branchset node of the document. *)
Definition mirrors (bset : @BranchSet F G) (node : BranchSetNode) : Prop :=
  uncertainty_type bset = uncertaintyType node
  ∧ filters bset = node_filters node
  ∧ Forall2 (λ b n, branch_id b = branchID n
                    ∧ weight b = uncertaintyWeight n
                    ∧ parsed_value node b n)
      (branches bset) (logicTreeBranch node).

(** The nodes of the document up to node [k] of level [d]. *)
Definition nodes_before (content : list BranchingLevelNode) (d k : nat)
  : list BranchSetNode :=
  concat (take d content)
  ++ match content !! d with Some level => take k level | None => [] end.
End Provenance.

(** ** Paths of a tree *)
Section Paths.
Context {F G : Type}.
Context (store : list (@BranchSet F G)) (child : gmap string bsref).

(** A path from a branchset down to a branch without child branchset:
    one branch of the branchset, then a path from the child branchset of
    that branch, if it has one. *)
Inductive tree_path : bsref → list (@Branch F G) → Prop :=
  | path_leaf i bset b :
      store !! i = Some bset → b ∈ branches bset →
      child !! branch_id b = None →
      tree_path i [b]
  | path_step i bset b j p :
      store !! i = Some bset → b ∈ branches bset →
      child !! branch_id b = Some j → tree_path j p →
      tree_path i (b :: p).
End Paths.

(** The weight [enumerate_paths] gives a path: 1.0 multiplied by the
    weights of the branches from the last one back to the first, every
    product rounded. *)
Definition path_weight {F G : Type} (p : list (@Branch F G)) : Decimal.t :=
  foldr (λ b w, Decimal.mul w (weight b)) (Decimal.mk 10 (-1)) p.

(** ** More example data *)
Module MoreExamples.
Import Examples.
Local Open Scope string_scope.

(** One level with the source models A and B. *)
Definition one_level : list BranchingLevelNode :=
  [ [ branchset_node "sourceModel" []
        [ mkBranchNode "A" (dec 3 (-1)) "model_a.xml";
          mkBranchNode "B" (dec 7 (-1)) "model_b.xml" ] ] ].

(** A branchset node for branch A only. *)
Definition node_for_a : BranchSetNode :=
  branchset_node "bGRRelative" [("applyToBranches", "A")]
    [ mkBranchNode "C" (dec 4 (-1)) "0.1";
      mkBranchNode "D" (dec 6 (-1)) "-0.1" ].

(** The same with branch A named twice. *)
Definition node_for_a_twice : BranchSetNode :=
  branchset_node "bGRRelative" [("applyToBranches", "A A")]
    [ mkBranchNode "C" (dec 4 (-1)) "0.1";
      mkBranchNode "D" (dec 6 (-1)) "-0.1" ].
End MoreExamples.

(** ** The shape of a validated source model tree *)
Section SmShape.
Context {F G : Type}.

(** The branchset of the source models: no filters, file names as
    values. *)
Definition source_model_branchset (bset : @BranchSet F G) : Prop :=
  uncertainty_type bset = "sourceModel"%string
  ∧ filters bset = ∅
  ∧ Forall (λ b, ∃ file, value b = VText file) (branches bset).

(** A branchset of another uncertainty: floats as values, pairs of floats
    for [abGRAbsolute]. *)
Definition uncertainty_branchset (bset : @BranchSet F G) : Prop :=
  uncertainty_type bset ≠ "sourceModel"%string
  ∧ uncertainty_type bset ≠ "gmpeModel"%string
  ∧ Forall (λ b,
      if decide (uncertainty_type bset = "abGRAbsolute"%string)
      then ∃ a_val b_val, value b = VPair a_val b_val
      else ∃ x, value b = VFloat x) (branches bset).

(** The store of a validated source model tree, given the first
    branching level of its document. *)
Definition sm_shape (level0 : BranchingLevelNode)
    (store : list (@BranchSet F G)) : Prop :=
  match level0 with
  | [] => Forall uncertainty_branchset store
  | _ :: others =>
      others = []
      ∧ ∃ root rest, store = root :: rest
                     ∧ source_model_branchset root
                     ∧ Forall uncertainty_branchset rest
  end.
End SmShape.

(** ** Filters of a validated source model tree *)
Section SmFilters.
Context {F G : Type}.

(** The name a source type filter uses for the class of a source. *)
Definition class_name (c : Source.source_class) : option string :=
  match c with
  | Source.PointSource => Some "point"
  | Source.AreaSource => Some "area"
  | Source.SimpleFaultSource => Some "simpleFault"
  | Source.ComplexFaultSource => Some "complexFault"
  | Source.CharacteristicFaultSource => Some "characteristicFault"
  | Source.OtherSource => None
  end%string.

(** A source meets the filters of a branchset. *)
Definition passes (fs : gmap string FilterValue) (source : Source.t)
  : Prop :=
  (∀ trt, fs !! "applyToTectonicRegionType"%string = Some (FText trt) →
          Source.tectonic_region_type source = trt)
  ∧ (∀ st, fs !! "applyToSourceType"%string = Some (FText st) →
           class_name (Source.class source) = Some st)
  ∧ (∀ ids, fs !! "applyToSources"%string = Some (FList ids) →
            Source.source_id source ∈ ids).

(** The filters [validate_filters] lets through, given what the source
    models read so far contain: none, or one, naming a region type, a
    source type or source ids of these source models. *)
Definition sm_filters (v : SourceModelLogicTree.attrs)
    (fs : gmap string FilterValue) : Prop :=
  fs = ∅
  ∨ (∃ trt, fs = {[ "applyToTectonicRegionType"%string := FText trt ]}
            ∧ trt ∈ SourceModelLogicTree.tectonic_region_types v)
  ∨ (∃ st, fs = {[ "applyToSourceType"%string := FText st ]}
           ∧ st ∈ SourceModelLogicTree.source_types v
           ∧ st ∈ SourceModelLogicTree.SOURCE_TYPES)
  ∨ (∃ ids, fs = {[ "applyToSources"%string := FList ids ]}
            ∧ ∀ id, id ∈ ids → id ∈ SourceModelLogicTree.source_ids v).

(** The filters of a branchset as validation leaves them. *)
Definition sm_branchset_filters (v : SourceModelLogicTree.attrs)
    (bset : @BranchSet F G) : Prop :=
  sm_filters v (filters bset)
  ∧ (uncertainty_type bset = "sourceModel"%string → filters bset = ∅)
  ∧ (uncertainty_type bset ∈ ["abGRAbsolute"; "maxMagGRAbsolute"]%string →
     ∃ id, filters bset = {[ "applyToSources"%string := FList [id] ]}).

(** The source models read later add to what is known, they take
    nothing away. *)
Definition attrs_le (v v' : SourceModelLogicTree.attrs) : Prop :=
  SourceModelLogicTree.source_ids v ⊆ SourceModelLogicTree.source_ids v'
  ∧ SourceModelLogicTree.tectonic_region_types v
    ⊆ SourceModelLogicTree.tectonic_region_types v'
  ∧ SourceModelLogicTree.source_types v
    ⊆ SourceModelLogicTree.source_types v'.

(** Only the five source types are ever collected. *)
Definition known_source_types (v : SourceModelLogicTree.attrs) : Prop :=
  ∀ st, st ∈ SourceModelLogicTree.source_types v →
        st ∈ SourceModelLogicTree.SOURCE_TYPES.
End SmFilters.

(** Source models with a point source and an area source, and a document
    whose branchsets filter on them. *)
Module FilterExamples.
Import Examples.
Local Open Scope string_scope.

Definition read_sources (file : string)
  : result (list SourceModelLogicTree.SourceNode) :=
  Ok [ SourceModelLogicTree.mkSourceNode "pointSource" "p1"
         "Active Shallow Crust";
       SourceModelLogicTree.mkSourceNode "areaSource" "a1"
         "Stable Continental Crust" ].

Definition sm_new :=
  @SourceModelLogicTree.new string string float read_sources.

Definition filtered : list BranchingLevelNode :=
  [ [ branchset_node "sourceModel" []
        [ mkBranchNode "A" (dec 10 (-1)) "model_a.xml" ] ];
    [ branchset_node "bGRRelative" [("applyToSourceType", "area")]
        [ mkBranchNode "C" (dec 4 (-1)) "0.1";
          mkBranchNode "D" (dec 6 (-1)) "-0.1" ] ];
    [ branchset_node "maxMagGRAbsolute" [("applyToSources", "p1")]
        [ mkBranchNode "E" (dec 10 (-1)) "7.5" ] ] ].

Definition area_source : Source.t :=
  Source.mk "a1" "Stable Continental Crust" Source.AreaSource.
End FilterExamples.

(** ** The shape of a validated GMPE tree *)
Section GmpeShape.
Context {F G : Type} (GSIM : gmap string G).

(** The branchset of the GSIMs of one tectonic region type. *)
Definition gmpe_branchset (trt : string) (bset : @BranchSet F G) : Prop :=
  uncertainty_type bset = "gmpeModel"%string
  ∧ filters bset = {[ "applyToTectonicRegionType"%string := FText trt ]}
  ∧ Forall (λ b, ∃ name g, GSIM !! name = Some g ∧ value b = VGsim g)
      (branches bset).
End GmpeShape.

(** ** Paths and the branchsets they go through *)
Section PathOwners.
Context {F G : Type}.
Context (store : list (@BranchSet F G)) (child : gmap string bsref).

(** The branchsets a path goes through, from branchset [i] on. *)
Fixpoint path_refs (i : bsref) (p : list (@Branch F G)) : list bsref :=
  match p with
  | [] => []
  | b :: p =>
      i :: match child !! branch_id b with
           | Some j => path_refs j p
           | None => []
           end
  end.

(** The entries of a path that are not of a source model branchset: the
    branchset and the value of the branch. *)
Definition path_uncertainties (i : bsref) (p : list (@Branch F G))
  : list (bsref * Value F G) :=
  omap (λ rb : bsref * @Branch F G,
          bset ← store !! rb.1;
          if decide (uncertainty_type bset = "sourceModel"%string)
          then None else Some (rb.1, value rb.2))
    (zip (path_refs i p) p).
End PathOwners.

(** * Proofs *)

(** ** Decimals *)

Lemma eq_one_to_Q d : Decimal.eq_one d = true → (Decimal.to_Q d == 1)%Q.
Proof. unfold Decimal.eq_one. apply Qeq_bool_iff. Qed.

Lemma eq_one_ge_float d x :
  Decimal.eq_one d = true → (x < 1)%Q → Decimal.ge_float d x = true.
Proof.
  intros Hd Hx. apply eq_one_to_Q in Hd.
  unfold Decimal.ge_float. apply Qle_bool_iff. rewrite Hd.
  by apply Qlt_le_weak.
Qed.

(** ** sample_one *)
Section SampleOne.
Context {F G : Type}.
Implicit Types (bs : list (@Branch F G)) (b : @Branch F G).

Lemma sample_one_from_reaches bs acc d :
  bs ≠ [] →
  Decimal.ge_float (fold_left Decimal.add (weight <$> bs) acc) d = true →
  ∃ b, sample_one_from acc bs d = Ok b ∧ b ∈ bs.
Proof.
  revert acc. induction bs as [|b bs IH]; intros acc Hne Hge; [done|].
  simpl in *.
  destruct (Decimal.ge_float (Decimal.add acc (weight b)) d) eqn:Hb.
  - exists b. split; [done | apply list_elem_of_here].
  - destruct bs as [|b' bs'].
    + simpl in Hge. congruence.
    + destruct (IH (Decimal.add acc (weight b))) as (b'' & Hs & Hin);
        [done | done |].
      exists b''. split; [done | by apply list_elem_of_further].
Qed.

Lemma sample_one_from_first bs acc d b :
  sample_one_from acc bs d = Ok b ↔
  ∃ k, bs !! k = Some b
       ∧ Decimal.ge_float
           (fold_left Decimal.add (weight <$> take (S k) bs) acc) d = true
       ∧ ∀ j, (j < k)%nat →
           Decimal.ge_float
             (fold_left Decimal.add (weight <$> take (S j) bs) acc) d = false.
Proof.
  revert acc. induction bs as [|b0 bs IH]; intros acc.
  - split; [done | by intros (k & ? & _)].
  - cbn [sample_one_from].
    destruct (Decimal.ge_float (Decimal.add acc (weight b0)) d) eqn:Hb.
    + split.
      * intros [= <-]. exists 0%nat. simpl.
        split_and!; [done | done | intros; lia].
      * intros (k & Hk & Hge & Hlt). destruct k as [|k].
        { simpl in Hk. by simplify_eq. }
        specialize (Hlt 0%nat ltac:(lia)). simpl in Hlt. congruence.
    + rewrite IH. split.
      * intros (k & Hk & Hge & Hlt). exists (S k).
        split_and!; [done | done |].
        intros [|j] Hj; simpl.
        { done. }
        apply (Hlt j). lia.
      * intros (k & Hk & Hge & Hlt). destruct k as [|k].
        { simpl in Hge. congruence. }
        exists k. split_and!; [done | done |].
        intros j Hj. apply (Hlt (S j)). lia.
Qed.

Lemma sample_one_from_first_reaching bs d b :
  sample_one_from (Decimal.of_int 0) bs d = Ok b ↔
  ∃ k, first_reaching bs d k b.
Proof. apply sample_one_from_first. Qed.

Lemma sample_one_from_total bs d :
  Decimal.eq_one (Decimal.sum (weight <$> bs)) = true →
  (d < 1)%Q →
  ∃ b, sample_one_from (Decimal.of_int 0) bs d = Ok b ∧ b ∈ bs.
Proof.
  intros Hsum Hd. apply sample_one_from_reaches.
  - intros ->. by vm_compute in Hsum.
  - by apply eq_one_ge_float.
Qed.
End SampleOne.

(** ** The builder keeps the tree well formed *)
Section BuilderInvariant.
Context {F G V : Type} (hooks : @Hooks F G V).
Abbreviation Tree := (@BaseLogicTree F G V).
Implicit Types (s : Tree) (bset : @BranchSet F G) (b : @Branch F G).

Lemma base_apply_lookup (c : gmap string bsref) (oe : gset string)
    (ref : bsref) id :
  (id ∈ oe → set_fold (λ branch c, <[branch := ref]> c) c oe !! id = Some ref)
  ∧ (id ∉ oe →
     set_fold (λ branch c, <[branch := ref]> c) c oe !! id = c !! id).
Proof.
  apply (set_fold_ind_L
    (λ r X, (id ∈ X → r !! id = Some ref) ∧ (id ∉ X → r !! id = c !! id))).
  - split; [set_solver | done].
  - intros x X r Hx [IH1 IH2]. destruct (decide (x = id)) as [->|Hne].
    + rewrite lookup_insert_eq. split; [done | set_solver].
    + rewrite lookup_insert_ne by done. split; intros ?.
      * apply IH1. set_solver.
      * apply IH2. set_solver.
Qed.

Lemma base_apply_spec : apply_spec (@base_apply_branchset F G V).
Proof.
  intros node ref s s' Hs. injection Hs as <-. split; [done|]. intros id. simpl.
  destruct (base_apply_lookup (child_branchset s) (open_ends s) ref id)
    as [H1 H2].
  destruct (decide (id ∈ open_ends s)); auto.
Qed.

(** *** parse_branches *)

Lemma parse_branch_loop_spec validate nodes ws s bset ws' s' bset' :
  parse_branch_loop hooks validate (ws, s, bset) nodes = Ok (ws', s', bset') →
  ∃ new,
    branches bset' = branches bset ++ new
    ∧ uncertainty_type bset' = uncertainty_type bset
    ∧ filters bset' = filters bset
    ∧ branch_id <$> new = branchID <$> nodes
    ∧ weight <$> new = uncertaintyWeight <$> nodes
    ∧ ws' = fold_left Decimal.add (uncertaintyWeight <$> nodes) ws
    ∧ NoDup (branch_id <$> new)
    ∧ (∀ b, b ∈ new → tree_branches s !! branch_id b = None)
    ∧ (∀ b, b ∈ new → tree_branches s' !! branch_id b = Some b)
    ∧ (∀ id, id ∉ branch_id <$> new →
         tree_branches s' !! id = tree_branches s !! id)
    ∧ s' = set_variant (set_tree_branches s (tree_branches s')) (variant s').
Proof.
  revert ws s bset. induction nodes as [|n nodes IH]; intros ws s bset H.
  - simpl in H. simplify_eq. exists []. rewrite app_nil_r.
    split_and!; try done.
    + constructor.
    + intros b Hb. by apply elem_of_nil in Hb.
    + intros b Hb. by apply elem_of_nil in Hb.
    + by destruct s'.
  - cbn [parse_branch_loop] in H.
    destruct (parse_branch hooks validate (ws, s, bset) n)
      as [[[ws1 s1] bset1]|e] eqn:Hn; [|done].
    cbn in H. apply IH in H as (new & Hbr & Hut & Hfi & Hids & Hws & Hsum
      & Hnd & Hfresh & Hin & Hout & Hframe).
    unfold parse_branch in Hn.
    set (s0 := if validate then _ else _) in Hn.
    destruct s0 as [sv|] eqn:Hs0; [|done]. cbn in Hn.
    assert (Hsv : tree_branches sv = tree_branches s
                  ∧ sv = set_variant s (variant sv)).
    { subst s0. destruct validate.
      - destruct (validate_uncertainty_value _ _ _ _) eqn:Hv; [|done].
        cbn in Hs0. by simplify_eq.
      - simplify_eq. by destruct sv. }
    destruct Hsv as [Htb Hsv].
    destruct (parse_uncertainty_value _ _ _ _) as [val|] eqn:Hp; [|done].
    cbn in Hn. case_decide as Hdup; [done|]. simplify_eq.
    apply eq_None_not_Some in Hdup.
    set (b0 := mkBranch (branchID n) (uncertaintyWeight n) val) in *.
    exists (b0 :: new). simpl in Hbr, Hfresh, Hout.
    assert (Hb0 : branchID n ∉ branch_id <$> new).
    { intros Hb0. apply list_elem_of_fmap in Hb0 as (b & Hb & Hbin).
      specialize (Hfresh _ Hbin).
      rewrite <- Hb in Hfresh. by rewrite lookup_insert_eq in Hfresh. }
    split_and!.
    + by rewrite Hbr, <- app_assoc.
    + done.
    + done.
    + rewrite !fmap_cons. by rewrite Hids.
    + rewrite !fmap_cons. by rewrite Hws.
    + done.
    + rewrite fmap_cons. by constructor.
    + intros b Hb. apply elem_of_cons in Hb as [->|Hb].
      * by rewrite <- Htb.
      * specialize (Hfresh _ Hb).
        destruct (decide (branchID n = branch_id b)) as [Heq|Hne].
        { rewrite Heq in Hfresh. by rewrite lookup_insert_eq in Hfresh. }
        rewrite lookup_insert_ne in Hfresh by done. by rewrite <- Htb.
    + intros b Hb. apply elem_of_cons in Hb as [->|Hb]; [|by apply Hin].
      rewrite Hout by done. by rewrite lookup_insert_eq.
    + intros id Hid. rewrite fmap_cons in Hid.
      apply not_elem_of_cons in Hid as [Hne Hid].
      rewrite Hout by done.
      rewrite lookup_insert_ne by done. by rewrite Htb.
    + rewrite Hframe. rewrite Hsv. done.
Qed.
Lemma parse_branches_spec validate node s bset s' bset' :
  parse_branches hooks s node bset validate = Ok (s', bset') →
  branches bset = [] →
  branch_id <$> branches bset' = branchID <$> logicTreeBranch node
  ∧ weight <$> branches bset' = uncertaintyWeight <$> logicTreeBranch node
  ∧ Decimal.eq_one (Decimal.sum (weight <$> branches bset')) = true
  ∧ NoDup (branch_id <$> branches bset')
  ∧ (∀ b, b ∈ branches bset' → tree_branches s !! branch_id b = None)
  ∧ (∀ b, b ∈ branches bset' → tree_branches s' !! branch_id b = Some b)
  ∧ (∀ id, id ∉ branch_id <$> branches bset' →
       tree_branches s' !! id = tree_branches s !! id)
  ∧ s' = set_variant (set_tree_branches s (tree_branches s')) (variant s').
Proof.
  unfold parse_branches. intros H Hnil.
  destruct (parse_branch_loop _ _ _ _) as [[[ws1 s1] bset1]|] eqn:Hl; [|done].
  cbn in H. destruct (Decimal.eq_one ws1) eqn:Hone; [|done].
  simplify_eq.
  apply parse_branch_loop_spec in Hl as (new & Hbr & _ & _ & Hids & Hws
    & Hsum & Hnd & Hfresh & Hin & Hout & Hframe).
  rewrite Hnil in Hbr. simpl in Hbr. rewrite Hbr.
  split_and!; try done.
  unfold Decimal.sum. rewrite Hws. by rewrite <- Hsum.
Qed.

Lemma parse_branchset_spec validate node depth number s s' bset :
  parse_branchset hooks s node depth number validate = Ok (s', bset) →
  branches bset = [] ∧ s' = set_variant s (variant s').
Proof.
  unfold parse_branchset. intros H.
  destruct validate.
  - destruct (validate_filters _ _ _ _ _) as [v|] eqn:Hv; [|done].
    cbn in H.
    destruct (validate_branchset _ _ _ _ _ _) eqn:Hb; [|done].
    cbn in H. by simplify_eq.
  - cbn in H. simplify_eq. split; [done | by destruct s'].
Qed.

(** *** Owners of branches *)

Lemma elem_of_all_branches (store : list (@BranchSet F G)) b :
  b ∈ all_branches store ↔ ∃ i bset, store !! i = Some bset ∧ b ∈ branches bset.
Proof.
  unfold all_branches. rewrite list_elem_of_bind. split.
  - intros (bset & Hb & Hin). apply list_elem_of_lookup in Hin as [i Hi].
    eauto.
  - intros (i & bset & Hi & Hb). exists bset. split; [done|].
    by eapply list_elem_of_lookup_2.
Qed.

Lemma all_branches_snoc (store : list (@BranchSet F G)) bset :
  all_branches (store ++ [bset]) = all_branches store ++ branches bset.
Proof.
  unfold all_branches. rewrite bind_app. simpl. by rewrite app_nil_r.
Qed.

Lemma owner_unique (store : list (@BranchSet F G)) i i' bset bset' b b' :
  NoDup (branch_id <$> all_branches store) →
  store !! i = Some bset → b ∈ branches bset →
  store !! i' = Some bset' → b' ∈ branches bset' →
  branch_id b = branch_id b' → i = i'.
Proof.
  revert i i'. induction store as [|x store IH]; intros i i' Hnd Hi Hb Hi' Hb' Heq;
    [done|].
  unfold all_branches in Hnd. rewrite bind_cons, fmap_app in Hnd.
  apply NoDup_app in Hnd as (Hx & Hdisj & Hrest).
  destruct i as [|i], i' as [|i']; simpl in *; simplify_eq.
  - done.
  - exfalso. apply (Hdisj (branch_id b)).
    + by apply list_elem_of_fmap_2.
    + rewrite Heq. apply list_elem_of_fmap_2.
      apply elem_of_all_branches. eauto.
  - exfalso. apply (Hdisj (branch_id b')).
    + by apply list_elem_of_fmap_2.
    + rewrite <- Heq. apply list_elem_of_fmap_2.
      apply elem_of_all_branches. eauto.
  - f_equal. by eapply IH.
Qed.


(** *** One branchset node *)

Hypothesis Happly : apply_spec (apply_branchset hooks).

Lemma parse_level_branchset_inv d validate s new number node s' new' lev :
  parse_level_branchset hooks d validate (s, new) (number, node)
    = Ok (s', new') →
  tree_inv s lev (S d) d → new_open_ok s lev d new →
  ∃ lev', tree_inv s' lev' (S d) d ∧ new_open_ok s' lev' d new'
          ∧ open_ends s' = open_ends s
          ∧ step_delta hooks node d s s' lev lev' new new'
          ∧ same_params s s'.
Proof.
  unfold parse_level_branchset. intros H Hinv Hnew.
  destruct (skip_branchset_condition _ _ _) as [[|]|] eqn:Hskip; cbn in H;
    [|  |done].
  { simplify_eq. exists lev. split_and!; auto; [by left|done]. }
  destruct (parse_branchset _ _ _ _ _ _) as [[s1 bset0]|] eqn:Hbs; [|done].
  cbn in H.
  apply parse_branchset_spec in Hbs as [Hnil Hs1].
  destruct (parse_branches _ _ _ _ _) as [[s2 bset]|] eqn:Hbr; [|done].
  cbn in H.
  apply parse_branches_spec in Hbr
    as (Hids & Hws & Hone & Hnd & Hfresh & Hin & Hout & Hs2); [|done].
  set (n := length (branchsets s2)) in *.
  set (s3 := set_branchsets s2 (branchsets s2 ++ [bset])) in *.
  assert (Hst : branchsets s2 = branchsets s) by (by rewrite Hs2, Hs1).
  assert (Hch : child_branchset s2 = child_branchset s)
    by (by rewrite Hs2, Hs1).
  assert (Hoe : open_ends s2 = open_ends s) by (by rewrite Hs2, Hs1).
  assert (Hrt : root_branchset s2 = root_branchset s)
    by (by rewrite Hs2, Hs1).
  assert (Htb1 : tree_branches s1 = tree_branches s) by (by rewrite Hs1).
  rewrite Htb1 in Hfresh, Hout.
  destruct Hinv as [Hlen Hnodup Hlook Hdom Hwts Hroot Hchild Hcdom Hbound Hopen].
  assert (Hn : n = length lev) by (unfold n; by rewrite Hst).
  (* the state after the root or apply step *)
  assert (Hs4 : ∃ c,
    s' = set_child_branchset
           (set_root_branchset s3
              (match root_branchset s with
               | None => Some n | r => r end)) c
    ∧ (∀ id, c !! id = child_branchset s !! id
             ∨ (id ∈ open_ends s ∧ c !! id = Some n))
    ∧ (root_branchset s ≠ None →
       ∃ s3', open_ends s3' = open_ends s
              ∧ apply_branchset hooks node n s3' = Ok s')).
  { change (root_branchset s3) with (root_branchset s2) in H.
    rewrite Hrt in H.
    destruct (root_branchset s) as [r|] eqn:Hr.
    - destruct (apply_branchset _ _ _ _) as [s4|] eqn:Hap; [|by cbn in H].
      cbn in H. simplify_eq. pose proof Hap as Hap'.
      apply Happly in Hap as [Hs4 Hc]. exists (child_branchset s').
      split_and!.
      + rewrite Hs4 at 1. subst s3. simpl in *.
        unfold set_child_branchset, set_root_branchset, set_branchsets.
        simpl. by rewrite Hrt.
      + intros id. destruct (Hc id) as [Hid|[Hid1 Hid2]].
        * left. rewrite Hid; simpl. by rewrite Hch.
        * right. simpl in Hid1. rewrite Hoe in Hid1. done.
      + intros _. exists s3. by split.
    - cbn in H. simplify_eq. exists (child_branchset s). split_and!.
      + subst s3. simpl in *.
        unfold set_child_branchset, set_root_branchset, set_branchsets.
        simpl. by rewrite Hch.
      + auto.
      + done. }
  destruct Hs4 as (c & Hs' & Hc & Hap).
  assert (Hnew' : new' = new ∪ list_to_set (branch_id <$> branches bset)).
  { destruct (match root_branchset s3 with None => _ | Some _ => _ end);
      cbn in H; by simplify_eq. }
  clear H.
  assert (Hfresh_old : ∀ b b', b ∈ all_branches (branchsets s) →
            b' ∈ branches bset → branch_id b ≠ branch_id b').
  { intros b b' Hb Hb' Heq. apply Hlook in Hb. apply Hfresh in Hb'.
    rewrite <- Heq in Hb'. congruence. }
  exists (lev ++ [d]).
  split_and!; [|  |by rewrite Hs'; simpl|
               |split; rewrite Hs'; subst s3; simpl; rewrite Hs2; simpl;
                  by rewrite Hs1].
  3:{ right. exists bset. rewrite <- Hst. fold n.
      split_and!; [by rewrite Hs'|done|done| |done].
      intros id. rewrite Hs'. simpl. apply Hc. }
  - rewrite Hs'. constructor; simpl; rewrite ?Hst.
    + rewrite !length_app. simpl. lia.
    + rewrite all_branches_snoc, fmap_app. apply NoDup_app.
      split_and!; [done| |done].
      intros id Hid1 Hid2.
      apply list_elem_of_fmap in Hid1 as (b & -> & Hb).
      apply list_elem_of_fmap in Hid2 as (b' & Heq & Hb').
      by eapply Hfresh_old.
    + intros b. rewrite all_branches_snoc, elem_of_app.
      intros [Hb|Hb]; [|by apply Hin].
      rewrite Hout; [by apply Hlook|].
      intros Hid. apply list_elem_of_fmap in Hid as (b' & Heq & Hb').
      by eapply Hfresh_old.
    + intros id Hid. rewrite all_branches_snoc, fmap_app, elem_of_app.
      destruct (decide (id ∈ branch_id <$> branches bset)); [by right|].
      left. apply Hdom. by rewrite <- Hout.
    + intros bs. rewrite elem_of_app, list_elem_of_singleton.
      intros [?| ->]; auto.
    + rewrite Hroot. destruct (branchsets s) eqn:Hstore; [|done].
      simpl. unfold n. by rewrite Hst.
    + intros i bs b j Hi Hb Hj. simpl in Hj.
      assert (Hown : ∀ id, is_Some (tree_branches s !! id) →
                branch_id b = id → branchsets s !! i = Some bs).
      { intros id Hid Hbid. apply lookup_app_Some in Hi as [Hi|[Hge Hi]];
          [done|].
        apply list_lookup_singleton_Some in Hi as [_ <-].
        apply Hfresh in Hb. rewrite Hbid in Hb. rewrite Hb in Hid.
        by destruct Hid. }
      destruct (Hc (branch_id b)) as [Hold|[Hoe' Hnew'']].
      * pose proof (eq_trans (eq_sym Hold) Hj) as Hj'. clear Hj.
        rename Hj' into Hj. pose proof (Hcdom _ _ Hj) as Hsome.
        specialize (Hown _ Hsome eq_refl).
        destruct (Hchild _ _ _ _ Hown Hb Hj) as (Hij & l & Hl1 & Hl2).
        split; [done|]. exists l.
        split; apply lookup_app_l_Some; done.
      * pose proof (eq_trans (eq_sym Hnew'') Hj) as Hj'. simplify_eq.
        destruct (Hopen _ Hoe') as (i0 & bs0 & b0 & l & Hi0 & Hb0 & Hid0
          & Hl0 & Hd).
        assert (Hsome : is_Some (tree_branches s !! branch_id b)).
        { rewrite <- Hid0. exists b0. apply Hlook.
          apply elem_of_all_branches. eauto. }
        specialize (Hown _ Hsome eq_refl).
        assert (i = i0) as -> by (eapply owner_unique; eauto).
        split.
        { apply lookup_lt_Some in Hi0. by rewrite Hst. }
        exists l. split; [by apply lookup_app_l_Some|].
        rewrite Hst, <- Hlen.
        rewrite list_lookup_middle by done. by rewrite Hd.
    + intros id j Hj. simpl in Hj. destruct (Hc id) as [Hold|[Hoe' _]].
      * pose proof (eq_trans (eq_sym Hold) Hj) as Hj'. clear Hj.
        rename Hj' into Hj. apply Hcdom in Hj.
        destruct (decide (id ∈ branch_id <$> branches bset)) as [Hid|Hid].
        { apply list_elem_of_fmap in Hid as (b & -> & Hb).
          rewrite (Hin _ Hb). eauto. }
        by rewrite Hout.
      * destruct (Hopen _ Hoe') as (i0 & bs0 & b0 & l & Hi0 & Hb0 & Hid0
          & Hl0 & Hd).
        assert (Hb0' : b0 ∈ all_branches (branchsets s))
          by (apply elem_of_all_branches; eauto).
        rewrite <- Hid0. rewrite Hout; [rewrite (Hlook _ Hb0'); eauto|].
        intros Hid. apply list_elem_of_fmap in Hid as (b' & Heq & Hb').
        by eapply Hfresh_old.
    + intros i l Hi. apply lookup_app_Some in Hi as [Hi|[_ Hi]].
      * apply Hbound in Hi. lia.
      * apply list_lookup_singleton_Some in Hi as [_ <-]. lia.
    + rewrite Hoe. intros id Hid.
      destruct (Hopen _ Hid) as (i0 & bs0 & b0 & l & Hi0 & Hb0 & Hid0
          & Hl0 & Hd).
      exists i0, bs0, b0, l.
      split_and!; try done; by apply lookup_app_l_Some.
  - rewrite Hs', Hnew'. intros id. simpl. rewrite Hst.
    rewrite elem_of_union, elem_of_list_to_set.
    intros [Hid|Hid].
    + destruct (Hnew _ Hid) as (i & bs & b & Hi & Hb & Hbid & Hl).
      exists i, bs, b. split_and!; try done; by apply lookup_app_l_Some.
    + apply list_elem_of_fmap in Hid as (b & -> & Hb).
      exists n, bset, b. split_and!; try done.
      * unfold n. rewrite Hst. by rewrite list_lookup_middle.
      * rewrite Hn. by rewrite list_lookup_middle.
Qed.


(** *** Levels and the whole tree *)

Lemma parse_level_loop_inv d validate nodes s new s' new' lev :
  parse_level_loop hooks d validate (s, new) nodes = Ok (s', new') →
  tree_inv s lev (S d) d → new_open_ok s lev d new →
  ∃ lev', tree_inv s' lev' (S d) d ∧ new_open_ok s' lev' d new'
          ∧ open_ends s' = open_ends s ∧ same_params s s'.
Proof.
  revert s new lev. induction nodes as [|[number node] nodes IH];
    intros s new lev H Hinv Hnew.
  - simpl in H. simplify_eq. exists lev. by split_and!.
  - cbn [parse_level_loop] in H.
    destruct (parse_level_branchset _ _ _ _ _) as [[s1 new1]|] eqn:H1;
      [|done].
    cbn in H.
    eapply parse_level_branchset_inv in H1
      as (lev1 & Hinv1 & Hnew1 & Hoe1 & _ & Hp1); [|done..].
    eapply IH in H as (lev' & Hinv' & Hnew'' & Hoe' & Hp'); [|done..].
    exists lev'. split_and!; [done..|by rewrite Hoe'|].
    destruct Hp1, Hp'. split; congruence.
Qed.

Lemma tree_inv_weaken s lev hi hi' d :
  (hi ≤ hi')%nat → tree_inv s lev hi d → tree_inv s lev hi' d.
Proof.
  intros Hle [? ? ? ? ? ? ? ? Hb ?]. constructor; try done.
  intros i l Hi. apply Hb in Hi. lia.
Qed.

Lemma parse_branchinglevel_inv d validate level s s' lev :
  parse_branchinglevel hooks s level d validate = Ok s' →
  tree_inv s lev d d →
  ∃ lev', tree_inv s' lev' (S d) (S d) ∧ same_params s s'.
Proof.
  unfold parse_branchinglevel. intros H Hinv.
  destruct (parse_level_loop _ _ _ _ _) as [[s1 new1]|] eqn:Hl; [|done].
  cbn in H. simplify_eq.
  eapply parse_level_loop_inv in Hl as (lev' & Hinv' & Hnew & _ & Hp).
  - exists lev'. split; [|done].
    destruct Hinv' as [? ? ? ? ? ? ? ? ? ?]. constructor; try done.
    simpl. intros id Hid. destruct (Hnew _ Hid) as (i & bs & b & ? & ? & ? & ?).
    by exists i, bs, b, d.
  - eapply tree_inv_weaken; [|done]. lia.
  - intros id Hid. by apply elem_of_empty in Hid.
Qed.

Lemma parse_levels_inv validate levels d s s' lev :
  parse_levels hooks s levels d validate = Ok s' →
  tree_inv s lev d d →
  ∃ lev', tree_inv s' lev' (d + length levels) (d + length levels)
          ∧ same_params s s'.
Proof.
  revert d s lev. induction levels as [|level levels IH]; intros d s lev H Hinv.
  - simpl in H. simplify_eq. exists lev. simpl.
    by replace (d + 0)%nat with d by lia.
  - cbn [parse_levels] in H.
    destruct (parse_branchinglevel _ _ _ _ _) as [s1|] eqn:H1; [|done].
    cbn in H.
    eapply parse_branchinglevel_inv in H1 as (lev1 & Hinv1 & Hp1); [|done].
    eapply IH in H as (lev' & Hinv' & Hp'); [|done].
    exists lev'. simpl. replace (d + S (length levels))%nat
      with (S d + length levels)%nat by lia.
    split; [done|]. destruct Hp1, Hp'. split; congruence.
Qed.

Lemma parse_tree_levels s tree_node validate s' :
  parse_tree hooks s tree_node validate = Ok s' →
  parse_levels hooks s tree_node 0 validate = Ok s'.
Proof.
  unfold parse_tree. intros H.
  destruct (parse_levels _ _ _ _ _) as [s1|]; [|done]. cbn in H.
  destruct validate; [|done].
  destruct (validate_tree _ _); [|done]. done.
Qed.

Lemma tree_inv_init basepath filename seed num_samples (v : V) :
  tree_inv
    (@mkTree F G V basepath filename seed num_samples ∅ ∅ None [] ∅ v)
    [] 0 0.
Proof.
  constructor; simpl; try done.
  - constructor.
  - intros b Hb. by apply elem_of_nil in Hb.
  - intros id [b Hb]. by rewrite lookup_empty in Hb.
  - intros bset Hb. by apply elem_of_nil in Hb.
Qed.

Lemma init_well_formed v content basepath filename validate seed0 n0 self :
  init hooks v content basepath filename validate seed0 n0 = Ok self →
  well_formed self (length content)
  ∧ seed self = seed0 ∧ num_samples self = n0.
Proof.
  unfold init. intros H. apply parse_tree_levels in H.
  eapply parse_levels_inv in H as (lev & Hinv & Hs & Hn);
    [|apply tree_inv_init].
  split_and!; [by exists lev|done..].
Qed.


End BuilderInvariant.

(** ** SourceModelLogicTree.apply_branchset meets [apply_spec] *)
Section SourceModelApply.
Context {F G : Type}.

Lemma apply_to_branches_spec (ref : bsref) ids
    (s s' : @BaseLogicTree F G SourceModelLogicTree.attrs) :
  SourceModelLogicTree.apply_to_branches ref s ids = Ok s' →
  s' = set_child_branchset s (child_branchset s')
  ∧ ∀ id, child_branchset s' !! id = child_branchset s !! id
          ∨ (id ∈ open_ends s ∧ child_branchset s' !! id = Some ref).
Proof.
  revert s. induction ids as [|x ids IH]; intros s H.
  - simpl in H. simplify_eq. split; [by destruct s' | auto].
  - cbn [SourceModelLogicTree.apply_to_branches] in H.
    repeat case_decide; try done.
    apply IH in H as [Hs' Hc]. simpl in *. split.
    + rewrite Hs' at 1. done.
    + intros id. destruct (Hc id) as [Hid|[Hid1 Hid2]].
      * destruct (decide (x = id)) as [->|Hne].
        -- right. by rewrite Hid, lookup_insert_eq.
        -- left. by rewrite Hid, lookup_insert_ne.
      * by right.
Qed.

Lemma sm_apply_spec :
  apply_spec (@SourceModelLogicTree.apply_branchset F G).
Proof.
  intros node ref s s' H. unfold SourceModelLogicTree.apply_branchset in H.
  destruct (attrib node !! _) as [text|].
  - case_decide.
    + by apply (@base_apply_spec F G) in H.
    + by apply apply_to_branches_spec in H.
  - by apply (@base_apply_spec F G) in H.
Qed.
End SourceModelApply.

(** ** Walking a well-formed tree *)
Section WalkWellFormed.
Context {F G V : Type}.
Implicit Types (s : @BaseLogicTree F G V) (b : @Branch F G).

Lemma mapM_option_total {A B} (f : A → option B) (Q : B → Prop) l :
  (∀ x, x ∈ l → ∃ y, f x = Some y ∧ Q y) →
  ∃ k, mapM f l = Some k ∧ Forall Q k ∧ length k = length l.
Proof.
  induction l as [|x l IH]; intros H.
  - exists []. by split_and!.
  - destruct (H x) as (y & Hy & HQ); [apply list_elem_of_here|].
    destruct IH as (k & Hk & HQk & Hlen).
    { intros x' Hx'. apply H. by apply list_elem_of_further. }
    exists (y :: k). cbn. rewrite Hy. cbn. rewrite Hk. cbn.
    split_and!; [done| by constructor | by rewrite Hlen].
Qed.

Lemma trivial_lower_bound s lev : path_lower_bound s lev (λ _, 1%nat).
Proof. intros i bset b l _ _ _. destruct (_ !! _); lia. Qed.

(** The index of the store bounds the recursion: children come later. *)
Lemma enumerate_paths_bounds s lev hi d lo fuel i l prefix :
  tree_inv s lev hi d → path_lower_bound s lev lo →
  lev !! i = Some l → (length (branchsets s) ≤ fuel + i)%nat →
  ∃ paths,
    _enumerate_paths (branchsets s) (child_branchset s) fuel i prefix
      = Some paths
    ∧ Forall (λ p, (length prefix < length p
                    ∧ length prefix + lo l ≤ length p
                      ≤ length prefix + (hi - l))%nat)
        paths.
Proof.
  intros Hinv Hlo. revert i l prefix.
  induction fuel as [|fuel IH]; intros i l prefix Hl Hfuel.
  - apply lookup_lt_Some in Hl. rewrite (inv_lev_len _ _ _ _ Hinv) in Hl. lia.
  - pose proof (lookup_lt_Some _ _ _ Hl) as Hi.
    rewrite (inv_lev_len _ _ _ _ Hinv) in Hi.
    apply lookup_lt_is_Some in Hi as [bset Hbset].
    pose proof (inv_lev_bound _ _ _ _ Hinv _ _ Hl) as Hlhi.
    cbn [_enumerate_paths]. rewrite Hbset. cbn.
    destruct (mapM_option_total
      (λ branch, match child_branchset s !! branch_id branch with
                 | Some c => _enumerate_paths (branchsets s)
                               (child_branchset s) fuel c (branch :: prefix)
                 | None => Some [branch :: prefix]
                 end)
      (Forall (λ p, (length prefix < length p
                     ∧ length prefix + lo l ≤ length p
                       ≤ length prefix + (hi - l))%nat))
      (branches bset)) as (k & Hk & HQ & _).
    { intros b Hb. pose proof (Hlo _ _ _ _ Hbset Hb Hl) as Hlob.
      destruct (child_branchset s !! branch_id b) as [j|] eqn:Hj.
      - destruct (inv_child _ _ _ _ Hinv _ _ _ _ Hbset Hb Hj)
          as (Hij & l' & Hl' & Hlj).
        assert (l' = l) as -> by congruence.
        pose proof (inv_lev_bound _ _ _ _ Hinv _ _ Hlj) as Hjhi.
        destruct (IH j (S l) (b :: prefix) Hlj) as (paths & Hp & HF);
          [lia|].
        exists paths. split; [done|].
        eapply Forall_impl; [done|]. simpl. intros p Hp'. lia.
      - eexists. split; [done|]. constructor; [|constructor]. simpl. lia. }
    rewrite Hk. cbn. eexists. split; [done|].
    by apply Forall_concat.
Qed.
End WalkWellFormed.

(** ** Sampling a well-formed tree *)
Section SampleWellFormed.
Context {F G V Rng : Type} (random : Rng → Q * Rng).
Implicit Types (s : @BaseLogicTree F G V) (b : @Branch F G).

Lemma get_branch_by_id_elem (bs : list (@Branch F G)) b :
  b ∈ bs →
  ∃ b', get_branch_by_id bs (branch_id b) = Ok b' ∧ b' ∈ bs.
Proof.
  induction bs as [|x bs IH]; intros Hb; [by apply elem_of_nil in Hb|].
  cbn [get_branch_by_id]. case_decide as Hx.
  - exists x. split; [done | apply list_elem_of_here].
  - apply elem_of_cons in Hb as [->|Hb]; [done|].
    destruct (IH Hb) as (b' & Hg & Hin). exists b'.
    split; [done | by apply list_elem_of_further].
Qed.

Lemma sample_1 (bs : list (@Branch F G)) rnd :
  sample random bs 1 rnd =
  match sample_one_from (Decimal.of_int 0) bs (random rnd).1 with
  | Ok b => (Ok [b], (random rnd).2)
  | Raise e => (Raise e, (random rnd).2)
  end.
Proof.
  cbn [sample]. unfold sample_one. destruct (random rnd) as [x rnd'].
  simpl. by destruct (sample_one_from _ _ _).
Qed.

Lemma sample_path_loop_bounds s lev hi d lo fuel i l ids rnd :
  unit_draws random → tree_inv s lev hi d → path_lower_bound s lev lo →
  lev !! i = Some l → (length (branchsets s) ≤ fuel + i)%nat →
  ∃ path rnd',
    sample_path_loop random (branchsets s) (child_branchset s) fuel
      (Some i) ids rnd = Some (Ok (ids ++ path), rnd')
    ∧ (1 ≤ length path ∧ lo l ≤ length path ≤ hi - l)%nat
    ∧ ∃ bset b, branchsets s !! i = Some bset ∧ b ∈ branches bset
                ∧ head path = Some (branch_id b).
Proof.
  intros Hdraw Hinv Hlo. revert i l ids rnd.
  induction fuel as [|fuel IH]; intros i l ids rnd Hl Hfuel.
  - apply lookup_lt_Some in Hl. rewrite (inv_lev_len _ _ _ _ Hinv) in Hl. lia.
  - pose proof (lookup_lt_Some _ _ _ Hl) as Hi.
    rewrite (inv_lev_len _ _ _ _ Hinv) in Hi.
    apply lookup_lt_is_Some in Hi as [bset Hbset].
    pose proof (inv_lev_bound _ _ _ _ Hinv _ _ Hl) as Hlhi.
    cbn [sample_path_loop]. rewrite Hbset. cbn -[sample]. rewrite sample_1.
    destruct (sample_one_from_total (branches bset) (random rnd).1)
      as (b & Hb & Hbin).
    { eapply inv_weights; [done|]. by eapply list_elem_of_lookup_2. }
    { apply Hdraw. }
    rewrite Hb. pose proof (Hlo _ _ _ _ Hbset Hbin Hl) as Hlob.
    destruct (child_branchset s !! branch_id b) as [j|] eqn:Hj.
    + destruct (inv_child _ _ _ _ Hinv _ _ _ _ Hbset Hbin Hj)
        as (Hij & l' & Hl' & Hlj).
      assert (l' = l) as -> by congruence.
      pose proof (inv_lev_bound _ _ _ _ Hinv _ _ Hlj) as Hjhi.
      destruct (IH j (S l) (ids ++ [branch_id b]) (random rnd).2 Hlj)
        as (path & rnd' & Hp & Hlen & _); [lia|].
      exists (branch_id b :: path), rnd'. split_and!.
      * rewrite Hp. by rewrite <- app_assoc.
      * simpl. lia.
      * simpl. lia.
      * simpl. lia.
      * by exists bset, b.
    + exists [branch_id b], (random rnd).2. destruct fuel; simpl.
      * split_and!; [done|lia|lia|lia|by exists bset, b].
      * split_and!; [done|lia|lia|lia|by exists bset, b].
Qed.

Lemma root_level s lev hi d :
  tree_inv s lev hi d → root_branchset s ≠ None →
  root_branchset s = Some 0%nat ∧ ∃ l, lev !! 0%nat = Some l.
Proof.
  intros Hinv Hroot. pose proof (inv_root _ _ _ _ Hinv) as Hr.
  destruct (branchsets s) as [|bset0 store] eqn:Hstore; [done|].
  split; [done|]. apply lookup_lt_is_Some.
  rewrite (inv_lev_len _ _ _ _ Hinv), Hstore. simpl. lia.
Qed.

Lemma sample_path_bounds s lev hi d lo fuel rnd l :
  unit_draws random → tree_inv s lev hi d → path_lower_bound s lev lo →
  root_branchset s ≠ None → lev !! 0%nat = Some l →
  (length (branchsets s) ≤ fuel)%nat →
  ∃ name path rnd',
    sample_path random fuel s rnd = Some (Ok (name, path), rnd')
    ∧ (1 ≤ length path ∧ lo l ≤ length path ≤ hi - l)%nat.
Proof.
  intros Hdraw Hinv Hlo Hroot Hl Hfuel.
  destruct (root_level _ _ _ _ Hinv Hroot) as [Hr _].
  destruct (sample_path_loop_bounds s lev hi d lo fuel 0 l [] rnd)
    as (path & rnd' & Hp & Hlen & bset & b & Hbset & Hb & Hhd); [done..|lia|].
  unfold sample_path. rewrite Hr, Hp. cbn. rewrite Hbset. cbn.
  destruct path as [|first path]; [done|]. simpl in Hhd. simplify_eq.
  destruct (get_branch_by_id_elem _ _ Hb) as (b' & Hg & _).
  rewrite Hg. cbn. eexists _, _, _. split; [done|]. done.
Qed.

Lemma iter_samples_bounds s lev hi d lo fuel n rnd l :
  unit_draws random → tree_inv s lev hi d → path_lower_bound s lev lo →
  root_branchset s ≠ None → lev !! 0%nat = Some l →
  (length (branchsets s) ≤ fuel)%nat →
  ∃ rlzs,
    iter_samples random fuel s n rnd = Some (Ok rlzs)
    ∧ length rlzs = n
    ∧ Forall (λ r, (1 ≤ length (lt_path r)
                    ∧ lo l ≤ length (lt_path r) ≤ hi - l)%nat
                   ∧ rlz_weight r = None) rlzs.
Proof.
  intros Hdraw Hinv Hlo Hroot Hl Hfuel. revert rnd.
  induction n as [|n IH]; intros rnd.
  - exists []. by split_and!.
  - cbn [iter_samples].
    destruct (sample_path_bounds s lev hi d lo fuel rnd l)
      as (name & path & rnd' & Hp & Hlen); [done..|].
    rewrite Hp. cbn. destruct (IH rnd') as (rlzs & Hr & Hn & HF).
    rewrite Hr. cbn. eexists. split_and!; [done|by simpl; rewrite Hn|].
    constructor; [by split|done].
Qed.

(** The sampling loop reads the tree, nothing else of the object. *)
Lemma iter_samples_same_tree {V'} s (s' : @BaseLogicTree F G V')
    fuel n rnd :
  branchsets s' = branchsets s →
  child_branchset s' = child_branchset s →
  root_branchset s' = root_branchset s →
  iter_samples random fuel s' n rnd = iter_samples random fuel s n rnd.
Proof.
  intros Hb Hc Hr. revert rnd. induction n as [|n IH]; intros rnd; [done|].
  cbn [iter_samples]. unfold sample_path. rewrite Hb, Hc, Hr.
  destruct (sample_path_loop _ _ _ _ _ _ _) as [[[ids|e] rnd']|]; cbn;
    [|done..].
  destruct (root_branchset s) as [root|]; [|done].
  destruct (branchsets s !! root) as [bset|]; [|done]. cbn.
  destruct ids as [|first ids]; [done|].
  destruct (get_branch_by_id _ _) as [b|]; [|done]. cbn.
  by rewrite IH.
Qed.

(** More fuel never changes a result. *)
Lemma sample_path_loop_fuel (store : list (@BranchSet F G)) child
    fuel fuel' bs ids rnd r :
  (fuel ≤ fuel')%nat →
  sample_path_loop random store child fuel bs ids rnd = Some r →
  sample_path_loop random store child fuel' bs ids rnd = Some r.
Proof.
  revert fuel' bs ids rnd. induction fuel as [|fuel IH];
    intros fuel' bs ids rnd Hle H.
  - destruct bs; [done|]. by destruct fuel'.
  - destruct bs as [i|]; [|by destruct fuel'].
    destruct fuel' as [|fuel']; [lia|].
    cbn [sample_path_loop] in *.
    destruct (store !! i) as [bset|]; [|done]. cbn -[sample] in *.
    destruct (sample random (branches bset) 1 rnd) as [[[|b [|]]|e] rnd'];
      try done.
    apply IH; [lia|done].
Qed.

Lemma sample_path_fuel s fuel fuel' rnd r :
  (fuel ≤ fuel')%nat →
  sample_path random fuel s rnd = Some r →
  sample_path random fuel' s rnd = Some r.
Proof.
  unfold sample_path. intros Hle H.
  destruct (sample_path_loop _ _ _ fuel _ _ _) as [r0|] eqn:Hl; [|done].
  by rewrite (sample_path_loop_fuel _ _ _ _ _ _ _ _ Hle Hl).
Qed.

Lemma iter_samples_fuel s fuel fuel' n rnd r :
  (fuel ≤ fuel')%nat →
  iter_samples random fuel s n rnd = Some r →
  iter_samples random fuel' s n rnd = Some r.
Proof.
  intros Hle. revert rnd r. induction n as [|n IH]; intros rnd r H; [done|].
  cbn [iter_samples] in *.
  destruct (sample_path random fuel s rnd) as [[p rnd']|] eqn:Hp; [|done].
  rewrite (sample_path_fuel _ _ _ _ _ Hle Hp). cbn in *.
  destruct p as [[name path]|e]; [|done].
  destruct (iter_samples random fuel s n rnd') as [rest|] eqn:Hr; [|done].
  by rewrite (IH _ _ Hr).
Qed.
End SampleWellFormed.

(** ** The claims about sampling *)

Lemma example_unit_draws : unit_draws Examples.random.
Proof.
  intros rnd. unfold Examples.random. simpl.
  pose proof (Z.mod_pos_bound rnd 1000 ltac:(lia)) as H.
  unfold Qle, Qlt. simpl. lia.
Qed.



(** C4. A draw at a branchset takes one number from the generator and
    selects the first branch, in declared order, at which the running sum
    of the weights is greater than or equal to it; [sample_path] then goes
    on from the child branchset of that branch, and stops at a branch
    without one. *)
Theorem sample_path_is_cumulative_walk {F G Rng : Type}
    (random : Rng → Q * Rng) (store : list (@BranchSet F G))
    (child : gmap string nat) :
  (∀ (bs : list (@Branch F G)) rnd,
     sample_one random bs rnd
     = (sample_one_from (Decimal.of_int 0) bs (random rnd).1, (random rnd).2))
  ∧ (∀ (bs : list (@Branch F G)) diceroll b,
       sample_one_from (Decimal.of_int 0) bs diceroll = Ok b
       ↔ ∃ k, first_reaching bs diceroll k b)
  ∧ (∀ fuel start ids rnd ids' rnd',
       sample_path_loop random store child fuel start ids rnd
         = Some (Ok ids', rnd') →
       ∃ path, ids' = ids ++ path
               ∧ cumulative_walk random store child rnd start path rnd')
  ∧ (∀ start rnd path rnd' ids,
       cumulative_walk random store child rnd start path rnd' →
       ∃ fuel, sample_path_loop random store child fuel start ids rnd
               = Some (Ok (ids ++ path), rnd')).
Proof.
  split_and!.
  - intros bs rnd. unfold sample_one. by destruct (random rnd).
  - intros bs diceroll b. apply sample_one_from_first_reaching.
  - induction fuel as [|fuel IH]; intros start ids rnd ids' rnd' H.
    + destruct start; [done|]. simpl in H. simplify_eq.
      exists []. split; [by rewrite app_nil_r | constructor].
    + destruct start as [r|].
      2:{ simpl in H. simplify_eq.
          exists []. split; [by rewrite app_nil_r | constructor]. }
      cbn [sample_path_loop] in H.
      destruct (store !! r) as [bset|] eqn:Hr; [|done]. cbn -[sample] in H.
      rewrite sample_1 in H.
      destruct (sample_one_from _ _ _) as [b|] eqn:Hb; [|done].
      apply IH in H as (path & -> & Hw).
      exists (branch_id b :: path). split; [by rewrite <- app_assoc|].
      apply sample_one_from_first_reaching in Hb as [k Hk].
      by eapply walk_step.
  - intros start rnd path rnd' ids Hw. revert ids.
    induction Hw as [rnd|rnd r bset k b path rnd' Hr Hk Hw IH]; intros ids.
    + exists 0%nat. simpl. by rewrite app_nil_r.
    + destruct (IH (ids ++ [branch_id b])) as [fuel Hf].
      exists (S fuel). cbn [sample_path_loop]. rewrite Hr. cbn -[sample].
      rewrite sample_1.
      assert (Hb : sample_one_from (Decimal.of_int 0) (branches bset)
                     (random rnd).1 = Ok b)
        by (apply sample_one_from_first_reaching; eauto).
      rewrite Hb, Hf. by rewrite <- app_assoc.
Qed.

(** C3. For a constructed tree, a seed and a number of samples N, the
    sampling iteration yields N paths, and every run on that tree with that
    seed and that N yields the same sequence of paths (the generator is
    made anew from the seed at each run, and the run reads nothing of the
    tree object but the tree). *)
Theorem sampling_is_deterministic {F G V Rng : Type} (hooks : @Hooks F G V)
    (random : Rng → Q * Rng) (Random : Z → Rng)
    (v : V) (content : list BranchingLevelNode) (basepath filename : string)
    (validate : bool) (seed0 n : Z) (self : @BaseLogicTree F G V) :
  apply_spec (apply_branchset hooks) →
  unit_draws random →
  init hooks v content basepath filename validate seed0 n = Ok self →
  n ≠ 0 →
  root_branchset self ≠ None →
  ∃ rlzs,
    length rlzs = Z.to_nat n
    ∧ Forall (λ r, rlz_weight r = None) rlzs
    ∧ (∀ fuel, (length (branchsets self) ≤ fuel)%nat →
         iter random Random fuel self = Some (Ok rlzs))
    ∧ (∀ V' (other : @BaseLogicTree F G V') fuel,
         branchsets other = branchsets self →
         child_branchset other = child_branchset self →
         root_branchset other = root_branchset self →
         seed other = seed0 → num_samples other = n →
         (length (branchsets self) ≤ fuel)%nat →
         iter random Random fuel other = Some (Ok rlzs)).
Proof.
  intros Happly Hdraw Hinit Hn Hroot.
  apply (init_well_formed hooks Happly) in Hinit as ([lev Hinv] & Hseed & Hnum).
  destruct (root_level self lev _ _ Hinv Hroot) as [_ [l Hl]].
  destruct (iter_samples_bounds random self lev (length content)
              (length content) (λ _, 1%nat)
              (length (branchsets self)) (Z.to_nat n) (Random seed0) l)
    as (rlzs & Hr & Hlen & HF); [done|done|by apply trivial_lower_bound
                                 |done..|].
  exists rlzs. split_and!.
  - done.
  - eapply Forall_impl; [done|]. by intros r [_ ?].
  - intros fuel Hfuel. unfold iter. rewrite Hnum, Hseed.
    rewrite decide_True by done.
    by eapply iter_samples_fuel.
  - intros V' other fuel Hb Hc Hrt Hs Hnm Hfuel. unfold iter.
    rewrite Hnm, Hs. rewrite decide_True by done.
    rewrite (iter_samples_same_tree random self other) by done.
    by eapply iter_samples_fuel.
Qed.

Lemma sampling_is_deterministic_witness :
  ∃ self,
    Examples.sm_new Examples.two_levels "base" "lt.xml" false 42 3 = Ok self
    ∧ root_branchset self ≠ None
    ∧ ∃ rlzs,
        length rlzs = Z.to_nat 3
        ∧ Forall (λ r, rlz_weight r = None) rlzs
        ∧ (∀ fuel, (length (branchsets self) ≤ fuel)%nat →
             iter Examples.random Examples.Random fuel self = Some (Ok rlzs))
        ∧ (∀ V' (other : @BaseLogicTree string string V') fuel,
             branchsets other = branchsets self →
             child_branchset other = child_branchset self →
             root_branchset other = root_branchset self →
             seed other = 42 → num_samples other = 3 →
             (length (branchsets self) ≤ fuel)%nat →
             iter Examples.random Examples.Random fuel other = Some (Ok rlzs)).
Proof.
  destruct (Examples.sm_new Examples.two_levels "base" "lt.xml" false 42 3)
    as [self|e] eqn:Hnew; [|by vm_compute in Hnew].
  exists self. split; [done|].
  assert (Hroot : root_branchset self ≠ None).
  { vm_compute in Hnew. by injection Hnew as <-. }
  split; [done|].
  apply (sampling_is_deterministic
           Examples.sm_hooks
           Examples.random Examples.Random (SourceModelLogicTree.mkAttrs ∅ ∅ ∅)
           Examples.two_levels "base" "lt.xml" false 42 3 self).
  - apply sm_apply_spec.
  - apply example_unit_draws.
  - exact Hnew.
  - lia.
  - exact Hroot.
Defined.

(** ** Uniform documents: every path runs through every level *)
Section Uniform.
Context {F G V : Type} (hooks : @Hooks F G V).
Implicit Types (s : @BaseLogicTree F G V) (b : @Branch F G).
Hypothesis Happly : apply_spec (apply_branchset hooks).

Lemma step_full d s s' node lev lev' new new' k :
  tree_inv s lev (S d) d → mid_inv s lev d new k →
  node_uniform hooks node →
  step_delta hooks node d s s' lev lev' new new' →
  open_ends s' = open_ends s →
  mid_inv s' lev' d new' (S k).
Proof.
  intros Hinv Hmid [Hskip Hall] [(_ & _ & _ & Hsk)|Hd] Hoe.
  { rewrite Hskip in Hsk. done. }
  destruct Hd as (bset & Hst & -> & -> & Hc & Hap).
  pose proof (inv_lev_len _ _ _ _ Hinv) as Hlen.
  assert (Hkeep : ∀ id, is_Some (child_branchset s !! id) →
                        is_Some (child_branchset s' !! id)).
  { intros id Hid. destruct (Hc id) as [->|[_ ->]]; eauto. }
  constructor.
  - intros i bs b l Hi Hb Hl Hlt. rewrite Hst in Hi.
    apply lookup_app_Some in Hl as [Hl|[_ Hl]].
    + apply Hkeep. eapply (mid_child _ _ _ _ _ Hmid); [|done..].
      apply lookup_lt_Some in Hl. rewrite Hlen in Hl.
      by rewrite lookup_app_l in Hi.
    + apply list_lookup_singleton_Some in Hl as [_ <-]. lia.
  - intros l Hl. destruct lev as [|l0 lev].
    + simpl in Hl. simplify_eq.
      destruct (decide (0 < l ∨ 0 < k)%nat) as [Hpos|Hz]; [|lia].
      apply (mid_store _ _ _ _ _ Hmid) in Hpos.
      simpl in Hlen. destruct (branchsets s); done.
    + simpl in Hl. simplify_eq. by apply (mid_root _ _ _ _ _ Hmid).
  - intros i bs b l Hi Hb Hl Heq. rewrite Hoe. rewrite Hst in Hi.
    apply lookup_app_Some in Hl as [Hl|[_ Hl]].
    + eapply (mid_open _ _ _ _ _ Hmid); [|done..].
      apply lookup_lt_Some in Hl. rewrite Hlen in Hl.
      by rewrite lookup_app_l in Hi.
    + apply list_lookup_singleton_Some in Hl as [_ <-]. lia.
  - intros _. rewrite Hst. by destruct (branchsets s).
  - intros _ id Hid. rewrite Hoe in Hid.
    destruct (root_branchset s) as [r|] eqn:Hr.
    + destruct Hap as (s3 & Hoe3 & Hap); [done|].
      rewrite <- Hoe3 in Hid. rewrite (Hall _ _ _ Hap _ Hid). eauto.
    + pose proof (inv_root _ _ _ _ Hinv) as Hroot. rewrite Hr in Hroot.
      destruct (branchsets s) eqn:Hstore; [|done].
      destruct (inv_open _ _ _ _ Hinv _ Hid) as (i & bs & b & l & Hi & _).
      rewrite Hstore in Hi. done.
  - intros i bs b Hi Hb Hl. rewrite Hst in Hi.
    rewrite elem_of_union, elem_of_list_to_set.
    apply lookup_app_Some in Hl as [Hl|[Hge Hl]].
    + left. eapply (mid_new _ _ _ _ _ Hmid); [|done..].
      apply lookup_lt_Some in Hl. rewrite Hlen in Hl.
      by rewrite lookup_app_l in Hi.
    + right. apply list_lookup_singleton_Some in Hl as [Hi0 _].
      assert (i = length (branchsets s)) as -> by lia.
      rewrite list_lookup_middle in Hi by done. simplify_eq.
      by apply list_elem_of_fmap_2.
Qed.

Lemma parse_level_loop_full d validate nodes s new s' new' lev k :
  parse_level_loop hooks d validate (s, new) nodes = Ok (s', new') →
  tree_inv s lev (S d) d → new_open_ok s lev d new →
  mid_inv s lev d new k →
  Forall (λ n, node_uniform hooks n.2) nodes →
  ∃ lev', tree_inv s' lev' (S d) d ∧ new_open_ok s' lev' d new'
          ∧ mid_inv s' lev' d new' (k + length nodes)
          ∧ open_ends s' = open_ends s ∧ same_params s s'.
Proof.
  revert s new lev k. induction nodes as [|[number node] nodes IH];
    intros s new lev k H Hinv Hnew Hmid Hall.
  - simpl in H. simplify_eq. exists lev.
    replace (k + length [])%nat with k by (simpl; lia). by split_and!.
  - cbn [parse_level_loop] in H.
    destruct (parse_level_branchset _ _ _ _ _) as [[s1 new1]|] eqn:H1;
      [|done].
    cbn in H. apply Forall_cons in Hall as [Hnode Hall].
    eapply parse_level_branchset_inv in H1
      as (lev1 & Hinv1 & Hnew1 & Hoe1 & Hdelta & Hp1); [|done..].
    pose proof (step_full _ _ _ _ _ _ _ _ _ Hinv Hmid Hnode Hdelta Hoe1)
      as Hmid1.
    eapply IH in H as (lev' & Hinv' & Hnew'' & Hmid' & Hoe' & Hp'); [|done..].
    exists lev'. simpl.
    replace (k + S (length nodes))%nat with (S k + length nodes)%nat by lia.
    split_and!; [done..|by rewrite Hoe'|].
    destruct Hp1, Hp'. split; congruence.
Qed.

Lemma parse_branchinglevel_full d validate level s s' lev :
  parse_branchinglevel hooks s level d validate = Ok s' →
  tree_inv s lev d d → full_inv s lev d →
  level ≠ [] → Forall (node_uniform hooks) level →
  ∃ lev', tree_inv s' lev' (S d) (S d) ∧ full_inv s' lev' (S d)
          ∧ same_params s s'.
Proof.
  unfold parse_branchinglevel. intros H Hinv Hfull Hne Hall.
  destruct (parse_level_loop _ _ _ _ _) as [[s1 new1]|] eqn:Hl; [|done].
  cbn in H. simplify_eq.
  eapply (parse_level_loop_full _ _ _ _ _ _ _ lev 0) in Hl
    as (lev' & Hinv' & Hnew & Hmid & Hoe & Hp).
  - exists lev'. split_and!; [| |done].
    + destruct Hinv' as [? ? ? ? ? ? ? ? ? ?]. constructor; try done.
      simpl. intros id Hid.
      destruct (Hnew _ Hid) as (i & bs & b & ? & ? & ? & ?).
      by exists i, bs, b, d.
    + assert (Hk : (0 < 0 + length (imap (λ number n, (number, n)) level))%nat).
      { rewrite length_imap. destruct level; [done|simpl; lia]. }
      constructor; simpl.
      * intros i bs b l Hi Hb Hlv Hlt.
        destruct (decide (S l < d)%nat).
        { by eapply (mid_child _ _ _ _ _ Hmid). }
        eapply (mid_applied _ _ _ _ _ Hmid); [done|].
        eapply (mid_open _ _ _ _ _ Hmid); [done..|lia].
      * apply (mid_root _ _ _ _ _ Hmid).
      * intros i bs b l Hi Hb Hlv Heq. simplify_eq.
        by eapply (mid_new _ _ _ _ _ Hmid).
      * intros _. apply (mid_store _ _ _ _ _ Hmid). by right.
  - eapply tree_inv_weaken; [|done]. lia.
  - intros id Hid. by apply elem_of_empty in Hid.
  - destruct Hfull as [Hc Hr Ho Hs]. constructor; try done.
    + intros [?|?]; [auto|lia].
    + lia.
    + intros i bs b Hi Hb Hlv.
      apply (inv_lev_bound _ _ _ _ Hinv) in Hlv. lia.
  - clear -Hall. apply Forall_forall. intros [number node] Hin.
    apply elem_of_lookup_imap in Hin as (i & n & Heq & Hi). simplify_eq.
    simpl. rewrite Forall_forall in Hall. apply Hall.
    by eapply list_elem_of_lookup_2.
Qed.

Lemma parse_levels_full validate levels d s s' lev :
  parse_levels hooks s levels d validate = Ok s' →
  tree_inv s lev d d → full_inv s lev d →
  uniform hooks levels →
  ∃ lev', tree_inv s' lev' (d + length levels) (d + length levels)
          ∧ full_inv s' lev' (d + length levels).
Proof.
  revert d s lev. induction levels as [|level levels IH];
    intros d s lev H Hinv Hfull Huni.
  - simpl in H. simplify_eq. exists lev. simpl.
    by replace (d + 0)%nat with d by lia.
  - cbn [parse_levels] in H.
    destruct (parse_branchinglevel _ _ _ _ _) as [s1|] eqn:H1; [|done].
    cbn in H. apply Forall_cons in Huni as [[Hne Hall] Huni].
    eapply parse_branchinglevel_full in H1 as (lev1 & Hinv1 & Hfull1 & _);
      [|done..].
    eapply IH in H as (lev' & Hinv' & Hfull'); [|done..].
    exists lev'. simpl. by replace (d + S (length levels))%nat
      with (S d + length levels)%nat by lia.
Qed.

Lemma init_full v content basepath filename validate seed0 n0 self :
  init hooks v content basepath filename validate seed0 n0 = Ok self →
  uniform hooks content →
  ∃ lev, tree_inv self lev (length content) (length content)
         ∧ full_inv self lev (length content).
Proof.
  unfold init. intros H Huni. apply parse_tree_levels in H.
  eapply parse_levels_full in H; [done|apply tree_inv_init| |done].
  constructor; simpl; try done. lia.
Qed.

Lemma full_lower_bound s lev hi :
  tree_inv s lev hi hi → full_inv s lev hi →
  path_lower_bound s lev (λ l, hi - l)%nat.
Proof.
  intros Hinv Hfull i bset b l Hi Hb Hl.
  destruct (child_branchset s !! branch_id b) as [j|] eqn:Hj; [lia|].
  destruct (decide (S l < hi)%nat) as [Hlt|]; [|lia].
  destruct (full_child _ _ _ Hfull _ _ _ _ Hi Hb Hl Hlt) as [j Hj'].
  congruence.
Qed.
End Uniform.

(** ** The iteration over a well-formed tree *)
Section IterWellFormed.
Context {F G V Rng : Type} (random : Rng → Q * Rng) (Random : Z → Rng).
Implicit Types (s : @BaseLogicTree F G V) (b : @Branch F G).

Lemma mapM_result_total {A B} (f : A → result B) (Q : B → Prop) l :
  (∀ x, x ∈ l → ∃ y, f x = Ok y ∧ Q y) →
  ∃ k, mapM f l = Ok k ∧ Forall Q k ∧ length k = length l.
Proof.
  induction l as [|x l IH]; intros H.
  - exists []. by split_and!.
  - destruct (H x) as (y & Hy & HQ); [apply list_elem_of_here|].
    destruct IH as (k & Hk & HQk & Hlen).
    { intros x' Hx'. apply H. by apply list_elem_of_further. }
    exists (y :: k). cbn. rewrite Hy. cbn. rewrite Hk. cbn.
    split_and!; [done| by constructor | by rewrite Hlen].
Qed.

Lemma _enumerate_paths_fuel (store : list (@BranchSet F G)) child
    fuel fuel' i prefix paths :
  (fuel ≤ fuel')%nat →
  _enumerate_paths store child fuel i prefix = Some paths →
  _enumerate_paths store child fuel' i prefix = Some paths.
Proof.
  revert fuel' i prefix paths. induction fuel as [|fuel IH];
    intros fuel' i prefix paths Hle H; [done|].
  destruct fuel' as [|fuel']; [lia|].
  cbn [_enumerate_paths] in *.
  destruct (store !! i) as [bset|]; [|done]. cbn in *.
  destruct (mapM _ (branches bset)) as [subpaths|] eqn:Hm; [|done].
  cbn in H. simplify_eq.
  apply mapM_Some in Hm.
  assert (Hm' : mapM (λ branch,
      match child !! branch_id branch with
      | Some c => _enumerate_paths store child fuel' c (branch :: prefix)
      | None => Some [branch :: prefix]
      end) (branches bset) = Some subpaths).
  { apply mapM_Some. eapply Forall2_impl; [done|]. simpl.
    intros b ps Hb. destruct (child !! branch_id b); [|done].
    apply IH; [lia|done]. }
  by rewrite Hm'.
Qed.

Lemma iter_fuel s fuel fuel' r :
  (fuel ≤ fuel')%nat →
  iter random Random fuel s = Some r → iter random Random fuel' s = Some r.
Proof.
  unfold iter. intros Hle H. case_decide.
  - by eapply iter_samples_fuel.
  - destruct (root_branchset s) as [root|]; [|done].
    unfold enumerate_paths in *.
    destruct (_enumerate_paths _ _ fuel _ _) as [paths|] eqn:Hp; [|done].
    by rewrite (_enumerate_paths_fuel _ _ _ _ _ _ _ Hle Hp).
Qed.

Lemma iter_bounds s lev hi d lo fuel l :
  unit_draws random → tree_inv s lev hi d → path_lower_bound s lev lo →
  root_branchset s ≠ None → lev !! 0%nat = Some l →
  (length (branchsets s) ≤ fuel)%nat →
  ∃ rlzs,
    iter random Random fuel s = Some (Ok rlzs)
    ∧ Forall (λ r, (1 ≤ length (lt_path r)
                    ∧ lo l ≤ length (lt_path r) ≤ hi - l)%nat) rlzs.
Proof.
  intros Hdraw Hinv Hlo Hroot Hl Hfuel. unfold iter. case_decide.
  - destruct (iter_samples_bounds random s lev hi d lo fuel
                (Z.to_nat (num_samples s)) (Random (seed s)) l)
      as (rlzs & Hr & _ & HF); [done..|].
    exists rlzs. split; [done|].
    eapply Forall_impl; [done|]. by intros r [? _].
  - destruct (root_level _ _ _ _ Hinv Hroot) as [-> _].
    destruct (enumerate_paths_bounds s lev hi d lo fuel 0 l [] Hinv Hlo Hl)
      as (paths & Hp & HF); [lia|].
    unfold enumerate_paths. rewrite Hp.
    destruct (mapM_result_total enumerated
      (λ r, (1 ≤ length (lt_path r)
             ∧ lo l ≤ length (lt_path r) ≤ hi - l)%nat)
      (map flatten_path paths)) as (rlzs & Hm & HQ & _).
    { intros [w p] Hin. apply list_elem_of_fmap in Hin as (p0 & Heq & Hin).
      rewrite Forall_forall in HF. specialize (HF _ Hin). simpl in HF.
      unfold flatten_path in Heq. simplify_eq.
      destruct (rev p0) as [|first rest] eqn:Hrev.
      - apply (f_equal length) in Hrev. rewrite length_rev in Hrev.
        simpl in Hrev. lia.
      - apply (f_equal length) in Hrev. rewrite length_rev in Hrev.
        simpl in Hrev. eexists. split; [done|].
        cbn [lt_path]. rewrite length_fmap. simpl. lia. }
    eexists. cbn. rewrite Hm. done.
Qed.
End IterWellFormed.

Lemma sm_uniform_two_levels :
  uniform Examples.sm_hooks Examples.two_levels.
Proof.
  repeat constructor; try done; simpl.
  - intros ref s s' H id Hid. injection H as <-. simpl.
    by apply base_apply_lookup.
  - intros ref s s' H id Hid. injection H as <-. simpl.
    by apply base_apply_lookup.
Qed.

(** ** The claim about the length of a path *)




(** ** Where a failure of the construction comes from *)
Section Failures.
Context {F G V : Type} (hooks : @Hooks F G V).
Implicit Types (s : @BaseLogicTree F G V) (e : exn).

Abbreviation engine_or_hook := (engine_or_hook hooks).

Lemma parse_branch_raise validate st node e :
  parse_branch hooks validate st node = Raise e → engine_or_hook e.
Proof.
  destruct st as [[ws s] bset]. unfold parse_branch. intros H.
  assert (Hv : ∀ s0, (if validate
            then v ← validate_uncertainty_value hooks (variant s) bset
                       (strip (uncertaintyModel node));
                 Ok (set_variant s v)
            else Ok s) = Raise e → engine_or_hook e).
  { intros _ Hv. destruct validate; [|done].
    destruct (validate_uncertainty_value _ _ _ _) eqn:Hvu; [done|].
    cbn in Hv. simplify_eq. right. unfold hook_raises. eauto 10. }
  destruct (if validate then _ else _) as [s1|e1] eqn:H1.
  2:{ cbn in H. simplify_eq. by apply (Hv s). }
  cbn in H.
  destruct (parse_uncertainty_value _ _ _ _) eqn:Hp.
  2:{ cbn in H. simplify_eq. right. unfold hook_raises. eauto 10. }
  cbn in H. case_decide; [|done]. simplify_eq. by left.
Qed.

Lemma parse_branch_loop_raise validate nodes st e :
  parse_branch_loop hooks validate st nodes = Raise e → engine_or_hook e.
Proof.
  revert st. induction nodes as [|n nodes IH]; intros st H; [done|].
  cbn [parse_branch_loop] in H.
  destruct (parse_branch _ _ _ _) eqn:H1.
  - cbn in H. by eapply IH.
  - cbn in H. simplify_eq. by eapply parse_branch_raise.
Qed.

Lemma parse_branches_raise validate s node bset e :
  parse_branches hooks s node bset validate = Raise e → engine_or_hook e.
Proof.
  unfold parse_branches. intros H.
  destruct (parse_branch_loop _ _ _ _) as [[[ws s1] b1]|] eqn:Hl.
  - cbn in H. destruct (Decimal.eq_one ws); [done|]. simplify_eq. by left.
  - cbn in H. simplify_eq. by eapply parse_branch_loop_raise.
Qed.

Lemma parse_branchset_raise validate s node depth number e :
  parse_branchset hooks s node depth number validate = Raise e →
  engine_or_hook e.
Proof.
  unfold parse_branchset. intros H. destruct validate; [|done].
  destruct (validate_filters _ _ _ _ _) eqn:Hv.
  - cbn in H. destruct (validate_branchset _ _ _ _ _ _) eqn:Hb; [done|].
    cbn in H. simplify_eq. right. unfold hook_raises. eauto 15.
  - cbn in H. simplify_eq. right. unfold hook_raises. eauto 15.
Qed.

Lemma parse_level_branchset_raise d validate st n e :
  parse_level_branchset hooks d validate st n = Raise e → engine_or_hook e.
Proof.
  destruct st as [s new], n as [number node].
  unfold parse_level_branchset. intros H.
  destruct (skip_branchset_condition _ _ _) as [[|]|] eqn:Hskip; cbn in H;
    [done| |].
  2:{ simplify_eq. right. unfold hook_raises. eauto 10. }
  destruct (parse_branchset _ _ _ _ _ _) as [[s1 bset0]|] eqn:Hbs.
  2:{ cbn in H. simplify_eq. by eapply parse_branchset_raise. }
  cbn in H.
  destruct (parse_branches _ _ _ _ _) as [[s2 bset]|] eqn:Hbr.
  2:{ cbn in H. simplify_eq. by eapply parse_branches_raise. }
  cbn in H.
  destruct (root_branchset _); [|done].
  destruct (apply_branchset _ _ _ _) eqn:Hap; [done|].
  cbn in H. simplify_eq. right. unfold hook_raises. eauto 15.
Qed.

Lemma parse_level_loop_raise d validate nodes st e :
  parse_level_loop hooks d validate st nodes = Raise e → engine_or_hook e.
Proof.
  revert st. induction nodes as [|n nodes IH]; intros st H; [done|].
  cbn [parse_level_loop] in H.
  destruct (parse_level_branchset _ _ _ _ _) eqn:H1.
  - cbn in H. by eapply IH.
  - cbn in H. simplify_eq. by eapply parse_level_branchset_raise.
Qed.

Lemma parse_levels_raise validate levels d s e :
  parse_levels hooks s levels d validate = Raise e → engine_or_hook e.
Proof.
  revert d s. induction levels as [|level levels IH]; intros d s H; [done|].
  cbn [parse_levels] in H.
  destruct (parse_branchinglevel _ _ _ _ _) eqn:H1.
  - cbn in H. by eapply IH.
  - cbn in H. simplify_eq. unfold parse_branchinglevel in H1.
    destruct (parse_level_loop _ _ _ _ _) as [[s1 new1]|] eqn:Hl; [done|].
    cbn in H1. simplify_eq. by eapply parse_level_loop_raise.
Qed.

Lemma init_raise v content basepath filename validate seed0 n0 e :
  init hooks v content basepath filename validate seed0 n0 = Raise e →
  engine_or_hook e.
Proof.
  unfold init, parse_tree. intros H.
  destruct (parse_levels _ _ _ _ _) eqn:Hl.
  - cbn in H. destruct validate; [|done].
    destruct (validate_tree _ _) eqn:Hv; [done|].
    cbn in H. simplify_eq. right. unfold hook_raises. eauto 15.
  - cbn in H. simplify_eq. by eapply parse_levels_raise.
Qed.

(** *** The ids of the store are the ids of the document *)
Hypothesis Happly : apply_spec (apply_branchset hooks).

Lemma parse_level_branchset_ids d validate s new number node s' new' :
  parse_level_branchset hooks d validate (s, new) (number, node)
    = Ok (s', new') →
  skip_branchset_condition hooks (variant s) (attrib node) = Ok false →
  branch_id <$> all_branches (branchsets s')
  = (branch_id <$> all_branches (branchsets s)) ++ node_ids node.
Proof.
  unfold parse_level_branchset. intros H Hskip. rewrite Hskip in H.
  cbn in H.
  destruct (parse_branchset _ _ _ _ _ _) as [[s1 bset0]|] eqn:Hbs; [|done].
  cbn in H. apply parse_branchset_spec in Hbs as [Hnil Hs1].
  destruct (parse_branches _ _ _ _ _) as [[s2 bset]|] eqn:Hbr; [|done].
  cbn in H.
  apply parse_branches_spec in Hbr as (Hids & _ & _ & _ & _ & _ & _ & Hs2);
    [|done].
  assert (Hst : branchsets s2 = branchsets s) by (by rewrite Hs2, Hs1).
  assert (Hs' : branchsets s' = branchsets s ++ [bset]).
  { destruct (root_branchset _).
    - destruct (apply_branchset _ _ _ _) as [s4|] eqn:Hap; [|done].
      cbn in H. simplify_eq. apply Happly in Hap as [-> _]. simpl.
      by rewrite Hst.
    - cbn in H. simplify_eq. simpl. by rewrite Hst. }
  rewrite Hs', all_branches_snoc, fmap_app. by rewrite Hids.
Qed.

Lemma parse_level_loop_ids d validate nodes s new s' new' :
  parse_level_loop hooks d validate (s, new) nodes = Ok (s', new') →
  Forall (λ n, ∀ v, skip_branchset_condition hooks v (attrib n.2) = Ok false)
    nodes →
  branch_id <$> all_branches (branchsets s')
  = (branch_id <$> all_branches (branchsets s)) ++ (nodes.*2 ≫= node_ids).
Proof.
  revert s new. induction nodes as [|[number node] nodes IH];
    intros s new H Hall.
  - simpl in H. simplify_eq. by rewrite app_nil_r.
  - cbn [parse_level_loop] in H.
    destruct (parse_level_branchset _ _ _ _ _) as [[s1 new1]|] eqn:H1;
      [|done].
    cbn in H. apply Forall_cons in Hall as [Hnode Hall].
    apply parse_level_branchset_ids in H1; [|apply Hnode].
    apply IH in H; [|done]. rewrite H, H1.
    csimpl. by rewrite app_assoc.
Qed.

Lemma parse_levels_ids validate levels d s s' :
  parse_levels hooks s levels d validate = Ok s' →
  no_skip hooks levels →
  branch_id <$> all_branches (branchsets s')
  = (branch_id <$> all_branches (branchsets s)) ++ doc_ids levels.
Proof.
  revert d s. induction levels as [|level levels IH]; intros d s H Hall.
  - simpl in H. simplify_eq. by rewrite app_nil_r.
  - cbn [parse_levels] in H.
    destruct (parse_branchinglevel _ _ _ _ _) as [s1|] eqn:H1; [|done].
    cbn in H. apply Forall_cons in Hall as [Hlevel Hall].
    apply IH in H; [|done]. rewrite H.
    unfold parse_branchinglevel in H1.
    destruct (parse_level_loop _ _ _ _ _) as [[s2 new2]|] eqn:Hl; [|done].
    cbn in H1. simplify_eq. simpl.
    apply parse_level_loop_ids in Hl.
    + rewrite Hl. rewrite <- app_assoc. do 2 f_equal.
      unfold level_ids. f_equal.
      clear. rewrite fmap_imap. simpl.
      induction level as [|x level IH] using rev_ind; [done|].
      rewrite imap_app. simpl. by rewrite IH.
    + apply Forall_forall. intros [number node] Hin.
      apply elem_of_lookup_imap in Hin as (i & n & Heq & Hi). simplify_eq.
      simpl. rewrite Forall_forall in Hlevel. apply Hlevel.
      by eapply list_elem_of_lookup_2.
Qed.

Lemma init_ids v content basepath filename validate seed0 n0 self :
  init hooks v content basepath filename validate seed0 n0 = Ok self →
  no_skip hooks content →
  branch_id <$> all_branches (branchsets self) = doc_ids content.
Proof.
  unfold init. intros H Hall. apply parse_tree_levels in H.
  by apply parse_levels_ids in H.
Qed.
End Failures.

(** ** Without validation *)
Section Unvalidated.
Context {F G V : Type} (hooks hooks' : @Hooks F G V).
Hypothesis Hsame : same_parsing hooks hooks'.

Lemma parse_branch_unvalidated st node :
  parse_branch hooks false st node = parse_branch hooks' false st node.
Proof.
  destruct Hsame as (_ & Hp & _ & _). destruct st as [[ws s] bset].
  unfold parse_branch. by rewrite Hp.
Qed.

Lemma parse_branch_loop_unvalidated nodes st :
  parse_branch_loop hooks false st nodes
  = parse_branch_loop hooks' false st nodes.
Proof.
  revert st. induction nodes as [|n nodes IH]; intros st; [done|].
  cbn [parse_branch_loop]. rewrite parse_branch_unvalidated.
  destruct (parse_branch hooks' false st n); [|done]. cbn. apply IH.
Qed.

Lemma parse_level_branchset_unvalidated d st n :
  parse_level_branchset hooks d false st n
  = parse_level_branchset hooks' d false st n.
Proof.
  destruct Hsame as (Hs & Hp & Hf & Ha). destruct st as [s new], n as [k node].
  unfold parse_level_branchset, parse_branchset, parse_branches.
  rewrite Hs, Hf, Ha.
  destruct (skip_branchset_condition hooks' _ _) as [[|]|]; [done| |done].
  cbn. by rewrite parse_branch_loop_unvalidated.
Qed.

Lemma parse_level_loop_unvalidated d nodes st :
  parse_level_loop hooks d false st nodes
  = parse_level_loop hooks' d false st nodes.
Proof.
  revert st. induction nodes as [|n nodes IH]; intros st; [done|].
  cbn [parse_level_loop]. rewrite parse_level_branchset_unvalidated.
  destruct (parse_level_branchset hooks' d false st n); [|done]. cbn.
  apply IH.
Qed.

Lemma parse_levels_unvalidated levels d s :
  parse_levels hooks s levels d false = parse_levels hooks' s levels d false.
Proof.
  revert d s. induction levels as [|level levels IH]; intros d s; [done|].
  cbn [parse_levels]. unfold parse_branchinglevel.
  rewrite parse_level_loop_unvalidated.
  destruct (parse_level_loop hooks' d false _ _) as [[s1 new1]|]; [|done].
  cbn. apply IH.
Qed.

Lemma init_unvalidated v content basepath filename seed0 n0 :
  init hooks v content basepath filename false seed0 n0
  = init hooks' v content basepath filename false seed0 n0.
Proof. unfold init, parse_tree. by rewrite parse_levels_unvalidated. Qed.
End Unvalidated.

(** ** The claims about branch ids and about validate=False *)

Lemma parse_branch_duplicate {F G V : Type} (hooks : @Hooks F G V)
    validate ws (s : @BaseLogicTree F G V) bset node :
  is_Some (tree_branches s !! branchID node) →
  ∃ e, parse_branch hooks validate (ws, s, bset) node = Raise e
       ∧ (e = ValidationError (BranchIdNotUnique (branchID node))
          ∨ hook_raises hooks e).
Proof.
  intros Hdup. unfold parse_branch.
  destruct validate.
  - destruct (validate_uncertainty_value _ _ _ _) as [v'|e] eqn:Hv; cbn.
    2:{ exists e. split; [done|]. right. unfold hook_raises. eauto 10. }
    destruct (parse_uncertainty_value _ _ _ _) as [val|e] eqn:Hp; cbn.
    2:{ exists e. split; [done|]. right. unfold hook_raises. eauto 10. }
    rewrite decide_True by done. eauto.
  - cbn.
    destruct (parse_uncertainty_value _ _ _ _) as [val|e] eqn:Hp; cbn.
    2:{ exists e. split; [done|]. right. unfold hook_raises. eauto 10. }
    rewrite decide_True by done. eauto.
Qed.


Lemma sm_no_skip content : no_skip Examples.sm_hooks content.
Proof.
  apply Forall_forall. intros level _. apply Forall_forall. by intros node _.
Qed.


(** The duplicate on the second level of the example is reported as such,
    with and without validation. *)
Example duplicate_id_raises :
  Examples.sm_new Examples.duplicate_id "base" "lt.xml" true 0 0
    = Raise (ValidationError (BranchIdNotUnique "A"))
  ∧ Examples.sm_new Examples.duplicate_id "base" "lt.xml" false 0 0
    = Raise (ValidationError (BranchIdNotUnique "A")).
Proof. split; vm_compute; reflexivity. Qed.



(** The placement check is skipped without validation, the two checks of
    [parse_branches] are not. *)
Example unvalidated_examples :
  Examples.sm_new Examples.misplaced "base" "lt.xml" true 0 0
    = Raise (ValidationError FirstMustBeSourceModel)
  ∧ is_ok (Examples.sm_new Examples.misplaced "base" "lt.xml" false 0 0)
  ∧ Examples.sm_new Examples.short_weights "base" "lt.xml" false 0 0
    = Raise (ValidationError WeightsDontSumUp)
  ∧ Examples.sm_new Examples.duplicate_id "base" "lt.xml" false 0 0
    = Raise (ValidationError (BranchIdNotUnique "A")).
Proof.
  split_and!; try (vm_compute; reflexivity).
  eexists. vm_compute. reflexivity.
Qed.

(** ** GMPELogicTree: the region types that get defined *)
Section GMPE.
Context {F G : Type} (GSIM : gmap string G).
Abbreviation gmpe := (@GMPELogicTree.hooks F G GSIM).
Abbreviation TRT := ("applyToTectonicRegionType"%string).
Abbreviation known s :=
  (GMPELogicTree.tectonic_region_types (variant s)).
Abbreviation defined s :=
  (GMPELogicTree.defined_tectonic_region_types (variant s)).
Implicit Types (s : @BaseLogicTree F G GMPELogicTree.attrs).

Lemma gmpe_parse_branch_loop_variant validate nodes ws s bset ws' s' bset' :
  parse_branch_loop gmpe validate (ws, s, bset) nodes = Ok (ws', s', bset') →
  variant s' = variant s.
Proof.
  revert ws s bset. induction nodes as [|n nodes IH]; intros ws s bset H.
  - simpl in H. by simplify_eq.
  - cbn [parse_branch_loop] in H.
    destruct (parse_branch gmpe validate (ws, s, bset) n)
      as [[[ws1 s1] bset1]|] eqn:Hn; [|done].
    cbn in H. apply IH in H. rewrite H. clear H IH.
    unfold parse_branch in Hn. simpl in Hn.
    unfold GMPELogicTree.validate_uncertainty_value,
      GMPELogicTree.parse_uncertainty_value in Hn.
    destruct validate.
    + destruct (GSIM !! _); [|done]. cbn in Hn.
      case_decide; [done|]. by simplify_eq.
    + cbn in Hn. destruct (GSIM !! _); [|done]. cbn in Hn.
      case_decide; [done|]. by simplify_eq.
Qed.

Lemma gmpe_step d s new number node s' new' :
  parse_level_branchset gmpe d true (s, new) (number, node) = Ok (s', new') →
  known s' = known s
  ∧ ∃ trt, attrib node !! TRT = Some trt
           ∧ defined s' = defined s ∪ (known s ∩ {[ trt ]}).
Proof.
  unfold parse_level_branchset. intros H.
  change (skip_branchset_condition gmpe (variant s) (attrib node))
    with (GMPELogicTree.skip_branchset_condition (variant s) (attrib node))
    in H.
  unfold GMPELogicTree.skip_branchset_condition in H.
  destruct (attrib node !! TRT) as [trt|] eqn:Htrt; [|done].
  cbn -[parse_branchset parse_branches] in H. case_bool_decide as Hk.
  { simplify_eq. split; [done|]. exists trt. split; [done|]. set_solver. }
  destruct (parse_branchset _ _ _ _ _ _) as [[s1 bset0]|] eqn:Hbs; [|done].
  cbn in H.
  destruct (parse_branches _ _ _ _ _) as [[s2 bset]|] eqn:Hbr; [|done].
  cbn in H.
  assert (Hv1 : known s1 = known s ∧ defined s1 = {[ trt ]} ∪ defined s).
  { unfold parse_branchset in Hbs. simpl in Hbs.
    unfold GMPELogicTree.validate_filters in Hbs.
    assert (Hf : filter (λ kv, kv.1 ∈ FILTERS) (attrib node) !! TRT
                 = Some trt).
    { apply map_lookup_filter_Some. split; [done|]. simpl.
      unfold FILTERS. apply list_elem_of_here. }
    rewrite Hf in Hbs. repeat case_decide; try done. cbn in Hbs.
    destruct (GMPELogicTree.validate_branchset _ _ _ _ _); [|done].
    cbn in Hbs. by simplify_eq. }
  assert (Hv2 : variant s2 = variant s1).
  { unfold parse_branches in Hbr.
    destruct (parse_branch_loop _ _ _ _) as [[[ws3 s3] b3]|] eqn:Hl; [|done].
    cbn in Hbr. destruct (Decimal.eq_one ws3); [|done]. simplify_eq.
    by eapply gmpe_parse_branch_loop_variant. }
  assert (Hv3 : variant s' = variant s2).
  { destruct (root_branchset _); cbn in H; by simplify_eq. }
  rewrite Hv3, Hv2. destruct Hv1 as [-> ->]. split; [done|].
  exists trt. split; [done|]. set_solver.
Qed.

Lemma gmpe_level_loop d nodes s new s' new' :
  parse_level_loop gmpe d true (s, new) nodes = Ok (s', new') →
  known s' = known s
  ∧ defined s' = defined s ∪ (known s ∩ nodes_trts nodes.*2).
Proof.
  revert s new. induction nodes as [|[number node] nodes IH]; intros s new H.
  - simpl in H. simplify_eq. split; [done|]. unfold nodes_trts. set_solver.
  - cbn [parse_level_loop] in H.
    destruct (parse_level_branchset _ _ _ _ _) as [[s1 new1]|] eqn:H1;
      [|done].
    cbn in H. apply gmpe_step in H1 as (Hk1 & trt & Htrt & Hd1).
    apply IH in H as [Hk Hd]. split; [congruence|].
    rewrite Hd, Hd1, Hk1. unfold nodes_trts. csimpl. rewrite Htrt.
    set_solver.
Qed.

Lemma gmpe_levels levels d s s' :
  parse_levels gmpe s levels d true = Ok s' →
  known s' = known s
  ∧ defined s' = defined s ∪ (known s ∩ doc_trts levels).
Proof.
  revert d s. induction levels as [|level levels IH]; intros d s H.
  - simpl in H. simplify_eq. split; [done|]. unfold doc_trts. set_solver.
  - cbn [parse_levels] in H.
    destruct (parse_branchinglevel _ _ _ _ _) as [s1|] eqn:H1; [|done].
    cbn in H. apply IH in H as [Hk Hd].
    unfold parse_branchinglevel in H1.
    destruct (parse_level_loop _ _ _ _ _) as [[s2 new2]|] eqn:Hl; [|done].
    cbn in H1. simplify_eq. simpl in *.
    apply gmpe_level_loop in Hl as [Hk2 Hd2].
    split; [congruence|]. rewrite Hd, Hd2, Hk2.
    assert (Hlev : (imap (λ number n, (number, n)) level).*2 = level).
    { clear. rewrite fmap_imap. simpl.
      induction level as [|x level IH] using rev_ind; [done|].
      rewrite imap_app. simpl. by rewrite IH. }
    rewrite Hlev. unfold doc_trts, nodes_trts. simpl.
    rewrite omap_app, list_to_set_app_L. set_solver.
Qed.

Lemma sorted_strings_elem (X : gset string) t :
  t ∈ GMPELogicTree.sorted_strings X ↔ t ∈ X.
Proof.
  unfold GMPELogicTree.sorted_strings.
  rewrite merge_sort_Permutation. apply elem_of_elements.
Qed.
End GMPE.

(** ** The claim about coverage of the region types *)

(** C7. A validated GMPE tree is constructed only if every known region
    type has a branchset in the document; when the branching levels parse
    and validate, the construction returns the tree if they cover every
    known type, and otherwise raises the whole-tree ValidationError, whose
    message lists exactly the known types without a branchset, sorted. *)
Theorem gmpe_tree_covers_region_types {F G : Type} (GSIM : gmap string G)
    (tectonic_region_types : gset string)
    (content : list BranchingLevelNode) (basepath filename : string)
    (seed0 n0 : Z) :
  (∀ self : @BaseLogicTree F G GMPELogicTree.attrs,
     @GMPELogicTree.new F G GSIM tectonic_region_types content basepath filename
       true seed0 n0 = Ok self →
     tectonic_region_types ⊆ doc_trts content
     ∧ GMPELogicTree.defined_tectonic_region_types (variant self)
       = tectonic_region_types)
  ∧ (∀ self,
       parse_levels (@GMPELogicTree.hooks F G GSIM)
         (mkTree basepath filename seed0 n0 ∅ ∅ None [] ∅
            (GMPELogicTree.mkAttrs tectonic_region_types ∅))
         content 0 true = Ok self →
       (tectonic_region_types ⊆ doc_trts content →
        @GMPELogicTree.new F G GSIM tectonic_region_types content basepath
          filename true seed0 n0 = Ok self)
       ∧ (¬ tectonic_region_types ⊆ doc_trts content →
          ∃ missing,
            @GMPELogicTree.new F G GSIM tectonic_region_types content basepath
              filename true seed0 n0
            = Raise (ValidationError (MissingTrts missing))
            ∧ missing ≠ []
            ∧ ∀ t, t ∈ missing
                   ↔ t ∈ tectonic_region_types ∧ t ∉ doc_trts content)).
Proof.
  assert (Hnew : ∀ self,
    parse_levels (@GMPELogicTree.hooks F G GSIM)
      (mkTree basepath filename seed0 n0 ∅ ∅ None [] ∅
         (GMPELogicTree.mkAttrs tectonic_region_types ∅))
      content 0 true = Ok self →
    GMPELogicTree.tectonic_region_types (variant self) ∖
      GMPELogicTree.defined_tectonic_region_types (variant self)
    = tectonic_region_types ∖ doc_trts content
    ∧ GMPELogicTree.defined_tectonic_region_types (variant self)
      = tectonic_region_types ∩ doc_trts content).
  { intros self Hl. apply gmpe_levels in Hl as [Hk Hd]. simpl in *.
    rewrite Hk, Hd. split; set_solver. }
  split.
  - intros self H. unfold GMPELogicTree.new, init, parse_tree in H.
    destruct (parse_levels _ _ _ _ _) as [s|] eqn:Hl; [|done].
    cbn in H. destruct (Hnew _ eq_refl) as [Hm Hd].
    unfold GMPELogicTree.validate_tree in H. rewrite Hm in H.
    case_decide as Hmiss; [done|]. cbn in H. simplify_eq.
    assert (tectonic_region_types ⊆ doc_trts content) by set_solver.
    split; [done|]. rewrite Hd. set_solver.
  - intros self Hl. destruct (Hnew _ Hl) as [Hm Hd].
    unfold GMPELogicTree.new, init, parse_tree. rewrite Hl. cbn.
    unfold GMPELogicTree.validate_tree. rewrite Hm. split.
    + intros Hsub. rewrite decide_False; [done|]. set_solver.
    + intros Hsub. rewrite decide_True.
      2:{ intros Hempty. apply Hsub. set_solver. }
      cbn. eexists. split; [done|]. split.
      * intros Hnil.
        assert (Hall : ∀ t, t ∉ tectonic_region_types ∖ doc_trts content).
        { intros t Ht. apply sorted_strings_elem in Ht. rewrite Hnil in Ht.
          by apply elem_of_nil in Ht. }
        apply Hsub. intros t Ht.
        destruct (decide (t ∈ doc_trts content)); [done|].
        exfalso. apply (Hall t). set_solver.
      * intros t. rewrite sorted_strings_elem. set_solver.
Qed.

(** The scenario of the specification: a document without a branchset for
    a region type of the source models is rejected by name; with it, the
    tree is constructed. *)
Example gmpe_missing_region :
  Examples.gmpe_new Examples.two_region_types Examples.gmpe_one_region
    "base" "gmpe.xml" true 0 0
  = Raise (ValidationError (MissingTrts ["Stable Continental Crust"%string]))
  ∧ is_ok (Examples.gmpe_new Examples.two_region_types
             Examples.gmpe_two_regions "base" "gmpe.xml" true 0 0).
Proof.
  split; [vm_compute; reflexivity|]. eexists. vm_compute. reflexivity.
Qed.

(** ** sorted, groupby and product *)
Section SortedFacts.
Context {A : Type} (lt : A → A → bool).

Lemma ascending_tail (x : A) l :
  GsimSpec.ascending lt (x :: l) → GsimSpec.ascending lt l.
Proof. intros H i a b Ha Hb. by apply (H (S i) a b). Qed.

Lemma run_ascending_all prev l n :
  GsimSpec.ascending lt (prev :: l) →
  run_ascending lt prev l n = (n + length l)%nat.
Proof.
  revert prev n. induction l as [|x l IH]; intros prev n Hasc; simpl.
  - lia.
  - rewrite (Hasc 0%nat prev x) by done.
    rewrite IH by (by eapply ascending_tail). lia.
Qed.

Lemma sorted_ascending l : GsimSpec.ascending lt l → sorted lt l = l.
Proof.
  intros Hasc. unfold sorted, count_run.
  destruct l as [|x [|y l]]; [done..|].
  rewrite (Hasc 0%nat x y) by done.
  rewrite run_ascending_all by (by eapply ascending_tail).
  rewrite take_ge, drop_ge by (simpl; lia). done.
Qed.

Lemma binary_insert_Permutation pre pivot :
  binary_insert lt pre pivot ≡ₚ pivot :: pre.
Proof.
  unfold binary_insert.
  rewrite <- Permutation_middle. by rewrite take_drop.
Qed.

Lemma fold_binary_insert_Permutation l run :
  fold_left (binary_insert lt) l run ≡ₚ run ++ l.
Proof.
  revert run. induction l as [|x l IH]; intros run; simpl.
  - by rewrite app_nil_r.
  - rewrite IH, binary_insert_Permutation.
    by rewrite <- Permutation_middle.
Qed.

Lemma sorted_Permutation l : sorted lt l ≡ₚ l.
Proof.
  unfold sorted. destruct (count_run lt l) as [n descending].
  rewrite fold_binary_insert_Permutation.
  destruct descending.
  - by rewrite reverse_Permutation, take_drop.
  - by rewrite take_drop.
Qed.
End SortedFacts.

Section GroupbyFacts.
Context {A K : Type} `{EqDecision K} (key : A → K).

Lemma groupby_concat l : concat (groupby key l) = l.
Proof.
  induction l as [|x l IH]; [done|]. simpl.
  destruct (groupby key l) as [|[|y g] gs] eqn:Hg; simpl in *.
  - by rewrite <- IH.
  - by rewrite <- IH.
  - case_decide; simpl; by rewrite <- IH.
Qed.

(** Every group is non-empty and has one key. *)
Lemma groupby_groups l :
  Forall (λ g, g ≠ [] ∧ ∀ x y, x ∈ g → y ∈ g → key x = key y)
    (groupby key l).
Proof.
  induction l as [|x l IH]; [constructor|]. simpl.
  destruct (groupby key l) as [|[|y g] gs] eqn:Hg.
  - repeat constructor; [done|]. intros a b Ha Hb.
    apply list_elem_of_singleton in Ha, Hb. by subst.
  - apply Forall_cons in IH as [[Hne _] _]. done.
  - apply Forall_cons in IH as [[_ Hk] IH]. case_decide as Hxy.
    + constructor; [|done]. split; [done|].
      assert (Hx : ∀ a, a ∈ x :: y :: g → key a = key y).
      { intros a Ha. apply elem_of_cons in Ha as [->|Ha]; [done|].
        apply Hk; [done | apply list_elem_of_here]. }
      intros a b Ha Hb. by rewrite (Hx a), (Hx b).
    + constructor; [|constructor; [|done]].
      * split; [done|]. intros a b Ha Hb.
        apply list_elem_of_singleton in Ha, Hb. by subst.
      * done.
Qed.

Lemma groupby_one_group x g rest gs :
  groupby key rest = gs →
  (∀ y, y ∈ g → key y = key x) →
  (∀ h hs, gs = h :: hs → h ≠ [] ∧ ∀ y, y ∈ h → key y ≠ key x) →
  groupby key ((x :: g) ++ rest) = (x :: g) :: gs.
Proof.
  intros Hrest. revert x. induction g as [|y g IH]; intros x Hg Hnext.
  - simpl. rewrite Hrest. destruct gs as [|[|z h] hs]; [done| |].
    + by destruct (Hnext _ _ eq_refl).
    + rewrite decide_False; [done|].
      intros Heq. destruct (Hnext _ _ eq_refl) as [_ Hz].
      apply (Hz z); [apply list_elem_of_here|done].
  - assert (Hy : key y = key x) by (apply Hg; apply list_elem_of_here).
    change (groupby key ((x :: y :: g) ++ rest))
      with (match groupby key ((y :: g) ++ rest) with
            | (y' :: g') :: gs' =>
                if decide (key x = key y') then (x :: y' :: g') :: gs'
                else [x] :: (y' :: g') :: gs'
            | gs' => [x] :: gs'
            end).
    rewrite (IH y).
    + by rewrite decide_True.
    + intros z Hz. rewrite Hy. apply Hg. by apply list_elem_of_further.
    + intros h hs Hgs. rewrite Hy. by apply (Hnext h hs).
Qed.

(** Groups with one key each, neighbours with different keys, come back
    as they are. *)
Lemma groupby_grouped gs : grouped key gs → groupby key (concat gs) = gs.
Proof.
  induction 1 as [|x g gs Hg Hnext Hne Hgs IH]; [done|].
  simpl. apply groupby_one_group; [done..|].
  intros h hs ->. apply Forall_cons in Hne as [? _]. split; [done|].
  by apply (Hnext h hs).
Qed.
End GroupbyFacts.

Lemma product_length {A} (groups : list (list A)) :
  length (product groups) = foldr Nat.mul 1%nat (length <$> groups).
Proof.
  induction groups as [|g groups IH]; [done|].
  rewrite fmap_cons. cbn [foldr product]. rewrite <- IH. clear IH.
  induction g as [|x g IHg]; [done|].
  rewrite bind_cons, length_app, length_fmap, IHg. simpl. lia.
Qed.

Lemma product_elem {A} (groups : list (list A)) combo :
  combo ∈ product groups → Forall2 (λ x g, x ∈ g) combo groups.
Proof.
  revert combo. induction groups as [|g groups IH]; intros combo H.
  - apply list_elem_of_singleton in H as ->. constructor.
  - simpl in H. apply list_elem_of_bind in H as (x & Hc & Hx).
    apply list_elem_of_fmap in Hc as (c & -> & Hc).
    constructor; [done | by apply IH].
Qed.

Lemma mapM_result_fmap {A B} (f : A → result B) (g : A → B) l :
  (∀ x, x ∈ l → f x = Ok (g x)) → mapM f l = Ok (g <$> l).
Proof.
  induction l as [|x l IH]; intros H; [done|].
  cbn. rewrite H by apply list_elem_of_here. cbn.
  rewrite IH; [done|]. intros y Hy. apply H. by apply list_elem_of_further.
Qed.

(** ** GsimLogicTree: what [_parse_lt] yields *)
Section GsimParse.
Import GsimLogicTree GsimSpec.
Context (f : string) (keys : list string).

Lemma gsim_parse_branches_acc (k : string) node (l : list BranchNode) out
    (vs : gmap string (list string)) :
  fold_left (λ '(out, values) branch,
      let weight := uncertaintyWeight branch in
      let branch_id := branchID branch in
      let uncertainty := strip (uncertaintyModel branch) in
      (out ++ [mkBranchTuple node branch_id uncertainty weight],
       <[k := default [] (values !! k) ++ [uncertainty]]> values))
    l (out, vs)
  = (out ++ ((λ branch, mkBranchTuple node (branchID branch)
                          (strip (uncertaintyModel branch))
                          (uncertaintyWeight branch)) <$> l),
     foldl (λ vs branch,
              <[k := default [] (vs !! k)
                     ++ [strip (uncertaintyModel branch)]]> vs) vs l).
Proof.
  revert out vs. induction l as [|b l IH]; intros out vs.
  - simpl. by rewrite app_nil_r.
  - simpl. rewrite IH. by rewrite <- app_assoc.
Qed.

Lemma gsim_values_after (k : string) (l : list BranchNode)
    (vs : gmap string (list string)) k' :
  default [] (foldl (λ vs branch,
      <[k := default [] (vs !! k) ++ [strip (uncertaintyModel branch)]]> vs)
    vs l !! k')
  = default [] (vs !! k')
    ++ (if decide (k' = k)
        then (λ branch, strip (uncertaintyModel branch)) <$> l else []).
Proof.
  revert vs. induction l as [|b l IH]; intros vs.
  - simpl. case_decide; by rewrite app_nil_r.
  - simpl. rewrite IH. case_decide as Hk.
    + subst. rewrite lookup_insert_eq. simpl. by rewrite <- app_assoc.
    + rewrite lookup_insert_ne by done. done.
Qed.

Lemma gsim_parse_branches_spec k node values :
  parse_branches k node values
  = (tuples node,
     foldl (λ vs branch,
              <[k := default [] (vs !! k)
                     ++ [strip (uncertaintyModel branch)]]> vs)
       values (nodes node)).
Proof. unfold parse_branches. by rewrite gsim_parse_branches_acc. Qed.

Lemma selected_snoc pre level :
  selected f keys (pre ++ [level])
  = selected f keys pre ++ filter (λ node, is_selected f keys node) level.
Proof.
  unfold selected. rewrite concat_app, filter_app. simpl.
  by rewrite app_nil_r.
Qed.

Lemma doc_groups_snoc pre level :
  concat (doc_groups f keys (pre ++ [level]))
  = concat (doc_groups f keys pre)
    ++ concat (tuples <$> filter (λ node, is_selected f keys node) level).
Proof.
  unfold doc_groups. by rewrite selected_snoc, fmap_app, concat_app.
Qed.

Lemma elem_of_tuples b node : b ∈ tuples node → bset b = node.
Proof.
  unfold tuples. intros H. by apply list_elem_of_fmap in H as (br & -> & _).
Qed.

Lemma parse_level_parsed pre st level st' :
  parsed f keys pre st →
  parse_level f keys st level = Ok st' →
  parsed f keys (pre ++ [level]) st'.
Proof.
  intros (Hfk & Hout & Hne & Hval) H. unfold parse_level in H.
  case_decide as Hlen; [done|].
  destruct level as [|node [|]]; [| |simpl in Hlen; lia].
  { simpl in H. simplify_eq. unfold parsed.
    rewrite doc_groups_snoc, selected_snoc, (concat_app pre). simpl.
    rewrite !app_nil_r. done. }
  destruct st as [[fkeys out] values]. simpl in Hfk, Hout, Hval.
  cbn in H. case_decide as Hut; [done|].
  assert (Hc : concat (pre ++ [[node]]) = concat pre ++ [node])
    by (by rewrite concat_app).
  unfold parsed. rewrite doc_groups_snoc, selected_snoc, Hc, omap_app.
  rewrite filter_cons, filter_nil. cbn [omap list_omap fst snd].
  unfold truthy at 2, is_selected.
  destruct (attrib node !! f) as [k|] eqn:Hk.
  - assert (Hfk' : (if decide (k = ""%string) then fkeys else fkeys ++ [k])
                   = omap (truthy f) (concat pre)
                     ++ match (if decide (k = ""%string)
                               then None else Some k) with
                        | Some y => [y]
                        | None => []
                        end).
    { rewrite Hfk. destruct (decide (k = ""%string)); by rewrite ?app_nil_r. }
    rewrite Hfk' in H. clear Hfk'.
    destruct (decide (k ∈ keys)) as [Hin|Hin].
    + rewrite gsim_parse_branches_spec in H.
      destruct (Decimal.eq_one _) eqn:Hone; [|done]. simplify_eq.
      destruct (decide (bool_decide (k ∈ keys))) as [_|Hn];
        [|by destruct Hn; apply bool_decide_pack].
      cbn [fst snd fmap list_fmap concat]. rewrite app_nil_r.
      split_and!; [done|done| |].
      * apply Forall_app. split; [done|]. constructor; [|constructor].
        intros Hnil. unfold tuples in Hone. rewrite Hnil in Hone.
        by vm_compute in Hone.
      * intros b Hb. rewrite gsim_values_after.
        apply elem_of_app in Hb as [Hb|Hb].
        -- apply elem_of_app. left. by apply Hval.
        -- apply elem_of_app. right.
           assert (fkey f b = k) as ->.
           { unfold fkey. rewrite (elem_of_tuples _ _ Hb), Hk. done. }
           rewrite decide_True by done.
           unfold tuples in Hb.
           apply list_elem_of_fmap in Hb as (br & -> & Hbr). simpl.
           by apply (list_elem_of_fmap_2
                       (λ branch, strip (uncertaintyModel branch))).
    + simplify_eq.
      destruct (decide (bool_decide (k ∈ keys))) as [Hy|_];
        [by apply bool_decide_unpack in Hy|].
      cbn [fst snd fmap list_fmap concat]. rewrite !app_nil_r.
      split_and!; done.
  - simplify_eq. destruct (decide false) as [Hy|_]; [done|].
    cbn [fst snd fmap list_fmap concat]. rewrite !app_nil_r.
    split_and!; done.
Qed.

Lemma foldl_parse_level_raise levels e :
  foldl (λ st branching_level,
           st ← st; parse_level f keys st branching_level)
    (Raise e) levels = Raise e.
Proof. induction levels as [|l levels IH]; [done|]. simpl. apply IH. Qed.

Lemma foldl_parse_level_parsed levels pre st st' :
  parsed f keys pre st →
  foldl (λ st branching_level,
           st ← st; parse_level f keys st branching_level)
    (Ok st) levels = Ok st' →
  parsed f keys (pre ++ levels) st'.
Proof.
  revert pre st. induction levels as [|l levels IH]; intros pre st Hp H.
  - simpl in H. simplify_eq. by rewrite app_nil_r.
  - simpl in H. cbn in H.
    destruct (parse_level f keys st l) as [st1|e] eqn:Hl.
    + replace (pre ++ l :: levels) with ((pre ++ [l]) ++ levels)
        by (by rewrite <- app_assoc).
      eapply IH; [|done]. by eapply parse_level_parsed.
    + by rewrite foldl_parse_level_raise in H.
Qed.

Lemma _parse_lt_parsed logicTree out values :
  _parse_lt f keys logicTree = Ok (out, values) →
  ∃ fkeys, parsed f keys logicTree (fkeys, out, values) ∧ NoDup fkeys.
Proof.
  unfold _parse_lt. intros H.
  destruct (foldl _ _ logicTree) as [[[fkeys out'] values']|] eqn:Hf; [|done].
  cbn in H. case_decide; [|done]. simplify_eq.
  exists fkeys. split; [|done].
  apply (foldl_parse_level_parsed logicTree [] ([], [], ∅)); [|done].
  unfold parsed, doc_groups, selected. simpl. split_and!; try done.
  intros b Hb. by apply elem_of_nil in Hb.
Qed.

(** Without the empty text among the filter keys, the selected nodes have
    pairwise different filter values. *)
Lemma selected_NoDup logicTree :
  ""%string ∉ keys →
  NoDup (omap (truthy f) (concat logicTree)) →
  NoDup (selected f keys logicTree).
Proof.
  intros Hempty Hnd.
  assert (Hsub : omap (truthy f) (selected f keys logicTree)
                 `sublist_of` omap (truthy f) (concat logicTree)).
  { unfold selected. generalize (concat logicTree). intros l.
    induction l as [|x l IH]; [done|]. rewrite filter_cons.
    case_decide; csimpl; destruct (truthy f x);
      auto using sublist_skip, sublist_cons. }
  apply (sublist_NoDup _ _ Hnd) in Hsub.
  assert (Hall : ∀ node, node ∈ selected f keys logicTree →
                         is_Some (truthy f node)).
  { intros node Hn. unfold selected in Hn.
    apply list_elem_of_filter in Hn as [Hs _]. unfold is_selected in Hs.
    unfold truthy. destruct (attrib node !! f) as [k|]; [|done].
    apply bool_decide_unpack in Hs. case_decide; [by subst|eauto]. }
  revert Hsub Hall. generalize (selected f keys logicTree). intros l.
  induction l as [|x l IH]; intros Hsub Hall; [constructor|].
  destruct (Hall x) as [k Hk]; [apply list_elem_of_here|].
  csimpl in Hsub. rewrite Hk in Hsub. apply NoDup_cons in Hsub as [Hx Hl].
  constructor.
  - intros Hin. apply Hx. apply list_elem_of_omap. eauto.
  - apply IH; [done|]. intros node Hn. apply Hall.
    by apply list_elem_of_further.
Qed.

Lemma grouped_tuples (l : list Node) :
  NoDup l → Forall (λ node, nodes node ≠ []) l →
  grouped bset (tuples <$> l).
Proof.
  induction 1 as [|node l Hnotin Hnd IH]; intros Hne; [constructor|].
  apply Forall_cons in Hne as [Hnode Hne]. rewrite fmap_cons.
  destruct (tuples node) as [|x g] eqn:Ht.
  { unfold tuples in Ht. apply fmap_nil_inv in Ht. done. }
  assert (Hx : ∀ y, y ∈ x :: g → bset y = node).
  { intros y Hy. rewrite <- Ht in Hy. by apply elem_of_tuples. }
  constructor.
  - intros y Hy. rewrite (Hx x) by apply list_elem_of_here.
    apply Hx. by apply list_elem_of_further.
  - intros h hs Heq y Hy. rewrite (Hx x) by apply list_elem_of_here.
    destruct l as [|node' l']; [done|]. rewrite fmap_cons in Heq.
    simplify_eq. apply elem_of_tuples in Hy. rewrite Hy.
    intros ->. apply Hnotin. apply list_elem_of_here.
  - apply Forall_fmap. eapply Forall_impl; [done|]. simpl.
    intros n Hn Hnil. unfold tuples in Hnil. by apply fmap_nil_inv in Hnil.
  - by apply IH.
Qed.
End GsimParse.

(** ** GsimLogicTree: construction and iteration *)
Section GsimIter.
Import GsimLogicTree GsimSpec.

Lemma selected_Permutation f keys keys' logicTree :
  keys ≡ₚ keys' → selected f keys logicTree = selected f keys' logicTree.
Proof.
  intros Hp. unfold selected. induction (concat logicTree) as [|x l IH];
    [done|].
  rewrite !filter_cons, IH.
  assert (is_selected f keys x = is_selected f keys' x) as ->; [|done].
  unfold is_selected. destruct (attrib x !! f); [|done].
  apply bool_decide_ext. by rewrite Hp.
Qed.

Lemma new_inv fname logicTree f keys self :
  new fname logicTree f keys = Ok self →
  f = "applyToTectonicRegionType"%string
  ∧ branchset_filter self = f
  ∧ NoDup keys
  ∧ ∃ out fkeys,
      parsed f keys logicTree (fkeys, out, values self)
      ∧ NoDup fkeys
      ∧ branches self = sorted __lt__ out
      ∧ (keys ≠ [] → out ≠ []).
Proof.
  unfold new. intros H.
  case_decide as Hf; [done|].
  case_decide as Hnd; [|done].
  destruct (_parse_lt _ _ _) as [[out vs]|] eqn:Hp; [|done]. cbn in H.
  case_decide as Hempty; [done|]. simplify_eq. simpl.
  assert (Hperm : merge_sort String.le keys ≡ₚ keys)
    by apply merge_sort_Permutation.
  split_and!; [done|done|by rewrite <- Hperm|].
  apply _parse_lt_parsed in Hp as (fkeys & Hparsed & Hfk).
  exists out, fkeys. split_and!; [|done|done|].
  - destruct Hparsed as (H1 & H2 & H3 & H4). unfold parsed, doc_groups in *.
    rewrite <- (selected_Permutation _ _ _ _ Hperm). done.
  - intros Hk ->. apply Hempty. split; [done|]. done.
Qed.

Lemma realization_acc (self : t) f bs r :
  (∀ b, b ∈ bs → uncertainty b ∈ default [] (values self !! fkey f b)) →
  foldl (λ acc '(fkey, branch),
      '(mkRealization value weight lt_path) ← acc;
      if decide (uncertainty branch ∈ default [] (values self !! fkey))
      then Ok (mkRealization (<[fkey := uncertainty branch]> value)
                 (Decimal.mul weight (GsimLogicTree.weight branch))
                 (lt_path ++ [id branch]))
      else Raise (AssertionError (OtherMessage (uncertainty branch))))
    (Ok r) (zip (fkey f <$> bs) bs)
  = Ok (mkRealization
          (foldl (λ value b, <[fkey f b := uncertainty b]> value)
             (value r) bs)
          (fold_left Decimal.mul (weight <$> bs) (rlz_weight r))
          (lt_path r ++ (id <$> bs))).
Proof.
  revert r. induction bs as [|b bs IH]; intros r Hval.
  - simpl. rewrite app_nil_r. by destruct r.
  - rewrite fmap_cons. cbn [zip zip_with foldl]. destruct r as [v w p].
    cbn [mbind result_bind]. rewrite decide_True
      by (apply Hval, list_elem_of_here).
    rewrite IH by (intros b' Hb'; by apply Hval, list_elem_of_further).
    simpl. by rewrite <- app_assoc.
Qed.

Lemma realization_combination (self : t) f bs :
  (∀ b, b ∈ bs → uncertainty b ∈ default [] (values self !! fkey f b)) →
  realization self (fkey f <$> bs) bs = Ok (combination f bs).
Proof.
  intros Hval. unfold realization. by rewrite (realization_acc self f).
Qed.

(** [__iter__] on a tree whose branches carry the filter attribute and
    whose uncertainties are recorded in [values]. *)
Lemma iter_spec (self : t) :
  (∀ b, b ∈ branches self →
        is_Some (attrib (bset b) !! branchset_filter self)
        ∧ uncertainty b
          ∈ default [] (values self !! fkey (branchset_filter self) b)) →
  iter self
  = Ok (combination (branchset_filter self)
        <$> product (groupby bset (branches self))).
Proof.
  intros Hb. unfold iter.
  pose proof (groupby_concat bset (branches self)) as Hcat.
  pose proof (groupby_groups bset (branches self)) as Hgr.
  set (groups := groupby bset (branches self)) in *.
  set (f := branchset_filter self) in *.
  assert (Hin : ∀ g b, g ∈ groups → b ∈ g → b ∈ branches self).
  { intros g b Hg Hbg. rewrite <- Hcat. apply list_elem_of_In, in_concat.
    exists g. split; by apply list_elem_of_In. }
  rewrite (mapM_result_fmap _
             (λ g, match g with b :: _ => fkey f b | [] => ""%string end)).
  2:{ intros g Hg. destruct g as [|b g].
      - rewrite Forall_forall in Hgr. by destruct (Hgr _ Hg).
      - destruct (Hb b) as [[k Hk] _].
        { eapply Hin; [done|apply list_elem_of_here]. }
        fold f. unfold fkey. by rewrite Hk. }
  cbn [mbind result_bind].
  apply mapM_result_fmap. intros combo Hcombo.
  apply product_elem in Hcombo.
  assert (Hkeys : ((λ g, match g with b :: _ => fkey f b | [] => ""%string end)
                   <$> groups) = fkey f <$> combo
                  ∧ ∀ b, b ∈ combo → b ∈ branches self).
  { clear Hcat. clearbody groups. revert Hin Hgr.
    induction Hcombo as [|x g combo groups Hx Hrest IH]; intros Hin Hgr.
    - split; [done|]. intros b Hb'. by apply elem_of_nil in Hb'.
    - apply Forall_cons in Hgr as [[Hne Hsame] Hgr].
      destruct IH as [IH1 IH2]; [|done|].
      { intros g' b' Hg'. apply Hin. by apply list_elem_of_further. }
      split.
      + rewrite !fmap_cons, IH1. f_equal.
        destruct g as [|y g]; [done|]. unfold fkey.
        rewrite (Hsame y x); [done|apply list_elem_of_here|done].
      + intros b' Hb'. apply elem_of_cons in Hb' as [->|Hb'].
        * eapply Hin; [apply list_elem_of_here|done].
        * by apply IH2. }
  destruct Hkeys as [-> Hall].
  apply realization_combination. intros b Hb'. by apply Hb, Hall.
Qed.

Lemma count_doc_groups f keys logicTree :
  count (doc_groups f keys logicTree)
  = foldr Nat.mul 1%nat
      ((λ node, length (nodes node)) <$> selected f keys logicTree).
Proof.
  unfold count, doc_groups. rewrite <- list_fmap_compose. f_equal.
  apply list_fmap_ext. intros _ node _. simpl. unfold tuples.
  by rewrite length_fmap.
Qed.
End GsimIter.

(** ** GsimLogicTree: the number of paths *)
Section GsimCount.
Import GsimLogicTree GsimSpec.

Lemma count_snoc (gs : list (list BranchTuple)) g :
  count (gs ++ [g]) = (count gs * length g)%nat.
Proof.
  unfold count. induction gs as [|h gs IH]; [simpl; lia|].
  change ((h :: gs) ++ [g]) with (h :: (gs ++ [g])).
  rewrite !fmap_cons. cbn [foldr]. rewrite IH. lia.
Qed.

Lemma num_branches_fold (gs : list (list BranchTuple)) :
  Forall (λ g, g ≠ []) gs →
  NoDup ((λ g, match g with
               | b :: _ => branchSetID (bset b)
               | [] => ""%string
               end) <$> gs) →
  let num := fold_left (λ (num : gmap string nat) g,
                 match g with
                 | b :: _ => <[branchSetID (bset b) := length g]> num
                 | [] => num
                 end) gs ∅ in
  (∀ k, k ∉ (λ g, match g with
                  | b :: _ => branchSetID (bset b)
                  | [] => ""%string
                  end) <$> gs → num !! k = None)
  ∧ map_fold (λ _ val n, (n * val)%nat) 1%nat num = count gs.
Proof.
  induction gs as [|g gs IH] using rev_ind; intros Hne Hnd.
  - simpl. split; [intros k _; apply lookup_empty|apply map_fold_empty].
  - apply Forall_app in Hne as [Hne Hg]. apply Forall_cons in Hg as [Hg _].
    rewrite fmap_app in Hnd. apply NoDup_app in Hnd as (Hnd & Hdisj & _).
    destruct (IH Hne Hnd) as [IHdom IHfold]. clear IH.
    rewrite fold_left_app. cbn [fold_left]. destruct g as [|b g]; [done|].
    cbn zeta. split.
    + intros k Hk. rewrite fmap_app in Hk. simpl in Hk.
      rewrite lookup_insert_ne.
      * apply IHdom. intros Hin. apply Hk, elem_of_app. by left.
      * intros <-. apply Hk, elem_of_app. right. apply list_elem_of_here.
    + rewrite map_fold_insert_L.
      * cbn zeta in IHfold. rewrite IHfold, count_snoc. done.
      * intros. lia.
      * apply IHdom. intros Hin. apply (Hdisj _ Hin).
        simpl. apply list_elem_of_here.
Qed.

Lemma get_num_paths_count (self : t) :
  NoDup ((λ g, match g with
               | b :: _ => branchSetID (bset b)
               | [] => ""%string
               end) <$> groupby bset (branches self)) →
  get_num_paths self = count (groupby bset (branches self)).
Proof.
  intros Hnd. unfold get_num_paths, get_num_branches.
  apply num_branches_fold; [|done].
  eapply Forall_impl; [apply groupby_groups|]. by intros g [? _].
Qed.

Lemma elem_of_doc_groups f keys logicTree b :
  b ∈ concat (doc_groups f keys logicTree) →
  is_Some (attrib (bset b) !! f).
Proof.
  intros Hb. apply list_elem_of_In, in_concat in Hb as (g & Hg & Hb).
  apply list_elem_of_In in Hg, Hb. unfold doc_groups in Hg.
  apply list_elem_of_fmap in Hg as (node & -> & Hnode).
  apply elem_of_tuples in Hb as ->. unfold selected in Hnode.
  apply list_elem_of_filter in Hnode as [Hs _]. unfold is_selected in Hs.
  destruct (attrib node !! f); [eauto|done].
Qed.
End GsimCount.




(** ** Weights beyond the precision of the decimal context *)

(** C2 (evaluation): the document with one branchset of weights 0.6 and
    0.4000000000000000000000000003 is accepted, although the weights sum to
    1.0000000000000000000000000003: the accumulated sum is rounded to 28
    digits before it is compared with 1.0. *)
Theorem long_weight_accepted :
  ∃ self bset,
    Examples.sm_new Examples.long_weight "base" "lt.xml" true 0 0 = Ok self
    ∧ branchsets self = [bset]
    ∧ weight <$> branches bset
      = [Examples.dec 6 (-1);
         Examples.dec 4000000000000000000000000003 (-28)]
    ∧ Qred (exact_sum (weight <$> branches bset))
      = Qmake 10000000000000000000000000003 10000000000000000000000000000
    ∧ ¬ (exact_sum (weight <$> branches bset) == 1)%Q
    ∧ Decimal.sum (weight <$> branches bset)
      = Examples.dec 1000000000000000000000000000 (-27)
    ∧ Decimal.eq_one (Decimal.sum (weight <$> branches bset)) = true.
Proof.
  eexists _, _. split; [vm_compute; reflexivity|].
  split; [vm_compute; reflexivity|].
  split; [vm_compute; reflexivity|].
  split; [vm_compute; reflexivity|].
  split; [|split; vm_compute; reflexivity].
  intros H. apply Qeq_bool_iff in H. vm_compute in H. discriminate.
Qed.

(** C1 (evaluation): in the document with the fifteen-digit weights every
    branchset sums to exactly 1, and the four enumerated paths carry
    weights that sum to 0.9999999999999999999999999999, each product being
    rounded to 28 digits. *)
Theorem fifteen_digits_total_weight :
  ∃ self rlzs,
    Examples.sm_new Examples.fifteen_digits "base" "lt.xml" true 0 0
    = Ok self
    ∧ Forall (λ bset, (exact_sum (weight <$> branches bset) == 1)%Q)
        (branchsets self)
    ∧ iter Examples.random Examples.Random 2 self = Some (Ok rlzs)
    ∧ rlz_weight <$> rlzs
      = Some <$> [Examples.dec 1062853209373777056228057425 (-28);
                  Examples.dec 4726269438481482943771942575 (-28);
                  Examples.dec 7730954723622029437719425745 (-29);
                  Examples.dec 3437781879782537056228057425 (-28)]
    ∧ Decimal.sum (omap rlz_weight rlzs)
      = Examples.dec 9999999999999999999999999999 (-28)
    ∧ Decimal.eq_one (Decimal.sum (omap rlz_weight rlzs)) = false
    ∧ ¬ (exact_sum (omap rlz_weight rlzs) == 1)%Q.
Proof.
  eexists _, _. split; [vm_compute; reflexivity|].
  split.
  { repeat constructor; apply Qeq_bool_iff; vm_compute; reflexivity. }
  split; [vm_compute; reflexivity|].
  split; [vm_compute; reflexivity|].
  split; [vm_compute; reflexivity|].
  split; [vm_compute; reflexivity|].
  intros H. apply Qeq_bool_iff in H. vm_compute in H. discriminate.
Qed.

(** With a weight of 29 digits on the first level the enumerated weights
    are the exact products, and they sum to more than 1. *)
Example long_weight_two_levels_total_weight :
  ∃ self rlzs,
    Examples.sm_new Examples.long_weight_two_levels "base" "lt.xml" true 0 0
    = Ok self
    ∧ iter Examples.random Examples.Random 2 self = Some (Ok rlzs)
    ∧ omap rlz_weight rlzs
      = [Examples.dec 30 (-3); Examples.dec 70 (-3);
         Examples.dec 2700000000000000000000000002 (-28);
         Examples.dec 6300000000000000000000000004 (-28)]
    ∧ Decimal.sum (omap rlz_weight rlzs)
      = Examples.dec 1000000000000000000000000001 (-27)
    ∧ ¬ (exact_sum (omap rlz_weight rlzs) == 1)%Q.
Proof.
  eexists _, _. split; [vm_compute; reflexivity|].
  split; [vm_compute; reflexivity|].
  split; [vm_compute; reflexivity|].
  split; [vm_compute; reflexivity|].
  intros H. apply Qeq_bool_iff in H. vm_compute in H. discriminate.
Qed.

(** ** The total weight in exact arithmetic

    What the enumeration yields when the products are not rounded: the
    paths of a constructed tree whose branchsets sum to 1 carry products
    that sum to 1. *)
Section ExactTotal.
Context {F G V : Type}.
Implicit Types (s : @BaseLogicTree F G V) (b : @Branch F G).

Lemma exact_total_app (ps qs : list (list (@Branch F G))) :
  (exact_total (ps ++ qs) == exact_total ps + exact_total qs)%Q.
Proof.
  unfold exact_total. induction ps as [|p ps IH].
  - change ([] ++ qs) with qs. rewrite fmap_nil. cbn [foldr]. ring.
  - rewrite <- app_comm_cons, !fmap_cons. cbn [foldr]. rewrite IH. ring.
Qed.

Lemma exact_product_app (ws ws' : list Decimal.t) :
  (exact_product (ws ++ ws') == exact_product ws * exact_product ws')%Q.
Proof.
  unfold exact_product. induction ws as [|w ws IH].
  - change ([] ++ ws') with ws'. rewrite fmap_nil. cbn [foldr]. ring.
  - rewrite <- app_comm_cons, !fmap_cons. cbn [foldr]. rewrite IH. ring.
Qed.

Lemma exact_product_rev (p : list (@Branch F G)) :
  (exact_product (weight <$> rev p) == exact_product (weight <$> p))%Q.
Proof.
  induction p as [|b p IH]; [reflexivity|].
  simpl rev. rewrite fmap_app, exact_product_app, IH.
  unfold exact_product. rewrite !fmap_cons, !fmap_nil. cbn [foldr]. ring.
Qed.

Lemma exact_total_flatten (paths : list (list (@Branch F G))) :
  (exact_total (snd <$> map flatten_path paths) == exact_total paths)%Q.
Proof.
  unfold exact_total. induction paths as [|p paths IH]; [reflexivity|].
  cbn [map]. rewrite !fmap_cons. cbn [foldr]. rewrite IH.
  cbn [flatten_path snd]. by rewrite exact_product_rev.
Qed.

Lemma mapM_option_Forall2 {A B} (f : A → option B) (R : A → B → Prop) l :
  (∀ x, x ∈ l → ∃ y, f x = Some y ∧ R x y) →
  ∃ k, mapM f l = Some k ∧ Forall2 R l k.
Proof.
  induction l as [|x l IH]; intros H.
  - exists []. split; [done|constructor].
  - destruct (H x) as (y & Hy & HR); [apply list_elem_of_here|].
    destruct IH as (k & Hk & HRk).
    { intros x' Hx'. apply H. by apply list_elem_of_further. }
    exists (y :: k). cbn. rewrite Hy. cbn. rewrite Hk. cbn.
    split; [done|by constructor].
Qed.

Lemma exact_total_concat (bs : list (@Branch F G))
    (k : list (list (list (@Branch F G)))) (W : Q) :
  Forall2 (λ b ps, (exact_total ps == Decimal.to_Q (weight b) * W)%Q) bs k →
  (exact_total (concat k) == exact_sum (weight <$> bs) * W)%Q.
Proof.
  induction 1 as [|b ps bs k Hb _ IH].
  - unfold exact_total, exact_sum. cbn [concat]. rewrite !fmap_nil.
    cbn [foldr]. ring.
  - simpl concat. rewrite exact_total_app, Hb, IH.
    unfold exact_sum. rewrite !fmap_cons. cbn [foldr]. ring.
Qed.

Lemma enumerate_paths_exact_total s lev hi d fuel i l prefix :
  tree_inv s lev hi d →
  Forall (λ bset, (exact_sum (weight <$> branches bset) == 1)%Q)
    (branchsets s) →
  lev !! i = Some l → (length (branchsets s) ≤ fuel + i)%nat →
  ∃ paths,
    _enumerate_paths (branchsets s) (child_branchset s) fuel i prefix
      = Some paths
    ∧ (exact_total paths == exact_product (weight <$> prefix))%Q.
Proof.
  intros Hinv Hone. revert i l prefix.
  induction fuel as [|fuel IH]; intros i l prefix Hl Hfuel.
  - apply lookup_lt_Some in Hl. rewrite (inv_lev_len _ _ _ _ Hinv) in Hl. lia.
  - pose proof (lookup_lt_Some _ _ _ Hl) as Hi.
    rewrite (inv_lev_len _ _ _ _ Hinv) in Hi.
    apply lookup_lt_is_Some in Hi as [bset Hbset].
    cbn [_enumerate_paths]. rewrite Hbset. cbn.
    destruct (mapM_option_Forall2
      (λ branch, match child_branchset s !! branch_id branch with
                 | Some c => _enumerate_paths (branchsets s)
                               (child_branchset s) fuel c (branch :: prefix)
                 | None => Some [branch :: prefix]
                 end)
      (λ b ps, (exact_total ps
                == Decimal.to_Q (weight b)
                   * exact_product (weight <$> prefix))%Q)
      (branches bset)) as (k & Hk & HR).
    { intros b Hb.
      destruct (child_branchset s !! branch_id b) as [j|] eqn:Hj.
      - destruct (inv_child _ _ _ _ Hinv _ _ _ _ Hbset Hb Hj)
          as (Hij & l' & Hl' & Hlj).
        destruct (IH j (S l') (b :: prefix) Hlj) as (paths & Hp & Ht);
          [lia|].
        exists paths. split; [done|]. rewrite Ht.
        unfold exact_product. rewrite !fmap_cons. cbn [foldr]. reflexivity.
      - eexists. split; [done|]. unfold exact_total, exact_product.
        rewrite !fmap_cons, fmap_nil. cbn [foldr]. ring. }
    rewrite Hk. cbn. eexists. split; [done|].
    rewrite (exact_total_concat _ _ _ HR).
    rewrite Forall_forall in Hone.
    rewrite (Hone bset) by (by eapply list_elem_of_lookup_2). ring.
Qed.

(** In exact arithmetic the docstring of [enumerate_paths] holds: for a
    constructed tree whose branchsets each sum to exactly 1, the products
    of the weights along the enumerated paths sum to exactly 1. *)
Theorem exact_weights_total_one (hooks : @Hooks F G V)
    (v : V) (content : list BranchingLevelNode) (basepath filename : string)
    (validate : bool) (seed0 n : Z) (self : @BaseLogicTree F G V) root :
  apply_spec (apply_branchset hooks) →
  init hooks v content basepath filename validate seed0 n = Ok self →
  root_branchset self = Some root →
  Forall (λ bset, (exact_sum (weight <$> branches bset) == 1)%Q)
    (branchsets self) →
  ∃ paths,
    (∀ fuel, (length (branchsets self) ≤ fuel)%nat →
       enumerate_paths (branchsets self) (child_branchset self) fuel root
       = Some paths)
    ∧ (exact_total (snd <$> paths) == 1)%Q.
Proof.
  intros Happly Hinit Hroot Hone.
  apply (init_well_formed hooks Happly) in Hinit as ([lev Hinv] & _).
  destruct (root_level self lev _ _ Hinv) as [Hr [l Hl]];
    [by rewrite Hroot|].
  assert (root = 0%nat) as -> by congruence.
  destruct (enumerate_paths_exact_total self lev _ _
              (length (branchsets self)) 0%nat l [] Hinv Hone Hl)
    as (paths & Hp & Ht); [lia|].
  exists (map flatten_path paths). split.
  - intros fuel Hfuel. unfold enumerate_paths.
    by rewrite (_enumerate_paths_fuel _ _ _ _ _ _ _ Hfuel Hp).
  - by rewrite exact_total_flatten.
Qed.
End ExactTotal.

(** The fifteen-digit document again: the exact products sum to 1, the
    weights [enumerate_paths] yields do not. *)
Example fifteen_digits_exact_total :
  ∃ self (paths : list (Decimal.t * list (@Branch string string))),
    Examples.sm_new Examples.fifteen_digits "base" "lt.xml" true 0 0
    = Ok self
    ∧ enumerate_paths (branchsets self) (child_branchset self) 2 0
      = Some paths
    ∧ (exact_total (snd <$> paths) == 1)%Q
    ∧ ¬ (exact_sum (fst <$> paths) == 1)%Q.
Proof.
  eexists _, _. split; [vm_compute; reflexivity|].
  split; [vm_compute; reflexivity|]. split.
  - apply Qeq_bool_iff. vm_compute. reflexivity.
  - intros H. apply Qeq_bool_iff in H. vm_compute in H. discriminate.
Qed.

(** * Further properties of the module *)

(** ** sample *)
Section Sample.
Context {F G Rng : Type} (random : Rng → Q * Rng).
Implicit Types (bs : list (@Branch F G)).

Lemma draws_S n rnd :
  draws random (S n) rnd = draws random n (random rnd).2.
Proof. exact (Nat.iter_succ_r n (λ r, (random r).2) rnd). Qed.

Lemma sample_one_snd bs rnd : (sample_one random bs rnd).2 = (random rnd).2.
Proof. unfold sample_one. by destruct (random rnd). Qed.

Lemma sample_one_fst bs rnd :
  (sample_one random bs rnd).1
  = sample_one_from (Decimal.of_int 0) bs (random rnd).1.
Proof. unfold sample_one. by destruct (random rnd). Qed.
End Sample.

(** X1. [sample] returns as many objects as asked for, each one of the
    given objects, and takes one number from the generator per object,
    when the weights add up to 1 (the sum the loop accumulates) and the
    generator draws from [0, 1); with nothing to choose from, the first
    draw raises the AssertionError of [sample_one]. *)
Theorem sample_returns_num_samples {F G Rng : Type}
    (random : Rng → Q * Rng) (bs : list (@Branch F G)) (n : nat) (rnd : Rng) :
  unit_draws random →
  Decimal.eq_one (Decimal.sum (weight <$> bs)) = true →
  (∃ subsequence,
     sample random bs n rnd = (Ok subsequence, draws random n rnd)
     ∧ length subsequence = n
     ∧ Forall (λ b, b ∈ bs) subsequence)
  ∧ sample random (@nil (@Branch F G)) (S n) rnd
    = (Raise (AssertionError DoWeightsSumUp), (random rnd).2).
Proof.
  intros Hdraw Hsum. split.
  - revert rnd. induction n as [|n IH]; intros rnd.
    + exists []. by split_and!.
    + cbn [sample].
      destruct (sample_one random bs rnd) as [r rnd1] eqn:H1.
      pose proof (sample_one_fst random bs rnd) as Hr.
      pose proof (sample_one_snd random bs rnd) as Hrnd.
      rewrite H1 in Hr, Hrnd. simpl in Hr, Hrnd. subst rnd1.
      destruct (sample_one_from_total bs (random rnd).1 Hsum)
        as (b & Hb & Hin); [apply Hdraw|].
      rewrite Hb in Hr. subst r.
      destruct (IH (random rnd).2) as (l & Hl & Hlen & Hall).
      rewrite Hl. exists (b :: l). rewrite draws_S.
      split_and!; [done|by rewrite <- Hlen|by constructor].
  - cbn [sample]. unfold sample_one. by destruct (random rnd).
Qed.

Lemma sample_returns_num_samples_witness :
  unit_draws Examples.random
  ∧ Decimal.eq_one (Decimal.sum (weight <$> Examples.branches_ab)) = true
  ∧ ∃ subsequence,
      sample Examples.random Examples.branches_ab 3 7
      = (Ok subsequence, draws Examples.random 3 7)
      ∧ length subsequence = 3%nat
      ∧ Forall (λ b, b ∈ Examples.branches_ab) subsequence.
Proof.
  split; [apply example_unit_draws|]. split; [reflexivity|].
  apply (sample_returns_num_samples Examples.random Examples.branches_ab
           3 7 example_unit_draws eq_refl).
Defined.

(** ** get_branch_by_id *)
Section GetBranch.
Context {F G : Type}.
Implicit Types (bs : list (@Branch F G)) (b : @Branch F G).

Lemma get_branch_by_id_missing bs id :
  id ∉ branch_id <$> bs →
  get_branch_by_id bs id = Raise (AssertionError (CouldntFindBranch id)).
Proof.
  induction bs as [|x bs IH]; intros Hid; [done|].
  rewrite fmap_cons in Hid. apply not_elem_of_cons in Hid as [Hne Hid].
  cbn [get_branch_by_id]. rewrite decide_False by done. by apply IH.
Qed.

Lemma get_branch_by_id_found bs b :
  NoDup (branch_id <$> bs) → b ∈ bs →
  get_branch_by_id bs (branch_id b) = Ok b.
Proof.
  induction bs as [|x bs IH]; intros Hnd Hb; [by apply elem_of_nil in Hb|].
  rewrite fmap_cons in Hnd. apply NoDup_cons in Hnd as [Hx Hnd].
  cbn [get_branch_by_id]. apply elem_of_cons in Hb as [->|Hb].
  - by rewrite decide_True.
  - rewrite decide_False; [by apply IH|].
    intros Heq. apply Hx. rewrite Heq. by apply list_elem_of_fmap_2.
Qed.

Lemma get_branch_by_id_Ok bs id b :
  get_branch_by_id bs id = Ok b → b ∈ bs ∧ branch_id b = id.
Proof.
  induction bs as [|x bs IH]; intros H; [done|].
  cbn [get_branch_by_id] in H. case_decide as Hx.
  - simplify_eq. split; [apply list_elem_of_here|done].
  - destruct (IH H) as [Hin Hid]. split; [by apply list_elem_of_further|done].
Qed.

Lemma NoDup_branchset_ids (store : list (@BranchSet F G)) bset :
  NoDup (branch_id <$> all_branches store) → bset ∈ store →
  NoDup (branch_id <$> branches bset).
Proof.
  intros Hnd Hin. apply list_elem_of_split in Hin as (l1 & l2 & ->).
  unfold all_branches in Hnd. rewrite bind_app, bind_cons, !fmap_app in Hnd.
  apply NoDup_app in Hnd as (_ & _ & Hnd).
  by apply NoDup_app in Hnd as (Hnd & _ & _).
Qed.
End GetBranch.

(** X2. In a constructed tree [get_branch_by_id] finds every branch of a
    branchset by its id and returns that very branch; an id that is not
    among the ids of the branchset raises the AssertionError, and so does
    the id of a branch of any other branchset of the tree. *)
Theorem get_branch_by_id_round_trip {F G V : Type} (hooks : @Hooks F G V)
    (v : V) (content : list BranchingLevelNode) (basepath filename : string)
    (validate : bool) (seed0 n0 : Z) (self : @BaseLogicTree F G V) :
  apply_spec (apply_branchset hooks) →
  init hooks v content basepath filename validate seed0 n0 = Ok self →
  (∀ bset b, bset ∈ branchsets self → b ∈ branches bset →
     get_branch_by_id (branches bset) (branch_id b) = Ok b)
  ∧ (∀ (bs : list (@Branch F G)) id, id ∉ branch_id <$> bs →
       get_branch_by_id bs id = Raise (AssertionError (CouldntFindBranch id)))
  ∧ (∀ i j bset bset' b,
       branchsets self !! i = Some bset → branchsets self !! j = Some bset' →
       i ≠ j → b ∈ branches bset →
       get_branch_by_id (branches bset') (branch_id b)
       = Raise (AssertionError (CouldntFindBranch (branch_id b)))).
Proof.
  intros Happly Hinit.
  apply (init_well_formed hooks Happly) in Hinit as ([lev Hinv] & _).
  pose proof (inv_nodup _ _ _ _ Hinv) as Hnd. split_and!.
  - intros bset b Hbset Hb. apply get_branch_by_id_found; [|done].
    by eapply NoDup_branchset_ids.
  - intros bs id. apply get_branch_by_id_missing.
  - intros i j bset bset' b Hi Hj Hij Hb. apply get_branch_by_id_missing.
    intros Hin. apply list_elem_of_fmap in Hin as (b' & Heq & Hb').
    apply Hij. by eapply (owner_unique (branchsets self)).
Qed.

Lemma get_branch_by_id_round_trip_witness :
  apply_spec (apply_branchset Examples.sm_hooks)
  ∧ ∃ self,
      Examples.sm_new Examples.two_levels "base" "lt.xml" true 0 0 = Ok self
      ∧ ∀ bset b, bset ∈ branchsets self → b ∈ branches bset →
          get_branch_by_id (branches bset) (branch_id b) = Ok b.
Proof.
  split; [apply sm_apply_spec|].
  destruct (Examples.sm_new Examples.two_levels "base" "lt.xml" true 0 0)
    as [self|e] eqn:Hnew; [|by vm_compute in Hnew].
  exists self. split; [done|].
  apply (get_branch_by_id_round_trip Examples.sm_hooks
           (SourceModelLogicTree.mkAttrs ∅ ∅ ∅) Examples.two_levels
           "base" "lt.xml" true 0 0 self sm_apply_spec Hnew).
Defined.

(** ** An induction principle for the builder

    A property [I d k v store] of the attributes of the subclass and of
    the store of branchsets, indexed by the position in the document
    (branching level [d], branchset node [k] of it), holds after the
    construction when it holds at the start and every parsed or skipped
    branchset node and every end of a level keeps it. *)
Section StoreInduction.
Context {F G V : Type} (hooks : @Hooks F G V) (validate : bool).
Context (content : list BranchingLevelNode).
Context (I : nat → nat → V → list (@BranchSet F G) → Prop).
Hypothesis Happly : apply_spec (apply_branchset hooks).
Hypothesis I_step : ∀ d k level node s s1 bset0 s2 bset,
  content !! d = Some level → level !! k = Some node →
  I d k (variant s) (branchsets s) →
  skip_branchset_condition hooks (variant s) (attrib node) = Ok false →
  parse_branchset hooks s node d k validate = Ok (s1, bset0) →
  parse_branches hooks s1 node bset0 validate = Ok (s2, bset) →
  I d (S k) (variant s2) (branchsets s ++ [bset]).
Hypothesis I_skip : ∀ d k level node v store,
  content !! d = Some level → level !! k = Some node →
  I d k v store →
  skip_branchset_condition hooks v (attrib node) = Ok true →
  I d (S k) v store.
Hypothesis I_next : ∀ d level v store,
  content !! d = Some level → I d (length level) v store → I (S d) 0 v store.

Lemma store_node d k level node s new s' new' :
  content !! d = Some level → level !! k = Some node →
  parse_level_branchset hooks d validate (s, new) (k, node) = Ok (s', new') →
  I d k (variant s) (branchsets s) → I d (S k) (variant s') (branchsets s').
Proof.
  intros Hd Hk H HI. unfold parse_level_branchset in H.
  destruct (skip_branchset_condition _ _ _) as [[|]|] eqn:Hskip; cbn in H;
    [|  |done].
  { simplify_eq. by eapply I_skip. }
  destruct (parse_branchset _ _ _ _ _ _) as [[s1 bset0]|] eqn:Hbs; [|done].
  cbn in H.
  destruct (parse_branches _ _ _ _ _) as [[s2 bset]|] eqn:Hbr; [|done].
  cbn in H.
  pose proof (I_step _ _ _ _ _ _ _ _ _ Hd Hk HI Hskip Hbs Hbr) as HI'.
  apply parse_branchset_spec in Hbs as [Hnil Hs1].
  apply parse_branches_spec in Hbr as (_ & _ & _ & _ & _ & _ & _ & Hs2);
    [|done].
  assert (Hst : branchsets s2 = branchsets s) by (by rewrite Hs2, Hs1).
  assert (Hs' : branchsets s' = branchsets s ++ [bset]
                ∧ variant s' = variant s2).
  { destruct (root_branchset _).
    - destruct (apply_branchset _ _ _ _) as [s4|] eqn:Hap; [|done].
      cbn in H. simplify_eq. apply Happly in Hap as [-> _]. simpl.
      by rewrite Hst.
    - cbn in H. simplify_eq. simpl. by rewrite Hst. }
  destruct Hs' as [-> ->]. done.
Qed.

Lemma store_loop d level pre rest s new s' new' :
  content !! d = Some level → level = pre ++ rest →
  parse_level_loop hooks d validate (s, new)
    (imap (λ number n, (length pre + number, n)%nat) rest) = Ok (s', new') →
  I d (length pre) (variant s) (branchsets s) →
  I d (length level) (variant s') (branchsets s').
Proof.
  intros Hd. revert pre s new.
  induction rest as [|node rest IH]; intros pre s new Hlevel H HI.
  - simpl in H. simplify_eq. by rewrite app_nil_r.
  - rewrite imap_cons in H. cbn [parse_level_loop] in H.
    destruct (parse_level_branchset _ _ _ _ _) as [[s1 new1]|] eqn:H1;
      [|done].
    cbn in H. replace (length pre + 0)%nat with (length pre) in H1 by lia.
    assert (Hnode : level !! length pre = Some node).
    { rewrite Hlevel. by apply list_lookup_middle. }
    apply (store_node _ _ _ _ _ _ _ _ Hd Hnode) in H1; [|done].
    apply (IH (pre ++ [node]) s1 new1).
    + by rewrite <- app_assoc.
    + erewrite imap_ext; [exact H|]. intros i x _. simpl.
      rewrite length_app. simpl. f_equal. lia.
    + rewrite length_app. simpl.
      by replace (length pre + 1)%nat with (S (length pre)) by lia.
Qed.

Lemma store_level d level s s' :
  content !! d = Some level →
  parse_branchinglevel hooks s level d validate = Ok s' →
  I d 0 (variant s) (branchsets s) → I (S d) 0 (variant s') (branchsets s').
Proof.
  intros Hd H HI. unfold parse_branchinglevel in H.
  destruct (parse_level_loop _ _ _ _ _) as [[s1 new1]|] eqn:Hl; [|done].
  cbn in H. simplify_eq. simpl.
  eapply I_next; [done|].
  apply (store_loop d level [] level s ∅ s1 new1); done.
Qed.

Lemma store_levels pre levels s s' :
  content = pre ++ levels →
  parse_levels hooks s levels (length pre) validate = Ok s' →
  I (length pre) 0 (variant s) (branchsets s) →
  I (length content) 0 (variant s') (branchsets s').
Proof.
  revert pre s. induction levels as [|level levels IH]; intros pre s Hc H HI.
  - simpl in H. simplify_eq. by rewrite app_nil_r.
  - cbn [parse_levels] in H.
    destruct (parse_branchinglevel _ _ _ _ _) as [s1|] eqn:H1; [|done].
    cbn in H.
    assert (Hlevel : content !! length pre = Some level).
    { rewrite Hc. by apply list_lookup_middle. }
    apply (store_level _ _ _ _ Hlevel) in H1; [|done].
    apply (IH (pre ++ [level]) s1).
    + by rewrite <- app_assoc.
    + rewrite length_app. simpl.
      by replace (length pre + 1)%nat with (S (length pre)) by lia.
    + rewrite length_app. simpl.
      by replace (length pre + 1)%nat with (S (length pre)) by lia.
Qed.

Lemma store_induction v basepath filename seed0 n0 self :
  init hooks v content basepath filename validate seed0 n0 = Ok self →
  I 0 0 v [] →
  I (length content) 0 (variant self) (branchsets self).
Proof.
  unfold init. intros H HI. apply parse_tree_levels in H.
  by apply (store_levels [] content) in H.
Qed.
End StoreInduction.

(** ** The tree mirrors the document *)
Section ProvenanceProofs.
Context {F G V : Type} (hooks : @Hooks F G V).
Implicit Types (s : @BaseLogicTree F G V) (bset : @BranchSet F G).

Lemma parse_branchset_inv validate node d k s s1 bset0 :
  parse_branchset hooks s node d k validate = Ok (s1, bset0) →
  bset0 = mkBranchSet (uncertaintyType node) (node_filters hooks node) []
  ∧ (if validate
     then validate_filters hooks (variant s) node (uncertaintyType node)
            (raw_filters node) = Ok (variant s1)
          ∧ validate_branchset hooks (variant s1) node d k bset0 = Ok ()
     else variant s1 = variant s).
Proof.
  unfold parse_branchset. intros H. destruct validate.
  - destruct (validate_filters _ _ _ _ _) as [v|] eqn:Hv; [|done].
    cbn in H.
    destruct (validate_branchset _ _ _ _ _ _) as [[]|] eqn:Hb; [|done].
    cbn in H. simplify_eq. simpl. done.
  - cbn in H. by simplify_eq.
Qed.

Lemma parse_branch_loop_values validate node nodes ws s bset ws' s' bset' :
  parse_branch_loop hooks validate (ws, s, bset) nodes = Ok (ws', s', bset') →
  uncertainty_type bset = uncertaintyType node →
  filters bset = node_filters hooks node →
  ∃ new,
    branches bset' = branches bset ++ new
    ∧ Forall2 (λ b n, branch_id b = branchID n
                      ∧ weight b = uncertaintyWeight n
                      ∧ parsed_value hooks node b n) new nodes.
Proof.
  revert ws s bset. induction nodes as [|n nodes IH];
    intros ws s bset H Hut Hfi.
  - simpl in H. simplify_eq. exists []. rewrite app_nil_r.
    split; [done|constructor].
  - cbn [parse_branch_loop] in H.
    destruct (parse_branch hooks validate (ws, s, bset) n)
      as [[[ws1 s1] bset1]|e] eqn:Hn; [|done].
    cbn in H. unfold parse_branch in Hn.
    destruct (if validate then _ else _) as [sv|] eqn:Hs0; [|done].
    cbn in Hn.
    destruct (parse_uncertainty_value _ _ _ _) as [val|] eqn:Hp; [|done].
    cbn in Hn. case_decide as Hdup; [done|]. simplify_eq.
    apply IH in H as (new & Hbr & Hall); [|done..].
    simpl in Hbr. eexists (_ :: new). split.
    + rewrite Hbr. by rewrite <- app_assoc.
    + constructor; [|done]. simpl. split_and!; [done..|].
      by exists (variant sv), bset.
Qed.

Lemma parse_branches_mirrors validate node d k s s1 bset0 s2 bset :
  parse_branchset hooks s node d k validate = Ok (s1, bset0) →
  parse_branches hooks s1 node bset0 validate = Ok (s2, bset) →
  mirrors hooks bset node.
Proof.
  intros Hbs Hbr. apply parse_branchset_inv in Hbs as [-> _].
  unfold parse_branches in Hbr.
  destruct (parse_branch_loop _ _ _ _) as [[[ws1 s3] bset1]|] eqn:Hl; [|done].
  cbn in Hbr. destruct (Decimal.eq_one ws1); [|done]. simplify_eq.
  pose proof Hl as Hl'.
  apply parse_branch_loop_spec in Hl' as (_ & _ & Hut & Hfi & _).
  apply (parse_branch_loop_values _ node) in Hl as (new & Hbr & Hall);
    [|done..].
  simpl in *. unfold mirrors. rewrite Hbr. by split_and!.
Qed.
End ProvenanceProofs.

(** X3. The branchsets of a constructed tree are the branchset nodes of the
    document that were not skipped, in the order of the document: each has
    the uncertainty type of its node, the filters [parse_filters] makes of
    the filter attributes of the node, and one branch per branch node, in
    order, with its id, its weight and the value [parse_uncertainty_value]
    makes of its text.  When no node is skipped these are all the
    branchset nodes of the document. *)
Theorem tree_mirrors_document {F G V : Type} (hooks : @Hooks F G V)
    (v : V) (content : list BranchingLevelNode) (basepath filename : string)
    (validate : bool) (seed0 n0 : Z) (self : @BaseLogicTree F G V) :
  apply_spec (apply_branchset hooks) →
  init hooks v content basepath filename validate seed0 n0 = Ok self →
  ∃ kept,
    kept `sublist_of` concat content
    ∧ Forall2 (mirrors hooks) (branchsets self) kept
    ∧ (no_skip hooks content → kept = concat content).
Proof.
  intros Happly Hinit.
  pose (I := λ (d k : nat) (_ : V) (store : list (@BranchSet F G)),
    ∃ kept,
      kept `sublist_of` nodes_before content d k
      ∧ Forall2 (mirrors hooks) store kept
      ∧ (no_skip hooks content → kept = nodes_before content d k)).
  assert (Hsnoc : ∀ d k level node,
    content !! d = Some level → level !! k = Some node →
    nodes_before content d (S k) = nodes_before content d k ++ [node]).
  { intros d k level node Hd Hk. unfold nodes_before.
    unfold BranchingLevelNode in *.
    rewrite Hd. rewrite (take_S_r _ _ _ Hk). by rewrite app_assoc. }
  assert (HI : I (length content) 0%nat (variant self) (branchsets self)).
  { apply (store_induction hooks validate content I Happly)
      with (v := v) (basepath := basepath) (filename := filename)
           (seed0 := seed0) (n0 := n0); [| | |done|].
    - intros d k level node s s1 bset0 s2 bset Hd Hk (kept & Hsub & Hm & Hall)
        Hskip Hbs Hbr.
      exists (kept ++ [node]). rewrite (Hsnoc _ _ _ _ Hd Hk). split_and!.
      + by apply sublist_app.
      + apply Forall2_app; [done|]. constructor; [|constructor].
        by eapply parse_branches_mirrors.
      + intros Hno. by rewrite (Hall Hno).
    - intros d k level node v0 store Hd Hk (kept & Hsub & Hm & Hall) Hskip.
      exists kept. rewrite (Hsnoc _ _ _ _ Hd Hk). split_and!.
      + by apply sublist_inserts_r.
      + done.
      + intros Hno. exfalso. unfold no_skip in Hno.
        rewrite Forall_forall in Hno.
        assert (Hl : level ∈ content) by (by eapply list_elem_of_lookup_2).
        specialize (Hno _ Hl). rewrite Forall_forall in Hno.
        assert (Hn : node ∈ level) by (by eapply list_elem_of_lookup_2).
        specialize (Hno _ Hn v0). congruence.
    - intros d level v0 store Hd (kept & Hsub & Hm & Hall).
      assert (Heq : nodes_before content (S d) 0
                    = nodes_before content d (length level)).
      { unfold nodes_before. unfold BranchingLevelNode in *.
        rewrite (take_S_r _ _ _ Hd), concat_app. rewrite Hd. simpl.
        rewrite app_nil_r, firstn_all.
        destruct (content !! S d); by rewrite ?take_0, app_nil_r. }
      exists kept. by rewrite Heq.
    - exists []. unfold nodes_before. unfold BranchingLevelNode in *.
      rewrite take_0. simpl.
      split_and!; [|constructor|].
      + apply sublist_nil_l.
      + intros _. destruct (content !! 0%nat); by rewrite ?take_0. }
  destruct HI as (kept & Hsub & Hm & Hall).
  assert (Heq : nodes_before content (length content) 0 = concat content).
  { unfold nodes_before. unfold BranchingLevelNode in *.
    rewrite firstn_all.
    destruct (content !! length content); by rewrite ?take_0, app_nil_r. }
  rewrite Heq in Hsub, Hall. by exists kept.
Qed.

Lemma tree_mirrors_document_witness :
  apply_spec (apply_branchset Examples.sm_hooks)
  ∧ ∃ self,
      Examples.sm_new Examples.two_levels "base" "lt.xml" true 0 0 = Ok self
      ∧ ∃ kept,
          kept `sublist_of` concat Examples.two_levels
          ∧ Forall2 (mirrors Examples.sm_hooks) (branchsets self) kept
          ∧ (no_skip Examples.sm_hooks Examples.two_levels →
             kept = concat Examples.two_levels).
Proof.
  split; [apply sm_apply_spec|].
  destruct (Examples.sm_new Examples.two_levels "base" "lt.xml" true 0 0)
    as [self|e] eqn:Hnew; [|by vm_compute in Hnew].
  exists self. split; [done|].
  apply (tree_mirrors_document Examples.sm_hooks
           (SourceModelLogicTree.mkAttrs ∅ ∅ ∅) Examples.two_levels
           "base" "lt.xml" true 0 0 self sm_apply_spec Hnew).
Defined.

(** ** Enumeration yields the paths of the tree *)
Section EnumerationExact.
Context {F G : Type}.
Context (store : list (@BranchSet F G)) (child : gmap string bsref).
Implicit Types (p q prefix : list (@Branch F G)).

Lemma tree_path_nonempty i p : tree_path store child i p → p ≠ [].
Proof. by destruct 1. Qed.

Lemma _enumerate_paths_sound fuel i prefix paths q :
  _enumerate_paths store child fuel i prefix = Some paths →
  q ∈ paths → ∃ p, tree_path store child i p ∧ q = rev p ++ prefix.
Proof.
  revert i prefix paths q.
  induction fuel as [|fuel IH]; intros i prefix paths q H Hq; [done|].
  cbn [_enumerate_paths] in H.
  destruct (store !! i) as [bset|] eqn:Hi; [|done]. cbn in H.
  destruct (mapM _ (branches bset)) as [k|] eqn:Hm; [|done].
  cbn in H. simplify_eq. apply mapM_Some in Hm.
  apply list_elem_of_In, in_concat in Hq as (ps & Hps & Hq).
  apply list_elem_of_In in Hps, Hq.
  apply list_elem_of_lookup in Hps as [n Hn].
  destruct (Forall2_lookup_r _ _ _ _ _ Hm Hn) as (b & Hb & Hf).
  apply list_elem_of_lookup_2 in Hb.
  destruct (child !! branch_id b) as [j|] eqn:Hj.
  - destruct (IH _ _ _ _ Hf Hq) as (p & Hp & ->).
    exists (b :: p). split; [by eapply path_step|].
    simpl. by rewrite <- app_assoc.
  - simplify_eq. apply list_elem_of_singleton in Hq as ->.
    exists [b]. split; [by eapply path_leaf|done].
Qed.

Lemma _enumerate_paths_complete fuel i prefix paths p :
  _enumerate_paths store child fuel i prefix = Some paths →
  tree_path store child i p → rev p ++ prefix ∈ paths.
Proof.
  intros H Hp. revert fuel prefix paths H.
  induction Hp as [i bset b Hi Hb Hj|i bset b j p Hi Hb Hj Hp IH];
    intros fuel prefix paths H.
  - destruct fuel as [|fuel]; [done|]. cbn [_enumerate_paths] in H.
    rewrite Hi in H. cbn in H.
    destruct (mapM _ (branches bset)) as [k|] eqn:Hm; [|done].
    cbn in H. simplify_eq. apply mapM_Some in Hm.
    apply list_elem_of_lookup in Hb as [n Hn].
    destruct (Forall2_lookup_l _ _ _ _ _ Hm Hn) as (ps & Hps & Hf).
    rewrite Hj in Hf. simplify_eq.
    apply list_elem_of_In, in_concat. exists [b :: prefix].
    split; apply list_elem_of_In;
      [by eapply list_elem_of_lookup_2|apply list_elem_of_here].
  - destruct fuel as [|fuel]; [done|]. cbn [_enumerate_paths] in H.
    rewrite Hi in H. cbn in H.
    destruct (mapM _ (branches bset)) as [k|] eqn:Hm; [|done].
    cbn in H. simplify_eq. apply mapM_Some in Hm.
    apply list_elem_of_lookup in Hb as [n Hn].
    destruct (Forall2_lookup_l _ _ _ _ _ Hm Hn) as (ps & Hps & Hf).
    rewrite Hj in Hf.
    apply list_elem_of_In, in_concat. exists ps.
    split; apply list_elem_of_In; [by eapply list_elem_of_lookup_2|].
    simpl. rewrite <- app_assoc. by eapply IH.
Qed.

Lemma NoDup_concat_paths (bs : list (@Branch F G)) k prefix :
  NoDup bs →
  Forall2 (λ b ps, NoDup ps
                   ∧ ∀ q, q ∈ ps → ∃ p', q = p' ++ b :: prefix) bs k →
  NoDup (concat k).
Proof.
  intros Hnd Hall. induction Hall as [|b ps bs k [Hps Hq] Hall IH];
    [constructor|].
  apply NoDup_cons in Hnd as [Hb Hnd]. simpl. apply NoDup_app.
  split_and!; [done| |by apply IH].
  intros q Hq1 Hq2. destruct (Hq _ Hq1) as [p1 ->].
  apply list_elem_of_In, in_concat in Hq2 as (ps' & Hps' & Hq2).
  apply list_elem_of_In in Hps', Hq2.
  apply list_elem_of_lookup in Hps' as [n Hn].
  destruct (Forall2_lookup_r _ _ _ _ _ Hall Hn) as (b' & Hb' & _ & Hq').
  destruct (Hq' _ Hq2) as [p2 Heq].
  change (p1 ++ b :: prefix) with (p1 ++ [b] ++ prefix) in Heq.
  change (p2 ++ b' :: prefix) with (p2 ++ [b'] ++ prefix) in Heq.
  rewrite !app_assoc in Heq. apply app_inv_tail in Heq.
  apply app_inj_tail in Heq as [_ ->].
  apply Hb. by eapply list_elem_of_lookup_2.
Qed.

Lemma _enumerate_paths_NoDup fuel i prefix paths :
  (∀ bset, bset ∈ store → NoDup (branches bset)) →
  _enumerate_paths store child fuel i prefix = Some paths →
  NoDup paths.
Proof.
  intros Hstore. revert i prefix paths.
  induction fuel as [|fuel IH]; intros i prefix paths H; [done|].
  cbn [_enumerate_paths] in H.
  destruct (store !! i) as [bset|] eqn:Hi; [|done]. cbn in H.
  destruct (mapM _ (branches bset)) as [k|] eqn:Hm; [|done].
  cbn in H. simplify_eq. apply mapM_Some in Hm.
  apply (NoDup_concat_paths (branches bset) k prefix).
  { apply Hstore. by eapply list_elem_of_lookup_2. }
  eapply Forall2_impl; [exact Hm|]. simpl. intros b ps Hf.
  destruct (child !! branch_id b) as [j|] eqn:Hj.
  - split; [by eapply IH|]. intros q Hq.
    destruct (_enumerate_paths_sound _ _ _ _ _ Hf Hq) as (p & _ & ->).
    by exists (rev p).
  - simplify_eq. split; [apply NoDup_singleton|].
    intros q Hq. apply list_elem_of_singleton in Hq as ->. by exists [].
Qed.

Lemma flatten_path_weight (path : list (@Branch F G)) :
  (flatten_path path).1 = path_weight (rev path).
Proof.
  unfold flatten_path, path_weight. simpl. symmetry.
  apply (fold_left_rev_right (λ b w, Decimal.mul w (weight b))).
Qed.

Lemma tree_path_branches i p b :
  tree_path store child i p → b ∈ p → b ∈ all_branches store.
Proof.
  induction 1 as [i bset b0 Hi Hb Hj|i bset b0 j p Hi Hb Hj Hp IH];
    intros Hin.
  - apply list_elem_of_singleton in Hin as ->.
    apply elem_of_all_branches. eauto.
  - apply elem_of_cons in Hin as [->|Hin]; [|by apply IH].
    apply elem_of_all_branches. eauto.
Qed.
End EnumerationExact.

Lemma ids_determine_branches {F G : Type} (tb : gmap string (@Branch F G))
    (p q : list (@Branch F G)) :
  (∀ b, b ∈ p → tb !! branch_id b = Some b) →
  (∀ b, b ∈ q → tb !! branch_id b = Some b) →
  branch_id <$> p = branch_id <$> q → p = q.
Proof.
  revert q. induction p as [|b p IH]; intros [|b' q] Hp Hq Heq; try done.
  rewrite !fmap_cons in Heq. injection Heq as Hb Heq.
  pose proof (Hp b (list_elem_of_here _ _)) as H1.
  pose proof (Hq b' (list_elem_of_here _ _)) as H2.
  rewrite Hb in H1. assert (b = b') as -> by congruence.
  f_equal. apply IH; [| |done].
  - intros x Hx. apply Hp. by apply list_elem_of_further.
  - intros x Hx. apply Hq. by apply list_elem_of_further.
Qed.

(** X4. Full enumeration of a constructed tree yields exactly the paths of
    the tree, each once: every yielded path starts at a branch of the root
    branchset, goes on through the child branchset of each branch and ends
    at a branch without one; every such path is yielded; no path and no
    sequence of branch ids is yielded twice; and the weight of a path is
    1.0 multiplied by the weights from its last branch back to its first. *)
Theorem enumeration_is_exact {F G V : Type} (hooks : @Hooks F G V)
    (v : V) (content : list BranchingLevelNode) (basepath filename : string)
    (validate : bool) (seed0 n0 : Z) (self : @BaseLogicTree F G V) root :
  apply_spec (apply_branchset hooks) →
  init hooks v content basepath filename validate seed0 n0 = Ok self →
  root_branchset self = Some root →
  ∃ paths : list (Decimal.t * list (@Branch F G)),
    (∀ fuel, (length (branchsets self) ≤ fuel)%nat →
       enumerate_paths (branchsets self) (child_branchset self) fuel root
       = Some paths)
    ∧ (∀ p, p ∈ paths.*2
            ↔ tree_path (branchsets self) (child_branchset self) root p)
    ∧ NoDup (paths.*2)
    ∧ NoDup ((λ wp : Decimal.t * list (@Branch F G), branch_id <$> wp.2)
             <$> paths)
    ∧ Forall (λ wp, wp.1 = path_weight wp.2) paths.
Proof.
  intros Happly Hinit Hroot.
  apply (init_well_formed hooks Happly) in Hinit as ([lev Hinv] & _).
  destruct (root_level self lev _ _ Hinv) as [Hr [l Hl]];
    [by rewrite Hroot|].
  assert (root = 0%nat) as -> by congruence.
  destruct (enumerate_paths_bounds self lev _ _ (λ _, 1%nat)
              (length (branchsets self)) 0%nat l [] Hinv
              (trivial_lower_bound _ _) Hl)
    as (raw & Hraw & _); [lia|].
  assert (Hsnd : (map flatten_path raw).*2 = @rev (@Branch F G) <$> raw).
  { clear. induction raw as [|x raw IH]; [done|].
    cbn [map]. rewrite !fmap_cons. by rewrite IH. }
  assert (Hbset : ∀ bset, bset ∈ branchsets self → NoDup (branches bset)).
  { intros bset Hin. eapply NoDup_fmap_1.
    eapply NoDup_branchset_ids; [|done]. apply (inv_nodup _ _ _ _ Hinv). }
  assert (Hpaths : NoDup (@rev (@Branch F G) <$> raw)).
  { apply NoDup_fmap_2; [|by eapply _enumerate_paths_NoDup].
    intros x y Hxy. by rewrite <- (rev_involutive x), Hxy, rev_involutive. }
  assert (Hiff : ∀ p, p ∈ @rev (@Branch F G) <$> raw
                      ↔ tree_path (branchsets self) (child_branchset self)
                          0%nat p).
  { intros p. split.
    - intros Hp. apply list_elem_of_fmap in Hp as (q & -> & Hq).
      destruct (_enumerate_paths_sound _ _ _ _ _ _ _ Hraw Hq) as (p & Hp & ->).
      by rewrite app_nil_r, rev_involutive.
    - intros Hp. apply list_elem_of_fmap. exists (rev p).
      split; [by rewrite rev_involutive|].
      eapply _enumerate_paths_complete in Hp; [|done].
      by rewrite app_nil_r in Hp. }
  exists (map flatten_path raw). split_and!.
  - intros fuel Hfuel. unfold enumerate_paths.
    by rewrite (_enumerate_paths_fuel _ _ _ _ _ _ _ Hfuel Hraw).
  - intros p. by rewrite Hsnd.
  - by rewrite Hsnd.
  - assert (Heq : (λ wp : Decimal.t * list (@Branch F G), branch_id <$> wp.2)
                  <$> map flatten_path raw
                  = (fmap branch_id) <$> (@rev (@Branch F G) <$> raw)).
    { clear. induction raw as [|x raw IH]; [done|].
      cbn [map]. rewrite !fmap_cons. by rewrite IH. }
    rewrite Heq. apply NoDup_fmap_2_strong; [|done].
    intros p q Hp Hq Hids. apply Hiff in Hp, Hq.
    apply (ids_determine_branches (tree_branches self)); [| |done].
    + intros b Hb. apply (inv_lookup _ _ _ _ Hinv).
      exact (tree_path_branches _ _ _ _ _ Hp Hb).
    + intros b Hb. apply (inv_lookup _ _ _ _ Hinv).
      exact (tree_path_branches _ _ _ _ _ Hq Hb).
  - apply Forall_forall. intros wp Hwp.
    apply list_elem_of_fmap in Hwp as (q & -> & _).
    rewrite flatten_path_weight. done.
Qed.

Lemma enumeration_is_exact_witness :
  apply_spec (apply_branchset Examples.sm_hooks)
  ∧ ∃ self,
      Examples.sm_new Examples.applied_to_a "base" "lt.xml" true 0 0 = Ok self
      ∧ root_branchset self = Some 0%nat
      ∧ ∃ paths : list (Decimal.t * list (@Branch string string)),
          (∀ fuel, (length (branchsets self) ≤ fuel)%nat →
             enumerate_paths (branchsets self) (child_branchset self) fuel
               0%nat = Some paths)
          ∧ (∀ p, p ∈ paths.*2
                  ↔ tree_path (branchsets self) (child_branchset self)
                      0%nat p)
          ∧ NoDup (paths.*2)
          ∧ NoDup ((λ wp : Decimal.t * list (@Branch string string),
                      branch_id <$> wp.2) <$> paths)
          ∧ Forall (λ wp, wp.1 = path_weight wp.2) paths.
Proof.
  split; [apply sm_apply_spec|].
  destruct (Examples.sm_new Examples.applied_to_a "base" "lt.xml" true 0 0)
    as [self|e] eqn:Hnew; [|by vm_compute in Hnew].
  exists self. split; [done|].
  assert (Hroot : root_branchset self = Some 0%nat).
  { vm_compute in Hnew. by injection Hnew as <-. }
  split; [done|].
  apply (enumeration_is_exact Examples.sm_hooks
           (SourceModelLogicTree.mkAttrs ∅ ∅ ∅) Examples.applied_to_a
           "base" "lt.xml" true 0 0 self 0%nat sm_apply_spec Hnew Hroot).
Defined.

(** ** Sampling yields paths of the tree *)
Section SampledPaths.
Context {F G V Rng : Type} (random : Rng → Q * Rng).
Context (store : list (@BranchSet F G)) (child : gmap string bsref).

Lemma sample_one_from_elem (bs : list (@Branch F G)) acc d b :
  sample_one_from acc bs d = Ok b → b ∈ bs.
Proof.
  intros H. apply sample_one_from_first in H as (k & Hk & _).
  by eapply list_elem_of_lookup_2.
Qed.

Lemma sample_path_loop_tree_path fuel start ids rnd ids' rnd' :
  sample_path_loop random store child fuel start ids rnd
    = Some (Ok ids', rnd') →
  match start with
  | None => ids' = ids
  | Some i => ∃ p, tree_path store child i p
                   ∧ ids' = ids ++ (branch_id <$> p)
  end.
Proof.
  revert start ids rnd. induction fuel as [|fuel IH]; intros start ids rnd H.
  - destruct start; [done|]. simpl in H. by simplify_eq.
  - destruct start as [i|]; [|simpl in H; by simplify_eq].
    cbn [sample_path_loop] in H.
    destruct (store !! i) as [bset|] eqn:Hi; [|done]. cbn -[sample] in H.
    rewrite sample_1 in H.
    destruct (sample_one_from _ _ _) as [b|] eqn:Hb; [|done].
    apply sample_one_from_elem in Hb.
    apply IH in H. destruct (child !! branch_id b) as [j|] eqn:Hj.
    + destruct H as (p & Hp & ->). exists (b :: p).
      split; [by eapply path_step|]. by rewrite <- app_assoc.
    + subst ids'. exists [b]. split; [by eapply path_leaf|done].
Qed.
End SampledPaths.

Section SampledRealizations.
Context {F G V Rng : Type} (random : Rng → Q * Rng).
Implicit Types (s : @BaseLogicTree F G V).

Lemma sample_path_tree_path s fuel rnd name ids rnd' :
  (∀ bset, bset ∈ branchsets s → NoDup (branch_id <$> branches bset)) →
  sample_path random fuel s rnd = Some (Ok (name, ids), rnd') →
  ∃ root b p,
    root_branchset s = Some root
    ∧ tree_path (branchsets s) (child_branchset s) root (b :: p)
    ∧ ids = branch_id <$> b :: p
    ∧ name = value b.
Proof.
  intros Hnd H. unfold sample_path in H.
  destruct (sample_path_loop _ _ _ _ _ _ _) as [[[ids0|e] rnd0]|] eqn:Hl;
    cbn in H; [|done..].
  destruct (root_branchset s) as [root|] eqn:Hroot; [|done].
  destruct (branchsets s !! root) as [bset|] eqn:Hbset; [|done]. cbn in H.
  destruct ids0 as [|first rest]; [done|].
  destruct (get_branch_by_id _ _) as [b'|] eqn:Hg; [|done].
  cbn in H. simplify_eq.
  apply sample_path_loop_tree_path in Hl as (p & Hp & Hids).
  simpl in Hids. exists root.
  destruct p as [|b p]; [done|]. rewrite fmap_cons in Hids. simplify_eq.
  exists b, p. split_and!; [done..|].
  assert (Hb : b ∈ branches bset).
  { inversion Hp; simplify_eq; done. }
  rewrite get_branch_by_id_found in Hg; [by simplify_eq| |done].
  apply Hnd. by eapply list_elem_of_lookup_2.
Qed.

Lemma iter_samples_tree_paths s fuel n rnd rlzs :
  (∀ bset, bset ∈ branchsets s → NoDup (branch_id <$> branches bset)) →
  iter_samples random fuel s n rnd = Some (Ok rlzs) →
  Forall (λ r,
    ∃ root b p,
      root_branchset s = Some root
      ∧ tree_path (branchsets s) (child_branchset s) root (b :: p)
      ∧ lt_path r = branch_id <$> b :: p
      ∧ rlz_value r = value b) rlzs.
Proof.
  intros Hnd. revert rnd rlzs. induction n as [|n IH]; intros rnd rlzs H.
  - simpl in H. simplify_eq. constructor.
  - cbn [iter_samples] in H.
    destruct (sample_path random fuel s rnd) as [[[[name ids]|e] rnd1]|]
      eqn:Hp; cbn in H; [|done..].
    destruct (iter_samples random fuel s n rnd1) as [[rest|e]|] eqn:Hr;
      cbn in H; [|done..].
    simplify_eq. constructor; [|by eapply IH].
    simpl. by eapply sample_path_tree_path.
Qed.
End SampledRealizations.

(** X5. Random sampling of a constructed tree yields only paths of the
    tree: every sampled realization follows one branch of the root
    branchset and then the child branchsets down to a branch without one,
    its value is the value of its first branch, its weight is [None], and
    full enumeration of the same tree yields the same path. *)
Theorem sampled_paths_are_enumerated {F G V Rng : Type}
    (hooks : @Hooks F G V)
    (random : Rng → Q * Rng) (Random : Z → Rng)
    (v : V) (content : list BranchingLevelNode) (basepath filename : string)
    (validate : bool) (seed0 n : Z) (self : @BaseLogicTree F G V) root :
  apply_spec (apply_branchset hooks) →
  unit_draws random →
  init hooks v content basepath filename validate seed0 n = Ok self →
  n ≠ 0 →
  root_branchset self = Some root →
  ∃ rlzs,
    (∀ fuel, (length (branchsets self) ≤ fuel)%nat →
       iter random Random fuel self = Some (Ok rlzs))
    ∧ Forall (λ r,
        rlz_weight r = None
        ∧ ∃ b p,
            tree_path (branchsets self) (child_branchset self) root (b :: p)
            ∧ lt_path r = branch_id <$> b :: p
            ∧ rlz_value r = value b
            ∧ ∀ fuel paths,
                enumerate_paths (branchsets self) (child_branchset self)
                  fuel root = Some paths →
                (path_weight (b :: p), b :: p) ∈ paths) rlzs.
Proof.
  intros Happly Hdraw Hinit Hn Hroot.
  apply (init_well_formed hooks Happly) in Hinit
    as ([lev Hinv] & Hseed & Hnum).
  destruct (root_level self lev _ _ Hinv) as [_ [l Hl]];
    [by rewrite Hroot|].
  destruct (iter_samples_bounds random self lev (length content)
              (length content) (λ _, 1%nat)
              (length (branchsets self)) (Z.to_nat n) (Random seed0) l)
    as (rlzs & Hr & _ & HF);
    [done|done|by apply trivial_lower_bound|by rewrite Hroot|done..|].
  exists rlzs. split.
  - intros fuel Hfuel. unfold iter. rewrite Hnum, Hseed.
    rewrite decide_True by done. by eapply iter_samples_fuel.
  - apply iter_samples_tree_paths in Hr.
    2:{ intros bset Hin. eapply NoDup_branchset_ids; [|done].
        apply (inv_nodup _ _ _ _ Hinv). }
    apply Forall_forall. intros r Hin.
    rewrite Forall_forall in HF, Hr.
    destruct (HF _ Hin) as [_ Hw].
    destruct (Hr _ Hin) as (root' & b & p & Hroot' & Hp & Hids & Hval).
    assert (root' = root) as -> by congruence.
    split; [done|]. exists b, p. split_and!; [done..|].
    intros fuel paths He. unfold enumerate_paths in He.
    destruct (_enumerate_paths _ _ _ _ _) as [raw|] eqn:Hraw; [|done].
    simplify_eq.
    eapply _enumerate_paths_complete in Hp; [|done].
    rewrite app_nil_r in Hp.
    apply list_elem_of_fmap. exists (rev (b :: p)). split; [|done].
    unfold flatten_path. rewrite rev_involutive. f_equal.
    change (fold_left _ _ _) with (flatten_path (rev (b :: p))).1.
    by rewrite flatten_path_weight, rev_involutive.
Qed.

Lemma sampled_paths_are_enumerated_witness :
  apply_spec (apply_branchset Examples.sm_hooks)
  ∧ unit_draws Examples.random
  ∧ ∃ self,
      Examples.sm_new Examples.applied_to_a "base" "lt.xml" false 42 5
      = Ok self
      ∧ root_branchset self = Some 0%nat
      ∧ ∃ rlzs,
          (∀ fuel, (length (branchsets self) ≤ fuel)%nat →
             iter Examples.random Examples.Random fuel self = Some (Ok rlzs))
          ∧ Forall (λ r,
              rlz_weight r = None
              ∧ ∃ b p,
                  tree_path (branchsets self) (child_branchset self) 0%nat
                    (b :: p)
                  ∧ lt_path r = branch_id <$> b :: p
                  ∧ rlz_value r = value b
                  ∧ ∀ fuel paths,
                      enumerate_paths (branchsets self)
                        (child_branchset self) fuel 0%nat = Some paths →
                      (path_weight (b :: p), b :: p) ∈ paths) rlzs.
Proof.
  split; [apply sm_apply_spec|]. split; [apply example_unit_draws|].
  destruct (Examples.sm_new Examples.applied_to_a "base" "lt.xml" false 42 5)
    as [self|e] eqn:Hnew; [|by vm_compute in Hnew].
  exists self. split; [done|].
  assert (Hroot : root_branchset self = Some 0%nat).
  { vm_compute in Hnew. by injection Hnew as <-. }
  split; [done|].
  apply (sampled_paths_are_enumerated Examples.sm_hooks
           Examples.random Examples.Random
           (SourceModelLogicTree.mkAttrs ∅ ∅ ∅) Examples.applied_to_a
           "base" "lt.xml" false 42 5 self 0%nat sm_apply_spec
           example_unit_draws Hnew ltac:(lia) Hroot).
Defined.

(** ** SourceModelLogicTree.apply_branchset *)
Section ApplyToBranches.
Context {F G : Type}.
Implicit Types (s : @BaseLogicTree F G SourceModelLogicTree.attrs).

Lemma foldl_insert_lookup (ref : bsref) (ids : list string)
    (c : gmap string bsref) id :
  foldl (λ c id, <[id := ref]> c) c ids !! id
  = if decide (id ∈ ids) then Some ref else c !! id.
Proof.
  revert c. induction ids as [|x ids IH]; intros c; [done|].
  simpl. rewrite IH. destruct (decide (id ∈ ids)) as [Hin|Hin].
  - rewrite decide_True; [done|by apply list_elem_of_further].
  - destruct (decide (x = id)) as [->|Hne].
    + rewrite decide_True by apply list_elem_of_here.
      by rewrite lookup_insert_eq.
    + rewrite decide_False.
      * by rewrite lookup_insert_ne.
      * intros [?|?]%elem_of_cons; congruence.
Qed.

Lemma apply_to_branches_iff (ref : bsref) ids s s' :
  SourceModelLogicTree.apply_to_branches ref s ids = Ok s' ↔
  NoDup ids
  ∧ (∀ id, id ∈ ids →
       is_Some (tree_branches s !! id)
       ∧ child_branchset s !! id = None
       ∧ id ∈ open_ends s)
  ∧ s' = set_child_branchset s
           (foldl (λ c id, <[id := ref]> c) (child_branchset s) ids).
Proof.
  revert s. induction ids as [|x ids IH]; intros s.
  - simpl. split.
    + intros [= <-]. split_and!; [constructor| |by destruct s].
      intros id Hid. by apply elem_of_nil in Hid.
    + intros (_ & _ & ->). by destruct s.
  - cbn [SourceModelLogicTree.apply_to_branches]. split.
    + intros H. case_decide as Hdef; [done|].
      case_decide as Hchild; [done|]. case_decide as Hopen; [done|].
      apply IH in H as (Hnd & Hall & ->). simpl in *.
      assert (Hx : x ∉ ids).
      { intros Hin. destruct (Hall _ Hin) as (_ & Hc & _).
        by rewrite lookup_insert_eq in Hc. }
      split_and!; [by constructor| |done].
      intros id [->|Hin]%elem_of_cons.
      * split_and!; [|by apply eq_None_not_Some|done].
        by destruct (tree_branches s !! x); [eauto|].
      * destruct (Hall _ Hin) as (Hd & Hc & Ho). split_and!; [done| |done].
        rewrite lookup_insert_ne in Hc; [done|]. by intros ->.
    + intros (Hnd & Hall & ->). apply NoDup_cons in Hnd as [Hx Hnd].
      destruct (Hall x) as (Hd & Hc & Ho); [apply list_elem_of_here|].
      rewrite decide_False by (by intros Hn; rewrite Hn in Hd; destruct Hd).
      rewrite decide_False by (by rewrite Hc; intros []).
      rewrite decide_False by (by intros Hn).
      apply IH. split_and!; [done| |done].
      intros id Hin. destruct (Hall id) as (Hd' & Hc' & Ho');
        [by apply list_elem_of_further|].
      simpl. split_and!; [done| |done].
      rewrite lookup_insert_ne; [done|]. by intros ->.
Qed.

Lemma apply_to_branches_raise (ref : bsref) ids s e :
  SourceModelLogicTree.apply_to_branches ref s ids = Raise e →
  ∃ id, id ∈ ids
        ∧ (e = ValidationError (BranchNotYetDefined id)
           ∨ e = ValidationError (BranchHasChild id)
           ∨ e = ValidationError ApplyToBranchesLevel).
Proof.
  revert s. induction ids as [|x ids IH]; intros s H; [done|].
  cbn [SourceModelLogicTree.apply_to_branches] in H.
  repeat case_decide; simplify_eq;
    try (exists x; split; [apply list_elem_of_here|by auto]).
  apply IH in H as (id & Hin & He). exists id.
  split; [by apply list_elem_of_further|done].
Qed.
End ApplyToBranches.

(** X6. A source model branchset with a non-empty [applyToBranches]
    attribute is applied exactly when the ids of the attribute are
    pairwise different and each names a branch of the tree that has no
    child branchset yet and is an open end of the previous level; then
    these branches, and no others, get the branchset as their child and
    nothing else of the tree changes.  In every other case a
    ValidationError is raised; in particular an id named twice is
    rejected, not applied twice. *)
Theorem apply_to_branches_exactly {F G : Type}
    (node : BranchSetNode) (ref : nat) (text : string)
    (self self' : @BaseLogicTree F G SourceModelLogicTree.attrs) :
  attrib node !! "applyToBranches"%string = Some text →
  text ≠ ""%string →
  (SourceModelLogicTree.apply_branchset node ref self = Ok self'
   ↔ NoDup (String.words text)
     ∧ (∀ id, id ∈ String.words text →
          is_Some (tree_branches self !! id)
          ∧ child_branchset self !! id = None
          ∧ id ∈ open_ends self)
     ∧ self' = set_child_branchset self (child_branchset self')
     ∧ ∀ id, child_branchset self' !! id
             = if decide (id ∈ String.words text) then Some ref
               else child_branchset self !! id)
  ∧ (∀ e, SourceModelLogicTree.apply_branchset node ref self = Raise e →
          is_validation e).
Proof.
  intros Hattr Htext. unfold SourceModelLogicTree.apply_branchset.
  rewrite Hattr. rewrite decide_False by done. split.
  - rewrite apply_to_branches_iff. split.
    + intros (Hnd & Hall & ->). split_and!; [done..|].
      intros id. simpl. apply foldl_insert_lookup.
    + intros (Hnd & Hall & Hs & Hc). split_and!; [done..|].
      rewrite Hs. f_equal. apply map_eq. intros id.
      by rewrite Hc, foldl_insert_lookup.
  - intros e He. apply apply_to_branches_raise in He as (id & _ & He).
    destruct He as [->|[->| ->]]; done.
Qed.

Lemma apply_to_branches_exactly_witness :
  ∃ self self',
    Examples.sm_new MoreExamples.one_level "base" "lt.xml" false 0 0
    = Ok self
    ∧ attrib MoreExamples.node_for_a !! "applyToBranches"%string
      = Some "A"%string
    ∧ SourceModelLogicTree.apply_branchset MoreExamples.node_for_a 1%nat self
      = Ok self'
    ∧ NoDup (String.words "A")
    ∧ child_branchset self' !! "A"%string = Some 1%nat
    ∧ child_branchset self' !! "B"%string = None.
Proof.
  destruct (Examples.sm_new MoreExamples.one_level "base" "lt.xml" false 0 0)
    as [self|e] eqn:Hnew; [|by vm_compute in Hnew].
  destruct (SourceModelLogicTree.apply_branchset MoreExamples.node_for_a
              1%nat self) as [self'|e] eqn:Happ.
  2:{ vm_compute in Hnew. injection Hnew as <-. by vm_compute in Happ. }
  exists self, self'. split; [done|].
  assert (Hattr : attrib MoreExamples.node_for_a !! "applyToBranches"%string
                  = Some "A"%string) by reflexivity.
  split; [done|]. split; [done|].
  destruct (apply_to_branches_exactly MoreExamples.node_for_a 1%nat "A"
              self self' Hattr ltac:(done)) as [Hiff _].
  apply Hiff in Happ as (Hnd & _ & _ & Hc).
  split; [done|]. rewrite !Hc. split.
  - vm_compute. reflexivity.
  - vm_compute in Hnew. injection Hnew as <-. vm_compute. reflexivity.
Defined.

(** An id named twice in [applyToBranches] is rejected. *)
Example apply_to_branches_twice :
  ∃ self,
    Examples.sm_new MoreExamples.one_level "base" "lt.xml" false 0 0
    = Ok self
    ∧ SourceModelLogicTree.apply_branchset MoreExamples.node_for_a_twice
        1%nat self
      = Raise (ValidationError (BranchHasChild "A")).
Proof. eexists. split; vm_compute; reflexivity. Qed.

(** ** The shape of a validated source model tree *)
Section SmShapeProofs.
Context {F G : Type}.
Context (float : string → option F).
Context (read_source_model
           : string → result (list SourceModelLogicTree.SourceNode)).
Abbreviation sm := (@SourceModelLogicTree.hooks F G float read_source_model).
Implicit Types (bset : @BranchSet F G).

Lemma sm_validate_branchset_ok v node d k bset :
  SourceModelLogicTree.validate_branchset v node d k bset = Ok () →
  (d = 0%nat → k = 0%nat ∧ uncertainty_type bset = "sourceModel"%string)
  ∧ (d ≠ 0%nat → uncertainty_type bset ≠ "sourceModel"%string
                 ∧ uncertainty_type bset ≠ "gmpeModel"%string).
Proof.
  unfold SourceModelLogicTree.validate_branchset. intros H.
  destruct (decide (d = 0%nat)) as [->|Hd].
  - destruct (decide (0 < k)%nat) as [Hk|Hk]; [done|].
    destruct (decide (uncertainty_type bset ≠ "sourceModel"%string))
      as [Hsm|Hsm]; [done|].
    split; [|done]. intros _. split; [lia|by apply dec_stable].
  - destruct (decide (uncertainty_type bset = "sourceModel"%string))
      as [Hsm|Hsm]; [done|].
    destruct (decide (uncertainty_type bset = "gmpeModel"%string))
      as [Hg|Hg]; [done|].
    split; [done|]. by intros _.
Qed.

Lemma sm_validate_filters_source_model v node raw v' :
  SourceModelLogicTree.validate_filters v node "sourceModel" raw = Ok v' →
  raw = ∅.
Proof.
  unfold SourceModelLogicTree.validate_filters. intros H.
  case_decide as Hsm; [done|]. apply dec_stable. intros Hne. by apply Hsm.
Qed.

Lemma sm_parse_filters_empty node ut :
  @SourceModelLogicTree.parse_filters node ut ∅ = ∅.
Proof.
  unfold SourceModelLogicTree.parse_filters.
  rewrite lookup_empty. apply fmap_empty.
Qed.

Lemma sm_parsed_value node b n :
  parsed_value sm node b n →
  if decide (uncertaintyType node = "sourceModel"%string)
  then value b = VText (strip (uncertaintyModel n))
  else if decide (uncertaintyType node = "abGRAbsolute"%string)
  then ∃ a_val b_val, value b = VPair a_val b_val
  else ∃ x, value b = VFloat x.
Proof.
  intros (v & bset0 & Hut & _ & Hp). cbn in Hp.
  unfold SourceModelLogicTree.parse_uncertainty_value in Hp.
  rewrite Hut in Hp. repeat case_decide.
  - by simplify_eq.
  - destruct (String.words _) as [|a [|b' [|]]]; try done.
    destruct (SourceModelLogicTree.py_float float a); [|done]. cbn in Hp.
    destruct (SourceModelLogicTree.py_float float b'); [|done]. cbn in Hp.
    simplify_eq. eauto.
  - destruct (SourceModelLogicTree.py_float float _); [|done]. cbn in Hp.
    simplify_eq. eauto.
Qed.

Lemma sm_step_shape d k node s s1 bset0 s2 bset :
  parse_branchset sm s node d k true = Ok (s1, bset0) →
  parse_branches sm s1 node bset0 true = Ok (s2, bset) →
  (d = 0%nat → k = 0%nat ∧ source_model_branchset bset)
  ∧ (d ≠ 0%nat → uncertainty_branchset bset).
Proof.
  intros Hbs Hbr.
  pose proof (parse_branches_mirrors _ _ _ _ _ _ _ _ _ _ Hbs Hbr)
    as (Hut & Hfi & Hvals).
  apply parse_branchset_inv in Hbs as (-> & Hvf & Hvb). cbn in Hvf, Hvb.
  apply sm_validate_branchset_ok in Hvb as [H0 Hn]. simpl in H0, Hn.
  split.
  - intros Hd. destruct (H0 Hd) as [-> Hsm]. split; [done|].
    unfold source_model_branchset. rewrite Hut, Hfi. split_and!; [done| |].
    + unfold node_filters. cbn. rewrite Hsm in Hvf.
      apply sm_validate_filters_source_model in Hvf. rewrite Hvf.
      apply sm_parse_filters_empty.
    + apply Forall_forall. intros b Hb.
      apply list_elem_of_lookup in Hb as [i Hi].
      destruct (Forall2_lookup_l _ _ _ _ _ Hvals Hi) as (n & _ & _ & _ & Hp).
      apply sm_parsed_value in Hp. rewrite decide_True in Hp by done. eauto.
  - intros Hd. destruct (Hn Hd) as [Hsm Hg].
    unfold uncertainty_branchset. rewrite Hut. split_and!; [done..|].
    apply Forall_forall. intros b Hb.
    apply list_elem_of_lookup in Hb as [i Hi].
    destruct (Forall2_lookup_l _ _ _ _ _ Hvals Hi) as (n & _ & _ & _ & Hp).
    apply sm_parsed_value in Hp. by rewrite decide_False in Hp.
Qed.

Lemma sm_validated_shape content basepath filename seed0 n0
    (self : @BaseLogicTree F G SourceModelLogicTree.attrs) :
  SourceModelLogicTree.new float read_source_model content basepath
    filename true seed0 n0 = Ok self →
  match content with
  | [] => branchsets self = []
  | level0 :: _ => sm_shape level0 (branchsets self)
  end.
Proof.
  intros Hnew. unfold SourceModelLogicTree.new in Hnew.
  pose (I := λ (d k : nat) (_ : SourceModelLogicTree.attrs)
               (store : list (@BranchSet F G)),
    match d, k with
    | O, O => store = []
    | O, S k' => k' = 0%nat
                 ∧ ∃ root, store = [root] ∧ source_model_branchset root
    | S _, _ => match content with
                | [] => True
                | level0 :: _ => sm_shape level0 store
                end
    end).
  assert (HI : I (length content) 0%nat (variant self) (branchsets self)).
  { apply (store_induction sm true content I sm_apply_spec)
      with (v := SourceModelLogicTree.mkAttrs ∅ ∅ ∅) (basepath := basepath)
           (filename := filename) (seed0 := seed0) (n0 := n0);
      [| | |done|done].
    - intros d k level node s s1 bset0 s2 bset Hd Hk HI Hskip Hbs Hbr.
      destruct (sm_step_shape _ _ _ _ _ _ _ _ Hbs Hbr) as [H0 Hn].
      destruct d as [|d].
      + destruct (H0 eq_refl) as [-> Hroot]. simpl in HI. rewrite HI.
        simpl. split; [done|]. by exists bset.
      + specialize (Hn ltac:(done)). simpl in *.
        destruct content as [|level0 content']; [done|].
        unfold sm_shape in *. destruct level0 as [|n0' others].
        * apply Forall_app. split; [done|]. by constructor.
        * destruct HI as (-> & root & rest & -> & Hroot & Hrest).
          split; [done|]. exists root, (rest ++ [bset]).
          split_and!; [done..|].
          apply Forall_app. split; [done|]. by constructor.
    - intros d k level node v0 store Hd Hk HI Hskip. by cbn in Hskip.
    - intros d level v0 store Hd HI. destruct d as [|d].
      + simpl. destruct content as [|level0 content']; [done|].
        simpl in Hd. simplify_eq. unfold sm_shape.
        destruct level as [|n0' others].
        * simpl in HI. rewrite HI. constructor.
        * simpl in HI. destruct HI as (Hlen & root & -> & Hroot).
          split; [by destruct others|].
          exists root, []. by split_and!.
      + done. }
  destruct content as [|level0 content']; [done|]. done.
Qed.
End SmShapeProofs.

(** X7. In a validated source model tree whose document has a non-empty
    first branching level, that level has exactly one branchset node; the
    first branchset of the tree is of type sourceModel, has no filters and
    file names as branch values; every other branchset is of a type other
    than sourceModel and gmpeModel, with floats as branch values, or pairs
    of floats for abGRAbsolute. *)
Theorem validated_source_model_tree_shape {F G : Type}
    (float : string → option F)
    (read_source_model
       : string → result (list SourceModelLogicTree.SourceNode))
    (node : BranchSetNode) (others : list BranchSetNode)
    (levels : list BranchingLevelNode)
    (basepath filename : string) (seed0 n0 : Z)
    (self : @BaseLogicTree F G SourceModelLogicTree.attrs) :
  SourceModelLogicTree.new float read_source_model
    ((node :: others) :: levels) basepath filename true seed0 n0 = Ok self →
  others = []
  ∧ ∃ root rest,
      branchsets self = root :: rest
      ∧ root_branchset self = Some 0%nat
      ∧ source_model_branchset root
      ∧ Forall uncertainty_branchset rest.
Proof.
  intros Hnew. pose proof Hnew as Hshape.
  apply sm_validated_shape in Hshape
    as (-> & root & rest & Hstore & Hroot & Hrest).
  split; [done|]. exists root, rest. split_and!; [done| |done..].
  apply (init_well_formed
           (SourceModelLogicTree.hooks float read_source_model)
           sm_apply_spec) in Hnew as ([lev Hinv] & _).
  rewrite (inv_root _ _ _ _ Hinv). by rewrite Hstore.
Qed.

Lemma validated_source_model_tree_shape_witness :
  ∃ self,
    Examples.sm_new Examples.two_levels "base" "lt.xml" true 0 0 = Ok self
    ∧ ∃ root rest,
        branchsets self = root :: rest
        ∧ root_branchset self = Some 0%nat
        ∧ source_model_branchset root
        ∧ Forall uncertainty_branchset rest.
Proof.
  destruct (Examples.sm_new Examples.two_levels "base" "lt.xml" true 0 0)
    as [self|e] eqn:Hnew; [|by vm_compute in Hnew].
  exists self. split; [done|].
  apply (validated_source_model_tree_shape Examples.float
           Examples.read_source_model _ _ _ "base" "lt.xml" 0 0 self Hnew).
Defined.

(** ** The value of a realization *)
Section RealizationValue.
Context {F G V Rng : Type} (random : Rng → Q * Rng) (Random : Z → Rng).
Implicit Types (s : @BaseLogicTree F G V).

Lemma mapM_enumerated (paths : list (Decimal.t * list (@Branch F G))) rlzs :
  mapM enumerated paths = Ok rlzs →
  Forall2 (λ wp r, ∃ b p, wp.2 = b :: p
                          ∧ r = mkLtRealization (value b) (Some wp.1)
                                  (branch_id <$> b :: p)) paths rlzs.
Proof.
  revert rlzs. induction paths as [|[w p] paths IH]; intros rlzs H.
  - cbn in H. injection H as <-. constructor.
  - cbn in H. destruct p as [|b p]; [done|]. cbn in H.
    destruct (mapM enumerated paths) as [rest|] eqn:Hm; [|done].
    cbn in H. injection H as <-. constructor; [|by apply IH].
    by exists b, p.
Qed.

Lemma iter_first_branch s fuel rlzs root :
  (∀ bset, bset ∈ branchsets s → NoDup (branch_id <$> branches bset)) →
  root_branchset s = Some root →
  iter random Random fuel s = Some (Ok rlzs) →
  Forall (λ r,
    ∃ b p,
      tree_path (branchsets s) (child_branchset s) root (b :: p)
      ∧ lt_path r = branch_id <$> b :: p
      ∧ rlz_value r = value b) rlzs.
Proof.
  intros Hnd Hroot H. unfold iter in H. case_decide.
  - apply iter_samples_tree_paths in H; [|done].
    eapply Forall_impl; [exact H|]. simpl.
    intros r (root' & b & p & Hr & Hp & Hids & Hval).
    assert (root' = root) as -> by congruence. by exists b, p.
  - rewrite Hroot in H. unfold enumerate_paths in H.
    destruct (_enumerate_paths _ _ _ _ _) as [raw|] eqn:Hraw; [|done].
    cbn in H. simplify_eq. apply mapM_enumerated in H.
    apply Forall_forall. intros r Hr.
    apply list_elem_of_lookup in Hr as [i Hi].
    destruct (Forall2_lookup_r _ _ _ _ _ H Hi)
      as (wp & Hwp & b & p & Hp & ->).
    apply list_elem_of_lookup_2, list_elem_of_fmap in Hwp
      as (q & -> & Hq).
    destruct (_enumerate_paths_sound _ _ _ _ _ _ _ Hraw Hq) as (p' & Hp' & ->).
    simpl in Hp. rewrite app_nil_r, rev_involutive in Hp. subst p'.
    by exists b, p.
Qed.
End RealizationValue.

(** X8. Every realization of a validated source model tree, enumerated or
    sampled, carries as its value the source model file name of the first
    branch of its path: the text of a branch node of the first branchset
    node of the document, without surrounding white space. *)
Theorem realization_value_is_source_model {F G Rng : Type}
    (float : string → option F)
    (read_source_model
       : string → result (list SourceModelLogicTree.SourceNode))
    (random : Rng → Q * Rng) (Random : Z → Rng)
    (node : BranchSetNode) (others : list BranchSetNode)
    (levels : list BranchingLevelNode)
    (basepath filename : string) (seed0 n0 : Z)
    (self : @BaseLogicTree F G SourceModelLogicTree.attrs) :
  unit_draws random →
  SourceModelLogicTree.new float read_source_model
    ((node :: others) :: levels) basepath filename true seed0 n0 = Ok self →
  ∃ rlzs,
    (∀ fuel, (length (branchsets self) ≤ fuel)%nat →
       iter random Random fuel self = Some (Ok rlzs))
    ∧ Forall (λ r,
        ∃ n, n ∈ logicTreeBranch node
             ∧ rlz_value r = VText (strip (uncertaintyModel n))
             ∧ head (lt_path r) = Some (branchID n)) rlzs.
Proof.
  intros Hdraw Hnew.
  pose (hooks := @SourceModelLogicTree.hooks F G float read_source_model).
  pose proof (sm_validated_shape _ _ _ _ _ _ _ _ Hnew)
    as (-> & root & rest & Hstore & (Hsm & _ & _) & _).
  assert (Hmirror : mirrors hooks root node).
  { pose proof Hnew as Hm. unfold SourceModelLogicTree.new in Hm.
    pose (I := λ (d k : nat) (_ : SourceModelLogicTree.attrs)
                 (store : list (@BranchSet F G)),
      match store with
      | [] => d = 0%nat ∧ k = 0%nat
      | first :: _ => mirrors hooks first node
      end).
    assert (HI : I (length ([node] :: levels)) 0%nat (variant self)
                   (branchsets self)).
    { apply (store_induction hooks true ([node] :: levels) I sm_apply_spec)
        with (v := SourceModelLogicTree.mkAttrs ∅ ∅ ∅)
             (basepath := basepath) (filename := filename)
             (seed0 := seed0) (n0 := n0); [| | |done|done].
      - intros d k level nd s s1 bset0 s2 bset Hd Hk HI Hskip Hbs Hbr.
        unfold I in *. destruct (branchsets s) as [|first store]; [|done].
        destruct HI as [-> ->]. cbn in Hd. injection Hd as <-.
        cbn in Hk. injection Hk as <-. simpl.
        by eapply parse_branches_mirrors.
      - intros d k level nd v0 store Hd Hk HI Hskip. by cbn in Hskip.
      - intros d level v0 store Hd HI. unfold I in *.
        destruct store as [|first store]; [|done].
        destruct HI as [-> Hk]. cbn in Hd. injection Hd as <-. done. }
    unfold I in HI. by rewrite Hstore in HI. }
  apply (init_well_formed hooks sm_apply_spec) in Hnew
    as ([lev Hinv] & _).
  assert (Hroot : root_branchset self = Some 0%nat).
  { rewrite (inv_root _ _ _ _ Hinv). by rewrite Hstore. }
  destruct (root_level self lev _ _ Hinv) as [_ [l Hl]];
    [by rewrite Hroot|].
  destruct (iter_bounds random Random self lev _ _ (λ _, 1%nat)
              (length (branchsets self)) l Hdraw Hinv
              (trivial_lower_bound _ _)) as (rlzs & Hit & _);
    [by rewrite Hroot|done..|].
  exists rlzs. split; [intros fuel Hfuel; by eapply iter_fuel|].
  apply iter_first_branch with (root := 0%nat) in Hit; [|  |done].
  2:{ intros bset Hin. eapply NoDup_branchset_ids; [|done].
      apply (inv_nodup _ _ _ _ Hinv). }
  eapply Forall_impl; [exact Hit|]. simpl.
  intros r (b & p & Hp & Hids & Hval).
  assert (Hb : b ∈ branches root).
  { inversion Hp; simplify_eq; rewrite Hstore in *; simpl in *;
      by simplify_eq. }
  destruct Hmirror as (Hut & _ & Hvals).
  apply list_elem_of_lookup in Hb as [i Hi].
  destruct (Forall2_lookup_l _ _ _ _ _ Hvals Hi) as (n & Hn & Hid & _ & Hpv).
  exists n. split_and!.
  - by eapply list_elem_of_lookup_2.
  - rewrite Hval. apply sm_parsed_value in Hpv.
    rewrite decide_True in Hpv; [done|]. by rewrite <- Hut.
  - rewrite Hids. simpl. by rewrite Hid.
Qed.

Lemma realization_value_is_source_model_witness :
  unit_draws Examples.random
  ∧ ∃ self,
      Examples.sm_new Examples.two_levels "base" "lt.xml" true 0 0 = Ok self
      ∧ ∃ rlzs,
          (∀ fuel, (length (branchsets self) ≤ fuel)%nat →
             iter Examples.random Examples.Random fuel self = Some (Ok rlzs))
          ∧ Forall (λ r,
              ∃ n, n ∈ [ mkBranchNode "A" (Examples.dec 3 (-1)) "model_a.xml";
                         mkBranchNode "B" (Examples.dec 7 (-1)) "model_b.xml" ]
                   ∧ rlz_value r = VText (strip (uncertaintyModel n))
                   ∧ head (lt_path r) = Some (branchID n)) rlzs.
Proof.
  split; [apply example_unit_draws|].
  destruct (Examples.sm_new Examples.two_levels "base" "lt.xml" true 0 0)
    as [self|e] eqn:Hnew; [|by vm_compute in Hnew].
  exists self. split; [done|].
  apply (realization_value_is_source_model Examples.float
           Examples.read_source_model Examples.random Examples.Random
           _ _ _ "base" "lt.xml" 0 0 self example_unit_draws Hnew).
Defined.

(** ** The filters of a validated source model tree *)
Lemma map_size_le_1 {A} (m : gmap string A) :
  (size m ≤ 1)%nat → m = ∅ ∨ ∃ k x, m = {[ k := x ]}.
Proof.
  intros Hsize. destruct (decide (size m = 0%nat)) as [H0|H0].
  - left. by apply map_size_empty_inv.
  - right. destruct (map_size_ne_0_lookup_1 m H0) as (k & x & Hk).
    exists k, x. rewrite <- (insert_delete_id m k x Hk).
    assert (Hd : delete k m = ∅).
    { apply map_size_empty_inv. rewrite map_size_delete_Some by eauto. lia. }
    rewrite Hd. by rewrite insert_empty.
Qed.

Section SmFiltersProofs.
Context {F G : Type}.
Context (float : string → option F).
Context (read_source_model
           : string → result (list SourceModelLogicTree.SourceNode)).
Abbreviation smh := (@SourceModelLogicTree.hooks F G float read_source_model).
Implicit Types (v : SourceModelLogicTree.attrs) (bset : @BranchSet F G).

Lemma attrs_le_refl v : attrs_le v v.
Proof. by split_and!. Qed.

Lemma attrs_le_trans v1 v2 v3 :
  attrs_le v1 v2 → attrs_le v2 v3 → attrs_le v1 v3.
Proof. intros (?&?&?) (?&?&?). split_and!; set_solver. Qed.

Lemma sm_filters_mono v v' fs :
  attrs_le v v' → sm_filters v fs → sm_filters v' fs.
Proof.
  intros (Hi & Ht & Hs) [H|[(trt & H & Hin)|[(st & H & Hin & Hst)
    |(ids & H & Hin)]]].
  - by left.
  - right. left. exists trt. split; [done|]. by apply Ht.
  - right. right. left. exists st. split_and!; [done| |done]. by apply Hs.
  - right. right. right. exists ids. split; [done|].
    intros id Hid. by apply Hi, Hin.
Qed.

Lemma sm_branchset_filters_mono v v' bset :
  attrs_le v v' → sm_branchset_filters v bset → sm_branchset_filters v' bset.
Proof.
  intros Hle (H1 & H2 & H3). split_and!; [|done..].
  by eapply sm_filters_mono.
Qed.

Lemma collect_fold_grows (nodes : list SourceModelLogicTree.SourceNode) v :
  let v' :=
    fold_left (λ self node,
      match list_find (λ t, SourceModelLogicTree.tag node = t +:+ "Source")
              SourceModelLogicTree.SOURCE_TYPES with
      | None => self
      | Some (_, source_type) =>
          SourceModelLogicTree.mkAttrs
            ({[ SourceModelLogicTree.id node ]}
             ∪ SourceModelLogicTree.source_ids self)
            ({[ SourceModelLogicTree.tectonicRegion node ]}
             ∪ SourceModelLogicTree.tectonic_region_types self)
            ({[ source_type ]} ∪ SourceModelLogicTree.source_types self)
      end) nodes v in
  attrs_le v v' ∧ (known_source_types v → known_source_types v').
Proof.
  revert v. induction nodes as [|n nodes IH]; intros v.
  - split; [apply attrs_le_refl|done].
  - cbn [fold_left].
    destruct (list_find (λ t, SourceModelLogicTree.tag n = t +:+ "Source")
                SourceModelLogicTree.SOURCE_TYPES) as [[i st]|] eqn:Hf;
      [|apply IH].
    destruct (IH (SourceModelLogicTree.mkAttrs
                    ({[SourceModelLogicTree.id n]}
                     ∪ SourceModelLogicTree.source_ids v)
                    ({[SourceModelLogicTree.tectonicRegion n]}
                     ∪ SourceModelLogicTree.tectonic_region_types v)
                    ({[st]} ∪ SourceModelLogicTree.source_types v)))
      as [Hle Hk].
    split.
    + eapply attrs_le_trans; [|exact Hle].
      split_and!; cbn; apply union_subseteq_r.
    + intros Hv. apply Hk. intros st' Hst'. cbn in Hst'.
      apply elem_of_union in Hst' as [Hst'|Hst']; [|by apply Hv].
      apply elem_of_singleton in Hst' as ->.
      apply list_find_Some in Hf as (Hl & _). by eapply list_elem_of_lookup_2.
Qed.

Lemma collect_source_model_data_grows v file v' :
  SourceModelLogicTree.collect_source_model_data read_source_model v file
    = Ok v' →
  attrs_le v v' ∧ (known_source_types v → known_source_types v').
Proof.
  unfold SourceModelLogicTree.collect_source_model_data. intros H.
  destruct (read_source_model file) as [nodes|]; [|done].
  unfold mbind, result_bind in H. injection H as <-.
  apply collect_fold_grows.
Qed.

Lemma sm_validate_uncertainty_value_grows v bset text v' :
  SourceModelLogicTree.validate_uncertainty_value read_source_model
    v bset text = Ok v' →
  attrs_le v v' ∧ (known_source_types v → known_source_types v').
Proof.
  unfold SourceModelLogicTree.validate_uncertainty_value. intros H.
  case_decide; [by apply collect_source_model_data_grows in H|].
  assert (v' = v) as ->; [|split; [apply attrs_le_refl|done]].
  case_decide.
  - destruct (String.words text) as [|a [|b [|]]]; try done.
    destruct (_ && _); by simplify_eq.
  - destruct (SourceModelLogicTree._float_re text); by simplify_eq.
Qed.

Lemma sm_parse_branch_loop_grows validate nodes ws
    (s : @BaseLogicTree F G SourceModelLogicTree.attrs) bset ws' s' bset' :
  parse_branch_loop smh validate (ws, s, bset) nodes = Ok (ws', s', bset') →
  attrs_le (variant s) (variant s')
  ∧ (known_source_types (variant s) → known_source_types (variant s')).
Proof.
  revert ws s bset. induction nodes as [|n nodes IH]; intros ws s bset H.
  - simpl in H. simplify_eq. split; [apply attrs_le_refl|done].
  - cbn [parse_branch_loop] in H.
    destruct (parse_branch smh validate (ws, s, bset) n)
      as [[[ws1 s1] bset1]|e] eqn:Hn; [|done].
    cbn in H. apply IH in H as [Hle Hk].
    assert (H1 : attrs_le (variant s) (variant s1)
                 ∧ (known_source_types (variant s)
                    → known_source_types (variant s1))).
    { unfold parse_branch in Hn. destruct validate.
      - cbn in Hn.
        destruct (SourceModelLogicTree.validate_uncertainty_value _ _ _ _)
          as [v1|] eqn:Hv; [|done].
        cbn in Hn.
        destruct (SourceModelLogicTree.parse_uncertainty_value _ _ _ _);
          [|done].
        cbn in Hn. case_decide; [done|]. simplify_eq. simpl.
        by apply sm_validate_uncertainty_value_grows in Hv.
      - cbn in Hn.
        destruct (SourceModelLogicTree.parse_uncertainty_value _ _ _ _);
          [|done].
        cbn in Hn. case_decide; [done|]. simplify_eq. simpl.
        split; [apply attrs_le_refl|done]. }
    destruct H1 as [Hle1 Hk1]. split; [by eapply attrs_le_trans|auto].
Qed.

Lemma sm_parse_filters_singleton node ut key (text : string) :
  @SourceModelLogicTree.parse_filters node ut {[ key := text ]}
  = if decide (key = "applyToSources"%string)
    then {[ key := FList (String.words text) ]}
    else {[ key := FText text ]}.
Proof.
  unfold SourceModelLogicTree.parse_filters. case_decide as Hk.
  - subst. rewrite lookup_singleton_eq. rewrite map_fmap_singleton.
    by rewrite insert_singleton_eq.
  - rewrite lookup_singleton_ne by done. by rewrite map_fmap_singleton.
Qed.

Lemma list_find_None_all (ids : list string) (P : string → Prop)
    `{∀ x, Decision (P x)} :
  list_find P ids = None → ∀ id, id ∈ ids → ¬ P id.
Proof.
  intros Hf id Hid. apply list_find_None in Hf.
  rewrite Forall_forall in Hf. by apply Hf.
Qed.

Lemma sm_validate_filters_ok v node v' :
  SourceModelLogicTree.validate_filters v node (uncertaintyType node)
    (raw_filters node) = Ok v' →
  known_source_types v →
  v' = v
  ∧ sm_branchset_filters v
      (mkBranchSet (uncertaintyType node) (node_filters smh node)
         (@nil (@Branch F G))).
Proof.
  unfold SourceModelLogicTree.validate_filters, node_filters. cbn.
  set (raw := raw_filters node). set (ut := uncertaintyType node).
  intros H Hknown.
  case_decide as Hsm; [done|]. case_decide as Hsize; [done|].
  assert (Hkeys : ∀ k x, raw !! k = Some x → k ∈ FILTERS).
  { intros k x Hk. unfold raw, raw_filters in Hk.
    by apply map_lookup_filter_Some in Hk as [_ Hk]. }
  destruct (map_size_le_1 raw) as [Hraw|(k & x & Hraw)]; [lia|  |].
  - (* no filter *)
    rewrite Hraw in H |- *. rewrite !lookup_empty in H. cbn in H.
    rewrite sm_parse_filters_empty. unfold sm_branchset_filters. simpl.
    destruct (decide (ut ∈ ["abGRAbsolute"; "maxMagGRAbsolute"]%string))
      as [Habs|Habs]; [done|].
    injection H as <-. split_and!; [done|by left|done|done].
  - (* one filter *)
    assert (Hk : k ∈ FILTERS) by (apply (Hkeys k x); rewrite Hraw;
                                  by rewrite lookup_singleton_eq).
    assert (Hnsm : ut ≠ "sourceModel"%string).
    { intros Hut. apply Hsm. split; [done|]. rewrite Hraw.
      apply insert_non_empty. }
    rewrite Hraw in H |- *. rewrite sm_parse_filters_singleton.
    unfold FILTERS in Hk.
    apply elem_of_cons in Hk as [->|Hk];
      [|apply elem_of_cons in Hk as [->|Hk];
        [|apply list_elem_of_singleton in Hk as ->]].
    + (* region type *)
      rewrite decide_False by done.
      rewrite lookup_singleton_eq in H.
      rewrite !lookup_singleton_ne in H by done.
      destruct (decide (x ∈ SourceModelLogicTree.tectonic_region_types v))
        as [Htrt|Htrt]; [|done].
      cbn in H.
      destruct (decide (ut ∈ ["abGRAbsolute"; "maxMagGRAbsolute"]%string))
        as [Habs|Habs]; [done|].
      injection H as <-.
      split; [done|]. split_and!; simpl; [|done|done].
      right. left. by exists x.
    + (* source ids *)
      rewrite decide_True by done.
      rewrite lookup_singleton_eq in H.
      rewrite !lookup_singleton_ne in H by done. cbn in H.
      destruct (list_find _ (String.words x)) as [[i sid]|] eqn:Hfind;
        [done|].
      cbn in H.
      assert (Hids : ∀ id, id ∈ String.words x
                           → id ∈ SourceModelLogicTree.source_ids v).
      { intros id Hid. apply dec_stable.
        by apply (list_find_None_all _ _ Hfind). }
      destruct (decide (ut ∈ ["abGRAbsolute"; "maxMagGRAbsolute"]%string))
        as [Habs|Habs].
      * destruct (decide (size ({["applyToSources"%string := x]}
                                  : gmap string string) = 1%nat
                          ∧ length (String.words x) = 1%nat))
          as [Hone|Hone]; [|done].
        injection H as <-.
        split; [done|]. split_and!; simpl; [|done|].
        -- right. right. right. by exists (String.words x).
        -- intros _. destruct Hone as [_ Hlen].
           destruct (String.words x) as [|id [|]]; try done. by exists id.
      * injection H as <-. split; [done|]. split_and!; simpl; [|done|done].
        right. right. right. by exists (String.words x).
    + (* source type *)
      rewrite decide_False by done.
      rewrite lookup_singleton_eq in H.
      rewrite !lookup_singleton_ne in H by done. cbn in H.
      destruct (decide (x ∈ SourceModelLogicTree.source_types v))
        as [Hst|Hst]; [|done].
      cbn in H.
      destruct (decide (ut ∈ ["abGRAbsolute"; "maxMagGRAbsolute"]%string))
        as [Habs|Habs]; [done|].
      injection H as <-.
      split; [done|]. split_and!; simpl; [|done|done].
      right. right. left. exists x. split_and!; [done..|]. by apply Hknown.
Qed.

Lemma sm_validated_filters content basepath filename seed0 n0
    (self : @BaseLogicTree F G SourceModelLogicTree.attrs) :
  SourceModelLogicTree.new float read_source_model content basepath
    filename true seed0 n0 = Ok self →
  known_source_types (variant self)
  ∧ Forall (sm_branchset_filters (variant self)) (branchsets self).
Proof.
  intros Hnew. unfold SourceModelLogicTree.new in Hnew.
  pose (I := λ (d k : nat) (v : SourceModelLogicTree.attrs)
               (store : list (@BranchSet F G)),
    known_source_types v ∧ Forall (sm_branchset_filters v) store).
  apply (store_induction smh true content I sm_apply_spec)
    with (v := SourceModelLogicTree.mkAttrs ∅ ∅ ∅) (basepath := basepath)
         (filename := filename) (seed0 := seed0) (n0 := n0);
    [| | |done|].
  - intros d k level node s s1 bset0 s2 bset Hd Hk [Hknown Hall] Hskip
      Hbs Hbr.
    pose proof (parse_branches_mirrors _ _ _ _ _ _ _ _ _ _ Hbs Hbr)
      as (Hut & Hfi & _).
    apply parse_branchset_inv in Hbs as (-> & Hvf & _). cbn in Hvf.
    apply sm_validate_filters_ok in Hvf as [Hv1 Hok]; [|done].
    unfold parse_branches in Hbr.
    destruct (parse_branch_loop _ _ _ _) as [[[ws1 s3] bset1]|] eqn:Hl;
      [|done].
    cbn in Hbr. destruct (Decimal.eq_one ws1); [|done]. simplify_eq.
    apply sm_parse_branch_loop_grows in Hl as [Hle Hk']. rewrite Hv1 in *.
    split; [by apply Hk'|]. apply Forall_app. split.
    + eapply Forall_impl; [exact Hall|]. intros b.
      by apply sm_branchset_filters_mono.
    + constructor; [|constructor].
      apply (sm_branchset_filters_mono _ _ _ Hle).
      destruct Hok as (H1 & H2 & H3). simpl in *.
      unfold sm_branchset_filters. rewrite Hut, Hfi. by split_and!.
  - intros d k level node v0 store Hd Hk HI Hskip. by cbn in Hskip.
  - by intros d level v0 store Hd HI.
  - split; [|constructor]. intros st Hst. simpl in Hst.
    by apply elem_of_empty in Hst.
Qed.
End SmFiltersProofs.

(** X9. In a validated source model tree every branchset has at most one
    filter; it names a tectonic region type, a source type or source ids
    that occur in the source models of the tree, and the source type is one
    of the five the module knows.  The branchset of the source models has
    no filter, and a branchset of an absolute uncertainty has exactly the
    filter applyToSources with one source id. *)
Theorem validated_filters_name_sources {F G : Type}
    (float : string → option F)
    (read_source_model
       : string → result (list SourceModelLogicTree.SourceNode))
    (content : list BranchingLevelNode)
    (basepath filename : string) (seed0 n0 : Z)
    (self : @BaseLogicTree F G SourceModelLogicTree.attrs) :
  SourceModelLogicTree.new float read_source_model content basepath
    filename true seed0 n0 = Ok self →
  Forall (sm_branchset_filters (variant self)) (branchsets self).
Proof. intros Hnew. by apply sm_validated_filters in Hnew as [_ ?]. Qed.

Lemma validated_filters_name_sources_witness :
  ∃ self,
    FilterExamples.sm_new FilterExamples.filtered "base" "lt.xml" true 0 0
    = Ok self
    ∧ length (branchsets self) = 3%nat
    ∧ Forall (sm_branchset_filters (variant self)) (branchsets self).
Proof.
  destruct (FilterExamples.sm_new FilterExamples.filtered "base" "lt.xml"
              true 0 0) as [self|e] eqn:Hnew; [|by vm_compute in Hnew].
  exists self. split; [done|]. split.
  - vm_compute in Hnew. by injection Hnew as <-.
  - apply (validated_filters_name_sources Examples.float
             FilterExamples.read_sources FilterExamples.filtered
             "base" "lt.xml" 0 0 self Hnew).
Defined.

(** ** filter_source *)
Section FilterSource.

Lemma filter_source_items_one key value source pass :
  filter_source_item key value source = Ok pass →
  filter_source_items [(key, value)] source = Ok pass.
Proof. intros H. cbn [filter_source_items]. rewrite H. by destruct pass. Qed.

Lemma filter_source_item_trt trt source :
  filter_source_item "applyToTectonicRegionType" (FText trt) source
  = Ok (bool_decide (FText trt
                     = FText (Source.tectonic_region_type source))).
Proof. unfold filter_source_item. by rewrite decide_True. Qed.

Lemma filter_source_item_ids ids source :
  filter_source_item "applyToSources" (FList ids) source
  = Ok (bool_decide (Source.source_id source ∈ ids)).
Proof.
  unfold filter_source_item. rewrite decide_False by done.
  rewrite decide_False by done. by rewrite decide_True.
Qed.

Lemma filter_source_item_type st source :
  st ∈ SourceModelLogicTree.SOURCE_TYPES →
  filter_source_item "applyToSourceType" (FText st) source
  = Ok (bool_decide (class_name (Source.class source) = Some st)).
Proof.
  intros Hst. unfold filter_source_item. rewrite decide_False by done.
  rewrite decide_True by done.
  unfold SourceModelLogicTree.SOURCE_TYPES in Hst.
  repeat (apply elem_of_cons in Hst as [->|Hst]);
    [..|by apply elem_of_nil in Hst];
    repeat (first [rewrite decide_True by done
                  |rewrite decide_False by done]);
    unfold Source.isinstance; by destruct (Source.class source).
Qed.

Lemma filter_source_items_valid v (fs : gmap string FilterValue)
    items source :
  sm_filters v fs → items ≡ₚ map_to_list fs →
  ∃ pass, filter_source_items items source = Ok pass
          ∧ (pass = true ↔ passes fs source).
Proof.
  intros [->|[(trt & -> & _)|[(st & -> & _ & Hst)|(ids & -> & _)]]] Hp.
  - rewrite map_to_list_empty in Hp. apply Permutation_nil_r in Hp as ->.
    exists true. split; [done|]. split; [|done]. intros _.
    unfold passes. rewrite !lookup_empty. by split_and!.
  - rewrite map_to_list_singleton in Hp.
    apply Permutation_singleton_r in Hp as ->.
    eexists. split.
    { apply filter_source_items_one, filter_source_item_trt. }
    unfold passes.
    rewrite lookup_singleton_eq, !lookup_singleton_ne by done.
    rewrite bool_decide_eq_true. split.
    + intros [= ->]. split_and!; [|done..]. by intros ? [= ->].
    + intros (H & _ & _). by rewrite (H trt eq_refl).
  - rewrite map_to_list_singleton in Hp.
    apply Permutation_singleton_r in Hp as ->.
    eexists. split.
    { by apply filter_source_items_one, filter_source_item_type. }
    unfold passes. rewrite lookup_singleton_eq.
    rewrite !lookup_singleton_ne by done.
    rewrite bool_decide_eq_true. split.
    + intros H. split_and!; [done| |done]. by intros ? [= <-].
    + intros (_ & H & _). by apply H.
  - rewrite map_to_list_singleton in Hp.
    apply Permutation_singleton_r in Hp as ->.
    eexists. split.
    { apply filter_source_items_one, filter_source_item_ids. }
    unfold passes.
    rewrite lookup_singleton_eq, !lookup_singleton_ne by done.
    rewrite bool_decide_eq_true. split.
    + intros Hin. split_and!; [done..|]. by intros ? [= <-].
    + intros (_ & _ & H). by apply H.
Qed.
End FilterSource.

(** X10. On the branchsets of a validated source model tree
    [filter_source] never raises: whatever the order in which the filters
    are handed out, it returns True exactly when the source meets the
    filter of the branchset, that is when the source has the region type,
    is of the class, or has one of the ids the filter names; an area source
    does not pass the source type "point". *)
Theorem filter_source_on_validated_tree {F G : Type}
    (float : string → option F)
    (read_source_model
       : string → result (list SourceModelLogicTree.SourceNode))
    (content : list BranchingLevelNode)
    (basepath filename : string) (seed0 n0 : Z)
    (self : @BaseLogicTree F G SourceModelLogicTree.attrs)
    (bset : @BranchSet F G) (source : Source.t) :
  SourceModelLogicTree.new float read_source_model content basepath
    filename true seed0 n0 = Ok self →
  bset ∈ branchsets self →
  ∃ pass,
    filter_source bset source = Ok pass
    ∧ (∀ items, items ≡ₚ map_to_list (filters bset) →
                filter_source_items items source = Ok pass)
    ∧ (pass = true ↔ passes (filters bset) source).
Proof.
  intros Hnew Hin. apply sm_validated_filters in Hnew as [_ Hall].
  rewrite Forall_forall in Hall. destruct (Hall _ Hin) as (Hfs & _ & _).
  destruct (filter_source_items_valid _ _ (map_to_list (filters bset))
              source Hfs) as (pass & Hpass & Hiff); [done|].
  exists pass. split_and!; [done| |done].
  intros items Hp.
  destruct (filter_source_items_valid _ _ items source Hfs Hp)
    as (pass' & Hpass' & Hiff').
  rewrite Hpass'. f_equal.
  destruct pass, pass'; try done.
  - by apply Hiff', Hiff.
  - symmetry. by apply Hiff, Hiff'.
Qed.

Lemma filter_source_on_validated_tree_witness :
  ∃ self bset,
    FilterExamples.sm_new FilterExamples.filtered "base" "lt.xml" true 0 0
    = Ok self
    ∧ branchsets self !! 1%nat = Some bset
    ∧ filters bset = {[ "applyToSourceType"%string := FText "area" ]}
    ∧ filter_source bset FilterExamples.area_source = Ok true
    ∧ passes (filters bset) FilterExamples.area_source.
Proof.
  destruct (FilterExamples.sm_new FilterExamples.filtered "base" "lt.xml"
              true 0 0) as [self|e] eqn:Hnew; [|by vm_compute in Hnew].
  destruct (branchsets self !! 1%nat) as [bset|] eqn:Hbset.
  2:{ vm_compute in Hnew. injection Hnew as <-. by vm_compute in Hbset. }
  exists self, bset. split; [done|]. split; [done|].
  assert (Hf : filters bset
               = {[ "applyToSourceType"%string := FText "area" ]}).
  { vm_compute in Hnew. injection Hnew as <-. vm_compute in Hbset.
    injection Hbset as <-. reflexivity. }
  split; [done|].
  destruct (filter_source_on_validated_tree Examples.float
              FilterExamples.read_sources FilterExamples.filtered
              "base" "lt.xml" 0 0 self bset FilterExamples.area_source Hnew)
    as (pass & Hpass & _ & Hiff).
  { by eapply list_elem_of_lookup_2. }
  assert (Hp : passes (filters bset) FilterExamples.area_source).
  { rewrite Hf. unfold passes.
    rewrite lookup_singleton_eq, !lookup_singleton_ne by done.
    split_and!; [done| |done]. by intros ? [= <-]. }
  split; [|done]. rewrite Hpass. f_equal. by apply Hiff.
Defined.

(** ** Walking along the ids of a path *)
Section PathWalkProofs.
Context {F G : Type}.
Context (store : list (@BranchSet F G)) (child : gmap string bsref).
Implicit Types (p : list (@Branch F G)).

Hypothesis Hnodup :
  ∀ bset, bset ∈ store → NoDup (branch_id <$> branches bset).

Lemma path_refs_length i p :
  tree_path store child i p → length (path_refs child i p) = length p.
Proof.
  induction 1 as [i bset b Hi Hb Hj|i bset b j p Hi Hb Hj Hp IH].
  - simpl. by rewrite Hj.
  - simpl. rewrite Hj. by rewrite IH.
Qed.

Lemma path_refs_owner i p k r b :
  tree_path store child i p →
  path_refs child i p !! k = Some r → p !! k = Some b →
  ∃ bset, store !! r = Some bset ∧ b ∈ branches bset.
Proof.
  intros Hp. revert k. induction Hp
    as [i bset b0 Hi Hb Hj|i bset b0 j p Hi Hb Hj Hp IH]; intros k Hr Hk.
  - destruct k as [|k]; [|done]. simpl in *. simplify_eq. eauto.
  - destruct k as [|k]; simpl in *.
    + simplify_eq. eauto.
    + rewrite Hj in Hr. by eapply IH.
Qed.

Lemma branchsets_and_uncertainties_path fuel i p extra acc :
  tree_path store child i p → (length p ≤ fuel)%nat →
  branchsets_and_uncertainties store child fuel (Some i)
    ((branch_id <$> p) ++ extra) acc
  = Some (Ok (acc ++ path_uncertainties store child i p)).
Proof.
  intros Hp. revert fuel acc.
  induction Hp as [i bset b Hi Hb Hj|i bset b j p Hi Hb Hj Hp IH];
    intros fuel acc Hfuel.
  - destruct fuel as [|fuel]; [simpl in Hfuel; lia|].
    cbn [branchsets_and_uncertainties fmap list_fmap app].
    rewrite Hi. cbn [mbind option_bind].
    rewrite get_branch_by_id_found;
      [|by apply Hnodup; eapply list_elem_of_lookup_2|done].
    rewrite Hj. unfold path_uncertainties. cbn. rewrite Hj. cbn.
    rewrite Hi. cbn. destruct fuel; cbn; case_decide;
      by rewrite ?app_nil_r.
  - destruct fuel as [|fuel]; [simpl in Hfuel; lia|].
    cbn [branchsets_and_uncertainties fmap list_fmap app].
    rewrite Hi. cbn [mbind option_bind].
    rewrite get_branch_by_id_found;
      [|by apply Hnodup; eapply list_elem_of_lookup_2|done].
    rewrite Hj. rewrite IH by (simpl in Hfuel; lia).
    unfold path_uncertainties. cbn [path_refs zip zip_with omap list_omap].
    rewrite Hj. cbn. rewrite Hi. cbn.
    case_decide; by rewrite <- ?app_assoc.
Qed.

Lemma branchsets_and_uncertainties_short fuel i p k acc :
  tree_path store child i p → (k < length p)%nat → (length p ≤ fuel)%nat →
  branchsets_and_uncertainties store child fuel (Some i)
    (take k (branch_id <$> p)) acc
  = Some (Raise IndexError).
Proof.
  intros Hp. revert fuel k acc.
  induction Hp as [i bset b Hi Hb Hj|i bset b j p Hi Hb Hj Hp IH];
    intros fuel k acc Hk Hfuel.
  - destruct fuel as [|fuel]; [simpl in Hfuel; lia|].
    destruct k as [|k]; [|simpl in Hk; lia].
    cbn [branchsets_and_uncertainties take]. by rewrite Hi.
  - destruct fuel as [|fuel]; [simpl in Hfuel; lia|].
    destruct k as [|k].
    + cbn [branchsets_and_uncertainties take]. by rewrite Hi.
    + cbn [branchsets_and_uncertainties fmap list_fmap take].
      rewrite Hi. cbn [mbind option_bind].
      rewrite get_branch_by_id_found;
        [|by apply Hnodup; eapply list_elem_of_lookup_2|done].
      rewrite Hj. apply IH; simpl in *; lia.
Qed.

Hypothesis Hchild : ∀ i bset b j,
  store !! i = Some bset → b ∈ branches bset →
  child !! branch_id b = Some j → (i < j)%nat.

Lemma tree_path_length i p :
  tree_path store child i p → (i + length p ≤ length store)%nat.
Proof.
  induction 1 as [i bset b Hi Hb Hj|i bset b j p Hi Hb Hj Hp IH].
  - apply lookup_lt_Some in Hi. simpl. lia.
  - pose proof (Hchild _ _ _ _ Hi Hb Hj). simpl. lia.
Qed.

Lemma path_refs_increase i p :
  tree_path store child i p →
  Forall (λ r, (i ≤ r)%nat) (path_refs child i p).
Proof.
  induction 1 as [i bset b Hi Hb Hj|i bset b j p Hi Hb Hj Hp IH].
  - simpl. rewrite Hj. by repeat constructor.
  - simpl. rewrite Hj. constructor; [done|].
    pose proof (Hchild _ _ _ _ Hi Hb Hj).
    eapply Forall_impl; [exact IH|]. simpl. intros; lia.
Qed.

Lemma path_uncertainties_all i p :
  (∀ r bset, (i ≤ r)%nat → store !! r = Some bset →
             uncertainty_type bset ≠ "sourceModel"%string) →
  tree_path store child i p →
  path_uncertainties store child i p
  = zip (path_refs child i p) (value <$> p).
Proof.
  intros Hall Hp. revert Hall.
  induction Hp as [i bset b Hi Hb Hj|i bset b j p Hi Hb Hj Hp IH];
    intros Hall.
  - unfold path_uncertainties. cbn. rewrite Hj. cbn. rewrite Hi. cbn.
    rewrite decide_False; [done|]. by eapply Hall.
  - unfold path_uncertainties. cbn [path_refs]. rewrite Hj.
    cbn [zip zip_with omap list_omap fmap list_fmap]. cbn. rewrite Hi. cbn.
    rewrite decide_False by (by eapply Hall). f_equal.
    apply IH. intros r bset' Hr. apply Hall.
    pose proof (Hchild _ _ _ _ Hi Hb Hj). lia.
Qed.
End PathWalkProofs.

(** X11. For a validated source model tree and the branch ids of a path
    from its root, [make_apply_uncertainties] collects one pair for every
    branch of the path but the first, the one of the source model: the
    branchset the branch belongs to and the value of the branch, in the
    order of the path.  Ids after those of the path are not looked at; with
    fewer ids than the path has branches, [pop] raises IndexError. *)
Theorem apply_uncertainties_follow_path {F G : Type}
    (float : string → option F)
    (read_source_model
       : string → result (list SourceModelLogicTree.SourceNode))
    (node : BranchSetNode) (others : list BranchSetNode)
    (levels : list BranchingLevelNode)
    (basepath filename : string) (seed0 n0 : Z)
    (self : @BaseLogicTree F G SourceModelLogicTree.attrs)
    (b : @Branch F G) (p : list (@Branch F G)) (fuel : nat) :
  SourceModelLogicTree.new float read_source_model
    ((node :: others) :: levels) basepath filename true seed0 n0 = Ok self →
  tree_path (branchsets self) (child_branchset self) 0 (b :: p) →
  (length (branchsets self) ≤ fuel)%nat →
  (∀ extra,
     make_apply_uncertainties fuel self ((branch_id <$> b :: p) ++ extra)
     = Some (Ok (zip (drop 1 (path_refs (child_branchset self) 0 (b :: p)))
                   (value <$> p))))
  ∧ length (drop 1 (path_refs (child_branchset self) 0 (b :: p))) = length p
  ∧ (∀ k r c,
       drop 1 (path_refs (child_branchset self) 0 (b :: p)) !! k = Some r →
       p !! k = Some c →
       ∃ bset, branchsets self !! r = Some bset ∧ c ∈ branches bset
               ∧ uncertainty_type bset ≠ "sourceModel"%string)
  ∧ (∀ k, (k ≤ length p)%nat →
       make_apply_uncertainties fuel self (take k (branch_id <$> b :: p))
       = Some (Raise IndexError)).
Proof.
  intros Hnew Hp Hfuel. pose proof Hnew as Hshape.
  apply sm_validated_shape in Hshape
    as (_ & root & rest & Hstore & Hroot & Hrest).
  apply (init_well_formed
           (SourceModelLogicTree.hooks float read_source_model)
           sm_apply_spec) in Hnew as ([lev Hinv] & _).
  pose proof (inv_root _ _ _ _ Hinv) as Hr. rewrite Hstore in Hr.
  assert (Hnd : ∀ bset, bset ∈ branchsets self →
                  NoDup (branch_id <$> branches bset)).
  { intros bset. apply NoDup_branchset_ids. apply (inv_nodup _ _ _ _ Hinv). }
  assert (Hchild : ∀ i bset c j,
            branchsets self !! i = Some bset → c ∈ branches bset →
            child_branchset self !! branch_id c = Some j → (i < j)%nat).
  { intros i bset c j Hi Hc Hj.
    by destruct (inv_child _ _ _ _ Hinv _ _ _ _ Hi Hc Hj). }
  assert (Hrest' : ∀ r bset, (1 ≤ r)%nat → branchsets self !! r = Some bset →
                     uncertainty_type bset ≠ "sourceModel"%string).
  { intros r bset Hr1 Hlook. rewrite Hstore in Hlook.
    destruct r as [|r]; [lia|]. simpl in Hlook.
    rewrite Forall_lookup in Hrest. by destruct (Hrest _ _ Hlook). }
  pose proof (tree_path_length _ _ Hchild _ _ Hp) as Hlen.
  pose proof (path_refs_length _ _ _ _ Hp) as Hrefs.
  assert (Hdrop : ∀ k r c,
            drop 1 (path_refs (child_branchset self) 0 (b :: p)) !! k
            = Some r →
            p !! k = Some c →
            ∃ bset, branchsets self !! r = Some bset ∧ c ∈ branches bset
                    ∧ uncertainty_type bset ≠ "sourceModel"%string).
  { intros k r c Hk Hc. rewrite lookup_drop in Hk.
    destruct (path_refs_owner _ _ _ _ (1 + k)%nat r c Hp Hk Hc)
      as (bset & Hbset & Hin).
    exists bset. split_and!; [done..|]. apply (Hrest' r); [|done].
    pose proof (path_refs_increase _ _ Hchild _ _ Hp) as Hinc.
    inversion Hp as [i bset0 b0 Hi Hb Hj|i bset0 b0 j p0 Hi Hb Hj Hp0];
      subst.
    - by destruct k.
    - simpl in Hk. rewrite Hj in Hk. simpl in Hk.
      pose proof (path_refs_increase _ _ Hchild _ _ Hp0) as Hinc0.
      rewrite Forall_lookup in Hinc0. specialize (Hinc0 _ _ Hk).
      pose proof (Hchild _ _ _ _ Hi Hb Hj). lia. }
  split_and!.
  - intros extra. unfold make_apply_uncertainties. rewrite Hr.
    rewrite (branchsets_and_uncertainties_path _ _ Hnd);
      [|done|simpl in *; lia].
    simpl. do 2 f_equal.
    inversion Hp as [i bset0 b0 Hi Hb Hj|i bset0 b0 j p0 Hi Hb Hj Hp0];
      subst.
    + unfold path_uncertainties. cbn. rewrite Hj. cbn. rewrite Hi. cbn.
      rewrite Hstore in Hi. simpl in Hi. simplify_eq.
      destruct Hroot as (-> & _). by rewrite decide_True.
    + unfold path_uncertainties. cbn [path_refs]. rewrite Hj.
      cbn [zip zip_with omap list_omap]. cbn. rewrite Hi. cbn.
      pose proof Hi as Hi'. rewrite Hstore in Hi'. simpl in Hi'.
      simplify_eq. destruct Hroot as (Hut & _).
      rewrite decide_True by done.
      apply (path_uncertainties_all _ _ Hchild); [|done].
      intros r bset' Hjr. apply Hrest'.
      pose proof (Hchild _ _ _ _ Hi Hb Hj). lia.
  - rewrite length_drop, Hrefs. simpl. lia.
  - exact Hdrop.
  - intros k Hk. unfold make_apply_uncertainties. rewrite Hr.
    apply (branchsets_and_uncertainties_short _ _ Hnd); [done| |].
    + simpl. lia.
    + simpl in *. lia.
Qed.

Lemma apply_uncertainties_follow_path_witness :
  ∃ self (b c : @Branch string string),
    Examples.sm_new Examples.two_levels "base" "lt.xml" true 0 0 = Ok self
    ∧ tree_path (branchsets self) (child_branchset self) 0 [b; c]
    ∧ (length (branchsets self) ≤ 2)%nat
    ∧ ∀ extra,
        make_apply_uncertainties 2 self ((branch_id <$> [b; c]) ++ extra)
        = Some (Ok (zip (drop 1 (path_refs (child_branchset self) 0 [b; c]))
                      (value <$> [c]))).
Proof.
  destruct (Examples.sm_new Examples.two_levels "base" "lt.xml" true 0 0)
    as [self|e] eqn:Hnew; [|by vm_compute in Hnew].
  pose proof Hnew as Hself. vm_compute in Hself. injection Hself as Hself.
  assert (Hp : ∃ b c : @Branch string string,
             tree_path (branchsets self) (child_branchset self) 0 [b; c]).
  { subst self. eexists _, _.
    eapply path_step;
      [reflexivity|apply list_elem_of_here|vm_compute; reflexivity|].
    eapply path_leaf;
      [reflexivity|apply list_elem_of_here|vm_compute; reflexivity]. }
  destruct Hp as (b & c & Hp).
  assert (Hlen : (length (branchsets self) ≤ 2)%nat).
  { subst self. simpl. lia. }
  exists self, b, c. split_and!; [done..|].
  apply (apply_uncertainties_follow_path Examples.float
           Examples.read_source_model _ _ _ "base" "lt.xml" 0 0 self b [c] 2
           Hnew Hp Hlen).
Defined.

(** ** The shape of a validated GMPE tree *)
Section GmpeShapeProofs.
Context {F G : Type} (GSIM : gmap string G).
Abbreviation gm := (@GMPELogicTree.hooks F G GSIM).
Implicit Types (s : @BaseLogicTree F G GMPELogicTree.attrs).

Lemma gmpe_validate_filters_ok v node ut raw v' :
  GMPELogicTree.validate_filters v node ut raw = Ok v' →
  ∃ trt, raw = {[ "applyToTectonicRegionType"%string := trt ]}
         ∧ trt ∈ GMPELogicTree.tectonic_region_types v
         ∧ (trt ∉ GMPELogicTree.defined_tectonic_region_types v)
         ∧ v' = GMPELogicTree.mkAttrs (GMPELogicTree.tectonic_region_types v)
                  ({[ trt ]} ∪ GMPELogicTree.defined_tectonic_region_types v).
Proof.
  unfold GMPELogicTree.validate_filters. intros H.
  destruct (raw !! "applyToTectonicRegionType"%string) as [trt|] eqn:Htrt;
    [|done].
  destruct (decide (size raw ≠ 1%nat)) as [Hsize|Hsize]; [done|].
  destruct (decide (trt ∉ GMPELogicTree.tectonic_region_types v))
    as [Hk|Hk]; [done|].
  destruct (decide (trt ∈ GMPELogicTree.defined_tectonic_region_types v))
    as [Hd|Hd]; [done|].
  simplify_eq. exists trt. split_and!; [|by apply dec_stable|done|done].
  apply dec_stable in Hsize.
  destruct (map_size_le_1 raw) as [->|(k & x & ->)]; [lia|done|].
  apply lookup_singleton_Some in Htrt as [-> ->]. done.
Qed.

Lemma gmpe_parsed_value node b n :
  parsed_value gm node b n →
  ∃ g, GSIM !! strip (uncertaintyModel n) = Some g ∧ value b = VGsim g.
Proof.
  intros (v & bset0 & _ & _ & Hp). cbn in Hp.
  unfold GMPELogicTree.parse_uncertainty_value in Hp.
  destruct (GSIM !! _) as [g|]; [|done]. simplify_eq. eauto.
Qed.

Lemma gmpe_step_shape d k node s s1 bset0 s2 bset :
  parse_branchset gm s node d k true = Ok (s1, bset0) →
  parse_branches gm s1 node bset0 true = Ok (s2, bset) →
  ∃ trt,
    gmpe_branchset GSIM trt bset
    ∧ trt ∈ GMPELogicTree.tectonic_region_types (variant s)
    ∧ (trt ∉ GMPELogicTree.defined_tectonic_region_types (variant s))
    ∧ variant s2
      = GMPELogicTree.mkAttrs
          (GMPELogicTree.tectonic_region_types (variant s))
          ({[ trt ]} ∪ GMPELogicTree.defined_tectonic_region_types (variant s))
    ∧ k = 0%nat.
Proof.
  intros Hbs Hbr.
  pose proof (parse_branches_mirrors _ _ _ _ _ _ _ _ _ _ Hbs Hbr)
    as (Hut & Hfi & Hvals).
  assert (Hv2 : variant s2 = variant s1).
  { unfold parse_branches in Hbr.
    destruct (parse_branch_loop _ _ _ _) as [[[ws3 s3] b3]|] eqn:Hl; [|done].
    cbn in Hbr. destruct (Decimal.eq_one ws3); [|done]. simplify_eq.
    by eapply gmpe_parse_branch_loop_variant. }
  apply parse_branchset_inv in Hbs as (-> & Hvf & Hvb). cbn in Hvf, Hvb.
  apply gmpe_validate_filters_ok in Hvf as (trt & Hraw & Hk & Hd & Hv1).
  unfold GMPELogicTree.validate_branchset in Hvb. simpl in Hvb.
  destruct (decide (uncertaintyType node ≠ "gmpeModel"%string))
    as [Hg|Hg]; [done|].
  destruct (decide (k ≠ 0%nat)) as [Hk0|Hk0]; [done|].
  apply dec_stable in Hg. apply dec_stable in Hk0.
  exists trt. split_and!; [|done|done|congruence|done].
  unfold gmpe_branchset. split_and!.
  - congruence.
  - rewrite Hfi. unfold node_filters. cbn.
    unfold GMPELogicTree.parse_filters. rewrite Hraw.
    apply map_fmap_singleton.
  - apply Forall_forall. intros b Hb.
    apply list_elem_of_lookup in Hb as [i Hi].
    destruct (Forall2_lookup_l _ _ _ _ _ Hvals Hi) as (n & _ & _ & _ & Hp).
    apply gmpe_parsed_value in Hp as (g & Hg1 & Hg2). eauto.
Qed.

Lemma gmpe_validated_shape trts content basepath filename seed0 n0
    (self : @BaseLogicTree F G GMPELogicTree.attrs) :
  GMPELogicTree.new GSIM trts content basepath filename true seed0 n0
  = Ok self →
  ∃ ts, Forall2 (gmpe_branchset GSIM) ts (branchsets self)
        ∧ NoDup ts ∧ ∀ t, t ∈ ts ↔ t ∈ trts.
Proof.
  intros Hnew. pose proof Hnew as Htree.
  unfold GMPELogicTree.new in Hnew.
  pose (I := λ (d k : nat) (v : GMPELogicTree.attrs)
               (store : list (@BranchSet F G)),
    GMPELogicTree.tectonic_region_types v = trts
    ∧ ∃ ts, Forall2 (gmpe_branchset GSIM) ts store
            ∧ NoDup ts
            ∧ (∀ t, t ∈ ts ↔ t ∈ GMPELogicTree.defined_tectonic_region_types v)
            ∧ ∀ t, t ∈ ts → t ∈ trts).
  assert (HI : I (length content) 0%nat (variant self) (branchsets self)).
  { apply (store_induction gm true content I base_apply_spec)
      with (v := GMPELogicTree.mkAttrs trts ∅) (basepath := basepath)
           (filename := filename) (seed0 := seed0) (n0 := n0);
      [| | |done|].
    - intros d k level node s s1 bset0 s2 bset Hd Hk HI Hskip Hbs Hbr.
      destruct (gmpe_step_shape _ _ _ _ _ _ _ _ Hbs Hbr)
        as (trt & Hshape & Hkn & Hdef & Hv2 & _).
      destruct HI as (Hknown & ts & Hall & Hnd & Hts & Hsub).
      split; [by rewrite Hv2|]. exists (ts ++ [trt]). split_and!.
      + apply Forall2_app; [done|]. constructor; [done|constructor].
      + apply NoDup_app. split_and!; [done| |apply NoDup_singleton].
        intros t Ht Ht'. apply list_elem_of_singleton in Ht' as ->.
        apply Hdef. by apply Hts.
      + intros t. rewrite Hv2. simpl. rewrite elem_of_app, Hts.
        rewrite list_elem_of_singleton. set_solver.
      + intros t Ht. apply elem_of_app in Ht as [Ht|Ht]; [by apply Hsub|].
        apply list_elem_of_singleton in Ht as ->. by rewrite <- Hknown.
    - intros d k level node v0 store Hd Hk HI Hskip. exact HI.
    - intros d level v0 store Hd HI. exact HI.
    - split; [done|]. exists []. split_and!; [constructor|constructor| |].
      + intros t. simpl. set_solver.
      + intros t Ht. by apply elem_of_nil in Ht. }
  destruct HI as (Hknown & ts & Hall & Hnd & Hts & Hsub).
  exists ts. split_and!; [done..|].
  intros t. split; [apply Hsub|]. intros Ht. apply Hts.
  unfold GMPELogicTree.new, init, parse_tree in Htree.
  destruct (parse_levels _ _ _ _ _) as [s|] eqn:Hl; [|done].
  cbn in Htree. unfold GMPELogicTree.validate_tree in Htree.
  case_decide as Hmiss; [done|]. cbn in Htree.
  injection Htree as Hs. subst s. rewrite <- Hknown in Ht.
  destruct (decide
    (t ∈ GMPELogicTree.defined_tectonic_region_types (variant self)));
    [done|]. set_solver.
Qed.
End GmpeShapeProofs.

(** X12. A validated GMPE tree has exactly one branchset for every
    tectonic region type it was constructed for, and no other: each is of
    type gmpeModel, its only filter is that region type, and the values of
    its branches are GSIMs of the registry. *)
Theorem validated_gmpe_tree_shape {F G : Type} (GSIM : gmap string G)
    (tectonic_region_types : gset string)
    (content : list BranchingLevelNode) (basepath filename : string)
    (seed0 n0 : Z) (self : @BaseLogicTree F G GMPELogicTree.attrs) :
  @GMPELogicTree.new F G GSIM tectonic_region_types content basepath
    filename true seed0 n0 = Ok self →
  ∃ trts,
    Forall2 (gmpe_branchset GSIM) trts (branchsets self)
    ∧ NoDup trts
    ∧ ∀ trt, trt ∈ trts ↔ trt ∈ tectonic_region_types.
Proof. apply gmpe_validated_shape. Qed.

Lemma validated_gmpe_tree_shape_witness :
  ∃ self,
    Examples.gmpe_new Examples.two_region_types Examples.gmpe_two_regions
      "base" "gmpe.xml" true 0 0 = Ok self
    ∧ ∃ trts,
        Forall2 (gmpe_branchset Examples.GSIM) trts (branchsets self)
        ∧ NoDup trts
        ∧ ∀ trt, trt ∈ trts ↔ trt ∈ Examples.two_region_types.
Proof.
  destruct (Examples.gmpe_new Examples.two_region_types
              Examples.gmpe_two_regions "base" "gmpe.xml" true 0 0)
    as [self|e] eqn:Hnew; [|by vm_compute in Hnew].
  exists self. split; [done|].
  apply (validated_gmpe_tree_shape Examples.GSIM Examples.two_region_types
           Examples.gmpe_two_regions "base" "gmpe.xml" 0 0 self Hnew).
Defined.

(** ** make_trt_to_gsim *)
Section TrtToGsim.
Context {F G : Type}.
Context (store : list (@BranchSet F G)) (child : gmap string bsref).
Context (ts : list string).
Implicit Types (p : list (@Branch F G)) (m : gmap string (Value F G)).

Hypothesis Hnodup :
  ∀ bset, bset ∈ store → NoDup (branch_id <$> branches bset).
Hypothesis Hchild : ∀ i bset b j,
  store !! i = Some bset → b ∈ branches bset →
  child !! branch_id b = Some j → (i < j)%nat.
Hypothesis Hts : Forall2 (λ t bset,
  filters bset !! "applyToTectonicRegionType"%string = Some (FText t))
  ts store.
Hypothesis Hnd : NoDup ts.

Lemma trt_to_gsim_loop_path fuel i p extra acc :
  tree_path store child i p → (length p ≤ fuel)%nat →
  (∀ r t, (i ≤ r)%nat → ts !! r = Some t → acc !! t = None) →
  ∃ m,
    trt_to_gsim_loop store child fuel (Some i)
      ((branch_id <$> p) ++ extra) acc = Some (inr m)
    ∧ (∀ k r c t, path_refs child i p !! k = Some r → p !! k = Some c →
                  ts !! r = Some t → m !! t = Some (value c))
    ∧ (∀ t, (∀ r, r ∈ path_refs child i p → ts !! r ≠ Some t) →
            m !! t = acc !! t).
Proof.
  intros Hp. revert fuel acc.
  induction Hp as [i bset b Hi Hb Hj|i bset b j p Hi Hb Hj Hp IH];
    intros fuel acc Hfuel Hacc.
  - destruct fuel as [|fuel]; [simpl in Hfuel; lia|].
    destruct (Forall2_lookup_r _ _ _ _ _ Hts Hi) as (t & Ht & Hf).
    cbn [trt_to_gsim_loop fmap list_fmap app].
    rewrite Hi. cbn [mbind option_bind].
    rewrite get_branch_by_id_found;
      [|by apply Hnodup; eapply list_elem_of_lookup_2|done].
    rewrite Hf. rewrite decide_False.
    2:{ rewrite (Hacc i t); [|lia|done]. by intros [? ?]. }
    rewrite Hj. exists (<[t := value b]> acc). split_and!.
    + by destruct fuel.
    + intros k r c t' Hr Hc Ht'. simpl in Hr. rewrite Hj in Hr.
      destruct k as [|k]; [|done]. simpl in *. simplify_eq.
      apply lookup_insert_eq.
    + intros t' Hnot. rewrite lookup_insert_ne; [done|].
      intros <-. apply (Hnot i); [|done]. simpl. apply list_elem_of_here.
  - destruct fuel as [|fuel]; [simpl in Hfuel; lia|].
    destruct (Forall2_lookup_r _ _ _ _ _ Hts Hi) as (t & Ht & Hf).
    pose proof (Hchild _ _ _ _ Hi Hb Hj) as Hij.
    cbn [trt_to_gsim_loop fmap list_fmap app].
    rewrite Hi. cbn [mbind option_bind].
    rewrite get_branch_by_id_found;
      [|by apply Hnodup; eapply list_elem_of_lookup_2|done].
    rewrite Hf. rewrite decide_False.
    2:{ rewrite (Hacc i t); [|lia|done]. by intros [? ?]. }
    rewrite Hj.
    destruct (IH fuel (<[t := value b]> acc)) as (m & Hm & Hin & Hout).
    { simpl in Hfuel. lia. }
    { intros r t' Hr Ht'. rewrite lookup_insert_ne.
      - apply (Hacc r); [lia|done].
      - intros <-. pose proof (NoDup_lookup _ _ _ _ Hnd Ht Ht'). lia. }
    exists m. split_and!; [done| |].
    + intros k r c t' Hr Hc Ht'. simpl in Hr. rewrite Hj in Hr.
      destruct k as [|k]; simpl in *.
      * simplify_eq. rewrite Hout; [apply lookup_insert_eq|].
        intros r' Hr' Ht''.
        pose proof (path_refs_increase _ _ Hchild _ _ Hp) as Hinc.
        rewrite Forall_forall in Hinc. specialize (Hinc _ Hr').
        pose proof (NoDup_lookup _ _ _ _ Hnd Ht Ht''). lia.
      * by eapply Hin.
    + intros t' Hnot. rewrite Hout.
      * rewrite lookup_insert_ne; [done|].
        intros <-. apply (Hnot i); [|done]. simpl. apply list_elem_of_here.
      * intros r Hr. apply Hnot. simpl. rewrite Hj.
        by apply list_elem_of_further.
Qed.
End TrtToGsim.

(** X13. For a validated GMPE tree and the branch ids of a path from its
    root, [make_trt_to_gsim] returns a dictionary: the assertion that a
    region type comes once never fails.  The dictionary maps the region
    type of the branchset of each branch of the path to the GSIM of that
    branch, and has no other key.  Ids after those of the path are not
    looked at. *)
Theorem trt_to_gsim_of_a_path {F G : Type} (GSIM : gmap string G)
    (tectonic_region_types : gset string)
    (content : list BranchingLevelNode) (basepath filename : string)
    (seed0 n0 : Z) (self : @BaseLogicTree F G GMPELogicTree.attrs)
    (p : list (@Branch F G)) (extra : list string) (fuel : nat) :
  @GMPELogicTree.new F G GSIM tectonic_region_types content basepath
    filename true seed0 n0 = Ok self →
  tree_path (branchsets self) (child_branchset self) 0 p →
  (length (branchsets self) ≤ fuel)%nat →
  ∃ trt_to_gsim,
    make_trt_to_gsim fuel self ((branch_id <$> p) ++ extra)
    = Some (inr trt_to_gsim)
    ∧ (∀ k r c bset trt,
         path_refs (child_branchset self) 0 p !! k = Some r →
         p !! k = Some c → branchsets self !! r = Some bset →
         filters bset = {[ "applyToTectonicRegionType"%string := FText trt ]} →
         trt_to_gsim !! trt = Some (value c)
         ∧ ∃ name g, GSIM !! name = Some g ∧ value c = VGsim g)
    ∧ (∀ trt, is_Some (trt_to_gsim !! trt) →
         trt ∈ tectonic_region_types
         ∧ ∃ r bset, r ∈ path_refs (child_branchset self) 0 p
                     ∧ branchsets self !! r = Some bset
                     ∧ filters bset
                       = {[ "applyToTectonicRegionType"%string
                            := FText trt ]}).
Proof.
  intros Hnew Hp Hfuel. pose proof Hnew as Hshape.
  apply gmpe_validated_shape in Hshape as (ts & Hall & Hnd & Hts).
  apply (init_well_formed (GMPELogicTree.hooks GSIM) base_apply_spec)
    in Hnew as ([lev Hinv] & _).
  assert (Hnodup : ∀ bset, bset ∈ branchsets self →
                     NoDup (branch_id <$> branches bset)).
  { intros bset. apply NoDup_branchset_ids. apply (inv_nodup _ _ _ _ Hinv). }
  assert (Hchild : ∀ i bset c j,
            branchsets self !! i = Some bset → c ∈ branches bset →
            child_branchset self !! branch_id c = Some j → (i < j)%nat).
  { intros i bset c j Hi Hc Hj.
    by destruct (inv_child _ _ _ _ Hinv _ _ _ _ Hi Hc Hj). }
  assert (Hfil : Forall2 (λ t (bset : @BranchSet F G),
            filters bset !! "applyToTectonicRegionType"%string
            = Some (FText t)) ts (branchsets self)).
  { eapply Forall2_impl; [exact Hall|]. intros t bset (_ & Hf & _).
    rewrite Hf. apply lookup_singleton_eq. }
  pose proof (tree_path_length _ _ Hchild _ _ Hp) as Hlen.
  assert (Hroot : root_branchset self = Some 0%nat).
  { rewrite (inv_root _ _ _ _ Hinv).
    inversion Hp as [i bset b Hi|i bset b j q Hi]; subst;
      by destruct (branchsets self). }
  destruct (trt_to_gsim_loop_path _ _ ts Hnodup Hchild Hfil Hnd fuel 0 p
              extra ∅ Hp) as (m & Hm & Hin & Hout).
  { lia. }
  { intros r t _ _. apply lookup_empty. }
  exists m. unfold make_trt_to_gsim. rewrite Hroot. split_and!; [done| |].
  - intros k r c bset trt Hr Hc Hbset Hf.
    destruct (Forall2_lookup_r _ _ _ _ _ Hall Hbset)
      as (t & Ht & _ & Hf' & Hvals).
    rewrite Hf in Hf'. apply (f_equal (lookup "applyToTectonicRegionType"))
      in Hf'. rewrite !lookup_singleton_eq in Hf'. simplify_eq. split.
    + by eapply Hin.
    + destruct (path_refs_owner _ _ _ _ _ _ _ Hp Hr Hc) as (bset' & Hb' & Hc').
      simplify_eq. rewrite Forall_forall in Hvals. by apply Hvals.
  - intros trt Hsome.
    destruct (decide (Exists (λ r, ts !! r = Some trt)
                        (path_refs (child_branchset self) 0 p)))
      as [Hyes|Hno].
    + apply Exists_exists in Hyes as (r & Hr & Ht). split; [apply Hts; by eapply list_elem_of_lookup_2|].
      destruct (Forall2_lookup_l _ _ _ _ _ Hall Ht)
        as (bset & Hbset & _ & Hf & _).
      by exists r, bset.
    + rewrite Hout in Hsome.
      * rewrite lookup_empty in Hsome. by destruct Hsome.
      * intros r Hr Ht. apply Hno. apply Exists_exists. by exists r.
Qed.

Lemma trt_to_gsim_of_a_path_witness :
  ∃ self (b c : @Branch string string),
    Examples.gmpe_new Examples.two_region_types Examples.gmpe_two_regions
      "base" "gmpe.xml" true 0 0 = Ok self
    ∧ tree_path (branchsets self) (child_branchset self) 0 [b; c]
    ∧ (length (branchsets self) ≤ 2)%nat
    ∧ ∃ trt_to_gsim,
        make_trt_to_gsim 2 self ((branch_id <$> [b; c]) ++ [])
        = Some (inr trt_to_gsim)
        ∧ ∀ trt, is_Some (trt_to_gsim !! trt) →
                 trt ∈ Examples.two_region_types.
Proof.
  destruct (Examples.gmpe_new Examples.two_region_types
              Examples.gmpe_two_regions "base" "gmpe.xml" true 0 0)
    as [self|e] eqn:Hnew; [|by vm_compute in Hnew].
  pose proof Hnew as Hself. vm_compute in Hself. injection Hself as Hself.
  assert (Hp : ∃ b c : @Branch string string,
             tree_path (branchsets self) (child_branchset self) 0 [b; c]).
  { subst self. eexists _, _.
    eapply path_step;
      [reflexivity|apply list_elem_of_here|vm_compute; reflexivity|].
    eapply path_leaf;
      [reflexivity|apply list_elem_of_here|vm_compute; reflexivity]. }
  destruct Hp as (b & c & Hp).
  assert (Hlen : (length (branchsets self) ≤ 2)%nat).
  { subst self. simpl. lia. }
  exists self, b, c. split_and!; [done..|].
  destruct (trt_to_gsim_of_a_path Examples.GSIM Examples.two_region_types
              Examples.gmpe_two_regions "base" "gmpe.xml" 0 0 self
              [b; c] [] 2 Hnew Hp Hlen) as (m & Hm & _ & Hkeys).
  exists m. split; [done|]. intros trt Htrt. by destruct (Hkeys trt Htrt).
Defined.
